(** * FilesystemVerifierAction: a model of
      payload_consumer/filesystem_verifier_action.cc

    The action re-reads every partition named by an [InstallPlan], hashes it,
    and compares the digest with the one of the plan.  The C++ code is a chain
    of member functions that call each other in tail position and re-enter
    through a task posted on the message loop.  The embedding keeps one Rocq
    definition per member function, over an explicit record of the member
    variables; a tail call stores the callee in the field [pc], and the
    message loop is the function [exec] that runs whatever [pc] names.

    Collaborators that live outside the file (file descriptor, hash
    calculator, verity writer, dynamic partition control, message loop) are
    an oracle record [Env].  Every answer of an oracle may depend on the whole
    history of the run, which is the list of events emitted so far.

    What the file takes from its header, which is not among the sources:
    partition_size_, offset_ and filesystem_data_end_ are uint64_t,
    partition_index_ starts at 0, verifier_step_ at kVerifyTargetHash and
    cancelled_ at false.  size_t is taken to be 64 bits wide.  Log output is
    left out, except the line that announces a pass, which the order checker
    uses to tell passes apart. *)

From Stdlib Require Import ZArith QArith List String Bool Lia.
From Stdlib.Strings Require Import Byte.
Import ListNotations.
Local Open Scope Z_scope.

(** ** Data model *)

(** The error codes of common/error_code.h that this file produces. *)
Inductive ErrorCode :=
| kSuccess
| kError
| kFilesystemVerifierError
| kNewRootfsVerificationError
| kDownloadStateInitializationError
| kVerityCalculationError.

Definition ErrorCode_eqb (a b : ErrorCode) : bool :=
  match a, b with
  | kSuccess, kSuccess
  | kError, kError
  | kFilesystemVerifierError, kFilesystemVerifierError
  | kNewRootfsVerificationError, kNewRootfsVerificationError
  | kDownloadStateInitializationError, kDownloadStateInitializationError
  | kVerityCalculationError, kVerityCalculationError => true
  | _, _ => false
  end.

Inductive VerifierStep := kVerifyTargetHash | kVerifySourceHash.

Definition VerifierStep_eqb (a b : VerifierStep) : bool :=
  match a, b with
  | kVerifyTargetHash, kVerifyTargetHash
  | kVerifySourceHash, kVerifySourceHash => true
  | _, _ => false
  end.

(** brillo::Blob, a vector of bytes. *)
Definition Blob := list byte.

Fixpoint blob_eqb (a b : Blob) : bool :=
  match a, b with
  | [], [] => true
  | x :: a', y :: b' => Byte.eqb x y && blob_eqb a' b'
  | _, _ => false
  end.

Definition blob_empty (a : Blob) : bool :=
  match a with [] => true | _ => false end.

Definition string_empty (s : string) : bool :=
  match s with EmptyString => true | _ => false end.

(** InstallPlan::Partition, the fields this file reads.  Sizes and offsets
    are uint64_t in the code; they are Z here, and [Partition_in_range]
    says that a value fits. *)
Record Partition := {
  name : string;
  source_path : string;
  source_size : Z;
  source_hash : Blob;
  target_path : string;
  readonly_target_path : string;
  target_size : Z;
  target_hash : Blob;
  hash_tree_offset : Z;
  hash_tree_size : Z;
  fec_offset : Z;
  fec_size : Z
}.

Definition Slot := Z.

Record InstallPlan := {
  source_slot : Slot;
  target_slot : Slot;
  write_verity : bool;
  partitions : list Partition;
  untouched_dynamic_partitions : list string
}.

Definition two64 : Z := 2 ^ 64.

(** Arithmetic on uint64_t wraps around. *)
Definition wrap64 (z : Z) : Z := z mod two64.

Definition u64 (z : Z) : Prop := 0 <= z < two64.

Definition Partition_in_range (p : Partition) : Prop :=
  u64 (source_size p) /\ u64 (target_size p) /\
  u64 (hash_tree_offset p) /\ u64 (hash_tree_size p) /\
  u64 (fec_offset p) /\ u64 (fec_size p).

Definition InstallPlan_in_range (plan : InstallPlan) : Prop :=
  Forall Partition_in_range (partitions plan).

(** ** Progress values

    The progress handed to the delegate is a C++ double.  Rounding is not
    modelled: a finite double is the exact rational, and the two special
    values that a division by zero produces are kept apart.  Only
    non-negative operands occur in this file. *)
Inductive double :=
| DFin (q : Q)
| DInf
| DNaN.

Definition double_of_Z (z : Z) : double := DFin (inject_Z z).

Definition ddiv (a b : double) : double :=
  match a, b with
  | DFin x, DFin y =>
      if Qeq_bool y 0 then (if Qeq_bool x 0 then DNaN else DInf)
      else DFin (x / y)
  | DFin _, DInf => DFin 0
  | DInf, DFin _ => DInf
  | _, _ => DNaN
  end.

Definition dadd (a b : double) : double :=
  match a, b with
  | DFin x, DFin y => DFin (x + y)
  | DNaN, _ | _, DNaN => DNaN
  | _, _ => DInf
  end.

(** [a <= b] on doubles; every comparison with NaN is false. *)
Definition dle (a b : double) : Prop :=
  match a, b with
  | DFin x, DFin y => (x <= y)%Q
  | DFin _, DInf | DInf, DInf => True
  | _, _ => False
  end.

Definition dleb (a b : double) : bool :=
  match a, b with
  | DFin x, DFin y => Qle_bool x y
  | DFin _, DInf | DInf, DInf => true
  | _, _ => false
  end.

(** A value of the closed interval [0.0, 1.0]. *)
Definition in_unit_interval (a : double) : Prop :=
  dle (DFin 0) a /\ dle a (DFin 1).

(** ** Events

    What the action does to the outside world, newest first in [trace]. *)
Inductive Event :=
| EvSetOutputObject (plan : InstallPlan)
| EvActionComplete (code : ErrorCode)
| EvProgress (v : double)
| EvUnmapAllPartitions
| EvMapAllPartitions
| EvVerifyExtents (src tgt : Slot) (names : list string) (ok : bool)
| EvHashingPartition (index : nat) (step : VerifierStep) (path : string)
| EvSetBlockDeviceReadOnly (path : string) (readonly : bool)
| EvOpen (path : string) (writable : bool) (ok : bool)
| EvOpenCowFd (pname : string) (path : string) (ok : bool)
| EvSeek (offset : Z)
| EvRead (offset : Z) (count : Z) (result : Z)
| EvHasherUpdate (count : Z) (ok : bool)
| EvHasherFinalize (ok : bool)
| EvVerityInit (index : nat) (ok : bool)
| EvVerityUpdate (offset : Z) (count : Z) (ok : bool)
| EvVerityFinalize (ok : bool)
| EvPostTask (bytes_read : Z)
| EvCancelTask (ok : bool)
| EvCheckFailed.

Definition History := list Event.

(** ** The collaborators *)
Record Env := {
  (* Action pipe and delegate *)
  has_output_pipe : bool;
  has_delegate : bool;
  (* DynamicPartitionControlInterface *)
  uses_snapshot_compression : bool;
  is_dynamic_partition : string -> Slot -> bool;
  open_cow_fd : History -> string -> string -> bool;
  verify_extents : History -> Slot -> Slot -> list string -> bool;
  (* FileDescriptor: Open(path, flags), Read(position, count) *)
  fd_open : History -> string -> bool -> bool;
  fd_read : History -> Z -> Z -> Z;
  (* HashCalculator *)
  hasher_update : History -> Z -> bool;
  hasher_finalize : History -> bool;
  hasher_raw_hash : History -> Blob;
  (* VerityWriterInterface; Finalize also leaves the descriptor somewhere *)
  verity_init : History -> Partition -> bool;
  verity_update : History -> Z -> Z -> bool;
  verity_finalize : History -> bool * Z;
  (* brillo::MessageLoop::CancelTask *)
  cancel_task : History -> bool
}.

(** The contract of read(2): at most [count] bytes come back. *)
Definition reads_bounded (env : Env) : Prop :=
  forall h pos count, fd_read env h pos count <= count.

(** ** The member variables *)

(** Which member function runs next, or which part of a long one:
    StartPartitionHashing continues at [PcStartPartitionHashing_opened] once
    it has asked for the descriptor, ReadVerityAndFooter at
    [PcReadVerityAndFooterLoop] before each test of its while condition.
    [PcIdle] is the message loop, [PcAborted] a failed CHECK or a use of a
    null pointer. *)
Inductive Pc :=
| PcStartPartitionHashing
| PcStartPartitionHashing_opened (success : bool)
| PcScheduleFileSystemRead
| PcReadVerityAndFooter
| PcReadVerityAndFooterLoop (bytes_to_read : Z)
| PcFinishPartitionHashing
| PcIdle
| PcAborted.

Record State := mkState {
  install_plan_ : InstallPlan;
  partition_index_ : nat;
  verifier_step_ : VerifierStep;
  partition_size_ : Z;
  offset_ : Z;
  filesystem_data_end_ : Z;
  cancelled_ : bool;
  (* the descriptor, as its position, when there is one *)
  partition_fd_ : option Z;
  (* buffer_.size() *)
  buffer_ : Z;
  (* whether hasher_ holds a HashCalculator *)
  hasher_ : bool;
  (* the argument bound to the posted OnReadDone, while it is queued *)
  pending_task_ : option Z;
  trace : History;
  pc : Pc
}.

Definition set_install_plan_ v s :=
  mkState v (partition_index_ s) (verifier_step_ s) (partition_size_ s)
    (offset_ s) (filesystem_data_end_ s) (cancelled_ s) (partition_fd_ s)
    (buffer_ s) (hasher_ s) (pending_task_ s) (trace s) (pc s).
Definition set_partition_index_ v s :=
  mkState (install_plan_ s) v (verifier_step_ s) (partition_size_ s)
    (offset_ s) (filesystem_data_end_ s) (cancelled_ s) (partition_fd_ s)
    (buffer_ s) (hasher_ s) (pending_task_ s) (trace s) (pc s).
Definition set_verifier_step_ v s :=
  mkState (install_plan_ s) (partition_index_ s) v (partition_size_ s)
    (offset_ s) (filesystem_data_end_ s) (cancelled_ s) (partition_fd_ s)
    (buffer_ s) (hasher_ s) (pending_task_ s) (trace s) (pc s).
Definition set_partition_size_ v s :=
  mkState (install_plan_ s) (partition_index_ s) (verifier_step_ s) v
    (offset_ s) (filesystem_data_end_ s) (cancelled_ s) (partition_fd_ s)
    (buffer_ s) (hasher_ s) (pending_task_ s) (trace s) (pc s).
Definition set_offset_ v s :=
  mkState (install_plan_ s) (partition_index_ s) (verifier_step_ s)
    (partition_size_ s) v (filesystem_data_end_ s) (cancelled_ s)
    (partition_fd_ s) (buffer_ s) (hasher_ s) (pending_task_ s) (trace s)
    (pc s).
Definition set_filesystem_data_end_ v s :=
  mkState (install_plan_ s) (partition_index_ s) (verifier_step_ s)
    (partition_size_ s) (offset_ s) v (cancelled_ s) (partition_fd_ s)
    (buffer_ s) (hasher_ s) (pending_task_ s) (trace s) (pc s).
Definition set_cancelled_ v s :=
  mkState (install_plan_ s) (partition_index_ s) (verifier_step_ s)
    (partition_size_ s) (offset_ s) (filesystem_data_end_ s) v
    (partition_fd_ s) (buffer_ s) (hasher_ s) (pending_task_ s) (trace s)
    (pc s).
Definition set_partition_fd_ v s :=
  mkState (install_plan_ s) (partition_index_ s) (verifier_step_ s)
    (partition_size_ s) (offset_ s) (filesystem_data_end_ s) (cancelled_ s)
    v (buffer_ s) (hasher_ s) (pending_task_ s) (trace s) (pc s).
Definition set_buffer_ v s :=
  mkState (install_plan_ s) (partition_index_ s) (verifier_step_ s)
    (partition_size_ s) (offset_ s) (filesystem_data_end_ s) (cancelled_ s)
    (partition_fd_ s) v (hasher_ s) (pending_task_ s) (trace s) (pc s).
Definition set_hasher_ v s :=
  mkState (install_plan_ s) (partition_index_ s) (verifier_step_ s)
    (partition_size_ s) (offset_ s) (filesystem_data_end_ s) (cancelled_ s)
    (partition_fd_ s) (buffer_ s) v (pending_task_ s) (trace s) (pc s).
Definition set_pending_task_ v s :=
  mkState (install_plan_ s) (partition_index_ s) (verifier_step_ s)
    (partition_size_ s) (offset_ s) (filesystem_data_end_ s) (cancelled_ s)
    (partition_fd_ s) (buffer_ s) (hasher_ s) v (trace s) (pc s).
Definition set_trace v s :=
  mkState (install_plan_ s) (partition_index_ s) (verifier_step_ s)
    (partition_size_ s) (offset_ s) (filesystem_data_end_ s) (cancelled_ s)
    (partition_fd_ s) (buffer_ s) (hasher_ s) (pending_task_ s) v (pc s).
Definition set_pc v s :=
  mkState (install_plan_ s) (partition_index_ s) (verifier_step_ s)
    (partition_size_ s) (offset_ s) (filesystem_data_end_ s) (cancelled_ s)
    (partition_fd_ s) (buffer_ s) (hasher_ s) (pending_task_ s) (trace s) v.

Definition emit (e : Event) (s : State) : State := set_trace (e :: trace s) s.

(** A tail call, a return to the message loop, and the end of the process. *)
Definition call (f : Pc) (s : State) : State := set_pc f s.
Definition ret (s : State) : State := set_pc PcIdle s.
Definition abort (s : State) : State := set_pc PcAborted s.

Definition kReadFileBufferSize : Z := 128 * 1024.

Definition empty_plan : InstallPlan :=
  {| source_slot := 0; target_slot := 0; write_verity := false;
     partitions := []; untouched_dynamic_partitions := [] |}.

(** The members as the constructor leaves them. *)
Definition initial_state : State :=
  {| install_plan_ := empty_plan;
     partition_index_ := 0%nat;
     verifier_step_ := kVerifyTargetHash;
     partition_size_ := 0;
     offset_ := 0;
     filesystem_data_end_ := 0;
     cancelled_ := false;
     partition_fd_ := None;
     buffer_ := 0;
     hasher_ := false;
     pending_task_ := None;
     trace := [];
     pc := PcIdle |}.

Definition current_partition (s : State) : option Partition :=
  nth_error (partitions (install_plan_ s)) (partition_index_ s).

(** [filesystem_data_end_] as StartPartitionHashing selects it. *)
Definition select_data_end (p : Partition) (partition_size : Z) : Z :=
  if negb (hash_tree_offset p =? 0) then hash_tree_offset p
  else if negb (fec_offset p =? 0) then fec_offset p
  else partition_size.

(** The argument of UpdateProgress in OnReadDone. *)
Definition progress_value (offset partition_size : Z) (index count : nat)
  : double :=
  ddiv (dadd (ddiv (double_of_Z offset) (double_of_Z partition_size))
             (double_of_Z (Z.of_nat index)))
       (double_of_Z (Z.of_nat count)).

Section Action.

Variable env : Env.

Definition UpdateProgress (progress : double) (s : State) : State :=
  if has_delegate env then emit (EvProgress progress) s else s.

Definition Cleanup (code : ErrorCode) (s : State) : State :=
  let s := set_partition_fd_ None s in
  let s := set_buffer_ 0 s in
  let s :=
    if negb (write_verity (install_plan_ s)) && uses_snapshot_compression env
    then emit EvUnmapAllPartitions s else s in
  if cancelled_ s then ret s
  else
    let s :=
      if ErrorCode_eqb code kSuccess && has_output_pipe env
      then emit (EvSetOutputObject (install_plan_ s)) s else s in
    let s := UpdateProgress (DFin 1) s in
    ret (emit (EvActionComplete code) s).

(** The ScopedActionCompleter of PerformAction completes the action with
    kError unless told otherwise, when PerformAction returns.  On a plan with
    partitions PerformAction calls StartPartitionHashing and then disarms
    the completer, so the call is the tail call of the model. *)
Definition PerformAction (input : option InstallPlan) (s : State) : State :=
  match input with
  | None => ret (emit (EvActionComplete kError) s)
  | Some plan =>
      let s := set_install_plan_ plan s in
      match partitions (install_plan_ s) with
      | [] =>
          let s :=
            if has_output_pipe env
            then emit (EvSetOutputObject (install_plan_ s)) s else s in
          ret (emit (EvActionComplete kSuccess) s)
      | _ :: _ => call PcStartPartitionHashing s
      end
  end.

Definition ShouldWriteVerity (s : State) : bool :=
  match current_partition s with
  | Some partition =>
      VerifierStep_eqb (verifier_step_ s) kVerifyTargetHash &&
      write_verity (install_plan_ s) &&
      ((0 <? hash_tree_size partition) || (0 <? fec_size partition))
  | None => false
  end.

Definition InitializeFd (part_path : string) (s : State) : bool * State :=
  let s := set_partition_fd_ (Some 0) s in
  let write_verity := ShouldWriteVerity s in
  let s := emit (EvSetBlockDeviceReadOnly part_path (negb write_verity)) s in
  let ok := fd_open env (trace s) part_path write_verity in
  (ok, emit (EvOpen part_path write_verity ok) s).

Definition InitializeFdVABC (partition : Partition) (s : State)
  : bool * State :=
  if negb (ShouldWriteVerity s) then
    let s := emit EvUnmapAllPartitions s in
    let s := emit EvMapAllPartitions s in
    InitializeFd (readonly_target_path partition) s
  else
    let ok :=
      open_cow_fd env (trace s) (name partition) (source_path partition) in
    let s := emit (EvOpenCowFd (name partition) (source_path partition) ok) s in
    if negb ok then (false, set_partition_fd_ None s)
    else
      let s := set_partition_fd_ (Some 0) s in
      (true, set_partition_size_ (target_size partition) s).

(** StartPartitionHashing from the point where the descriptor has been
    asked for; [partition] is still
    install_plan_.partitions[partition_index_]. *)
Definition StartPartitionHashing_opened (success : bool) (s : State)
  : State :=
  match current_partition s with
  | None => abort s
  | Some partition =>
  if negb success then Cleanup kFilesystemVerifierError s
  else
    let s := set_buffer_ kReadFileBufferSize s in
    let s := set_hasher_ true s in
    let s := set_offset_ 0 s in
    let s := set_filesystem_data_end_ (partition_size_ s) s in
    if negb (hash_tree_offset partition <=? fec_offset partition)
    then abort (emit EvCheckFailed s)
    else
      let s :=
        if negb (hash_tree_offset partition =? 0)
        then set_filesystem_data_end_ (hash_tree_offset partition) s
        else if negb (fec_offset partition =? 0)
        then set_filesystem_data_end_ (fec_offset partition) s
        else s in
      if ShouldWriteVerity s then
        let ok := verity_init env (trace s) partition in
        let s := emit (EvVerityInit (partition_index_ s) ok) s in
        if negb ok then Cleanup kVerityCalculationError s
        else call PcScheduleFileSystemRead s
      else call PcScheduleFileSystemRead s
  end.

Definition StartPartitionHashing (s : State) : State :=
  if Nat.eqb (partition_index_ s)
             (List.length (partitions (install_plan_ s))) then
    if negb (match untouched_dynamic_partitions (install_plan_ s) with
             | [] => true | _ => false end) then
      let plan := install_plan_ s in
      let ok := verify_extents env (trace s) (source_slot plan)
                  (target_slot plan) (untouched_dynamic_partitions plan) in
      let s := emit (EvVerifyExtents (source_slot plan) (target_slot plan)
                       (untouched_dynamic_partitions plan) ok) s in
      if negb ok then Cleanup kFilesystemVerifierError s
      else Cleanup kSuccess s
    else Cleanup kSuccess s
  else
    match current_partition s with
    | None => abort s
    | Some partition =>
        let part_path :=
          match verifier_step_ s with
          | kVerifySourceHash => source_path partition
          | kVerifyTargetHash => target_path partition
          end in
        let s :=
          match verifier_step_ s with
          | kVerifySourceHash =>
              set_partition_size_ (source_size partition) s
          | kVerifyTargetHash =>
              set_partition_size_ (target_size partition) s
          end in
        let s := emit (EvHashingPartition (partition_index_ s)
                         (verifier_step_ s) part_path) s in
        if uses_snapshot_compression env &&
           VerifierStep_eqb (verifier_step_ s) kVerifyTargetHash &&
           is_dynamic_partition env (name partition)
             (target_slot (install_plan_ s))
        then
          let '(success, s) := InitializeFdVABC partition s in
          call (PcStartPartitionHashing_opened success) s
        else if string_empty part_path then
          if partition_size_ s =? 0 then
            let s := set_partition_index_ (S (partition_index_ s)) s in
            call PcStartPartitionHashing s
          else Cleanup kFilesystemVerifierError s
        else
          let '(success, s) := InitializeFd part_path s in
          call (PcStartPartitionHashing_opened success) s
    end.

(** partition_fd_->Seek(offset, SEEK_SET); the code ignores its result. *)
Definition Seek (offset : Z) (s : State) : State :=
  emit (EvSeek offset) (set_partition_fd_ (Some offset) s).

(** partition_fd_->Read(buffer_.data(), count), at the position of the
    descriptor, which moves by what was read. *)
Definition Read (position count : Z) (s : State) : Z * State :=
  let bytes_read := fd_read env (trace s) position count in
  let s := emit (EvRead position count bytes_read) s in
  (bytes_read, set_partition_fd_ (Some (position + Z.max 0 bytes_read)) s).

Definition ScheduleFileSystemRead (s : State) : State :=
  let bytes_to_read :=
    Z.min (buffer_ s) (wrap64 (filesystem_data_end_ s - offset_ s)) in
  if bytes_to_read =? 0 then call PcReadVerityAndFooter s
  else
    match partition_fd_ s with
    | None => abort s
    | Some _ =>
        let s := Seek (offset_ s) s in
        let '(bytes_read, s) := Read (offset_ s) bytes_to_read s in
        if bytes_read <? 0 then Cleanup kError s
        else
          let s := set_pending_task_ (Some bytes_read) s in
          ret (emit (EvPostTask bytes_read) s)
    end.

(** OnReadDone after the progress update. *)
Definition OnReadDone_advance (bytes_read : Z) (s : State) : State :=
  let s := set_offset_ (wrap64 (offset_ s + bytes_read)) s in
  if offset_ s =? filesystem_data_end_ s then call PcReadVerityAndFooter s
  else call PcScheduleFileSystemRead s.

Definition OnReadDone (bytes_read : Z) (s : State) : State :=
  if cancelled_ s then Cleanup kError s
  else if bytes_read =? 0 then Cleanup kFilesystemVerifierError s
  else
    let ok := hasher_update env (trace s) bytes_read in
    let s := emit (EvHasherUpdate bytes_read ok) s in
    if negb ok then Cleanup kError s
    else
      let s :=
        UpdateProgress
          (progress_value (offset_ s) (partition_size_ s)
             (partition_index_ s)
             (List.length (partitions (install_plan_ s)))) s in
      if ShouldWriteVerity s then
        let ok := verity_update env (trace s) (offset_ s) bytes_read in
        let s := emit (EvVerityUpdate (offset_ s) bytes_read ok) s in
        if negb ok then Cleanup kVerityCalculationError s
        else OnReadDone_advance bytes_read s
      else OnReadDone_advance bytes_read s.

(** ReadVerityAndFooter after the verity writer is done: the seek and the
    initial value of the local bytes_to_read. *)
Definition ReadVerityAndFooter_seek (s : State) : State :=
  let s := Seek (filesystem_data_end_ s) s in
  call (PcReadVerityAndFooterLoop
          (wrap64 (partition_size_ s - filesystem_data_end_ s))) s.

Definition ReadVerityAndFooter (s : State) : State :=
  match partition_fd_ s with
  | None => abort s
  | Some _ =>
      if ShouldWriteVerity s then
        let '(ok, position) := verity_finalize env (trace s) in
        let s := emit (EvVerityFinalize ok) s in
        let s := set_partition_fd_ (Some position) s in
        if negb ok then Cleanup kFilesystemVerifierError s
        else ReadVerityAndFooter_seek s
      else ReadVerityAndFooter_seek s
  end.

(** One test of the while condition of ReadVerityAndFooter and, when it
    holds, one run of the loop body. *)
Definition ReadVerityAndFooterLoop (bytes_to_read : Z) (s : State) : State :=
  if 0 <? bytes_to_read then
    match partition_fd_ s with
    | None => abort s
    | Some position =>
        let read_size := Z.min (buffer_ s) bytes_to_read in
        let '(bytes_read, s) := Read position read_size s in
        if bytes_read <=? 0 then Cleanup kFilesystemVerifierError s
        else
          let ok := hasher_update env (trace s) bytes_read in
          let s := emit (EvHasherUpdate bytes_read ok) s in
          if negb ok then Cleanup kError s
          else
            call (PcReadVerityAndFooterLoop
                    (wrap64 (bytes_to_read - bytes_read))) s
    end
  else call PcFinishPartitionHashing s.

(** The end of FinishPartitionHashing: "Start hashing the next partition,
    if any". *)
Definition FinishPartitionHashing_next (s : State) : State :=
  let s := set_hasher_ false s in
  let s := set_buffer_ 0 s in
  let s := set_partition_fd_ None s in
  call PcStartPartitionHashing s.

Definition FinishPartitionHashing (s : State) : State :=
  let ok := hasher_finalize env (trace s) in
  let raw_hash := hasher_raw_hash env (trace s) in
  let s := emit (EvHasherFinalize ok) s in
  if negb ok then Cleanup kError s
  else
    match current_partition s with
    | None => abort s
    | Some partition =>
        match verifier_step_ s with
        | kVerifyTargetHash =>
            if negb (blob_eqb (target_hash partition) raw_hash) then
              if blob_empty (source_hash partition)
              then Cleanup kNewRootfsVerificationError s
              else
                let s := set_verifier_step_ kVerifySourceHash s in
                FinishPartitionHashing_next s
            else
              let s := set_partition_index_ (S (partition_index_ s)) s in
              FinishPartitionHashing_next s
        | kVerifySourceHash =>
            if negb (blob_eqb (source_hash partition) raw_hash)
            then Cleanup kDownloadStateInitializationError s
            else Cleanup kNewRootfsVerificationError s
        end
    end.

(** CancelTask reports whether the task was still queued and removed. *)
Definition TerminateProcessing (s : State) : State :=
  let ok := cancel_task env (trace s) in
  let s := emit (EvCancelTask ok) s in
  let s := if ok then set_pending_task_ None s else s in
  let s := set_cancelled_ true s in
  Cleanup kSuccess s.

(** ** The message loop *)

(** One turn: the function that [pc] names, or, from the loop, the queued
    task. *)
Definition exec (s : State) : State :=
  match pc s with
  | PcStartPartitionHashing => StartPartitionHashing s
  | PcStartPartitionHashing_opened success =>
      StartPartitionHashing_opened success s
  | PcScheduleFileSystemRead => ScheduleFileSystemRead s
  | PcReadVerityAndFooter => ReadVerityAndFooter s
  | PcReadVerityAndFooterLoop bytes_to_read =>
      ReadVerityAndFooterLoop bytes_to_read s
  | PcFinishPartitionHashing => FinishPartitionHashing s
  | PcIdle =>
      match pending_task_ s with
      | Some bytes_read => OnReadDone bytes_read (set_pending_task_ None s)
      | None => s
      end
  | PcAborted => s
  end.

(** What can happen next: the action runs on, or the processor asks it to
    stop.  The loop is single threaded, so a stop request is served between
    two tasks only. *)
Inductive Input := Tick | Cancel.

Definition next (i : Input) (s : State) : State :=
  match i with
  | Tick => exec s
  | Cancel =>
      match pc s with
      | PcIdle => TerminateProcessing s
      | _ => s
      end
  end.

Definition run (inputs : list Input) (s : State) : State :=
  fold_left (fun s i => next i s) inputs s.

Definition start (input : option InstallPlan) : State :=
  PerformAction input initial_state.

End Action.

(** ** Reading a history *)

(** The completion codes handed to the processor, newest first. *)
Fixpoint completions (h : History) : list ErrorCode :=
  match h with
  | [] => []
  | EvActionComplete code :: h' => code :: completions h'
  | _ :: h' => completions h'
  end.

(** The plans put in the output pipe, newest first. *)
Fixpoint outputs (h : History) : list InstallPlan :=
  match h with
  | [] => []
  | EvSetOutputObject plan :: h' => plan :: outputs h'
  | _ :: h' => outputs h'
  end.

(** The progress values given to the delegate, newest first. *)
Fixpoint progress (h : History) : list double :=
  match h with
  | [] => []
  | EvProgress v :: h' => v :: progress h'
  | _ :: h' => progress h'
  end.

(** The collaborators' refusals that the verity and extent claims are
    about, newest first. *)
Inductive Failure :=
| FailVerityInit
| FailVerityUpdate
| FailVerityFinalize
| FailVerifyExtents.

Definition failure_code (f : Failure) : ErrorCode :=
  match f with
  | FailVerityInit | FailVerityUpdate => kVerityCalculationError
  | FailVerityFinalize | FailVerifyExtents => kFilesystemVerifierError
  end.

Fixpoint failures (h : History) : list Failure :=
  match h with
  | [] => []
  | EvVerityInit _ false :: h' => FailVerityInit :: failures h'
  | EvVerityUpdate _ _ false :: h' => FailVerityUpdate :: failures h'
  | EvVerityFinalize false :: h' => FailVerityFinalize :: failures h'
  | EvVerifyExtents _ _ _ false :: h' => FailVerifyExtents :: failures h'
  | _ :: h' => failures h'
  end.

(** The extent checks that passed, with their arguments, newest first. *)
Fixpoint extents_verified (h : History) : list (Slot * Slot * list string) :=
  match h with
  | [] => []
  | EvVerifyExtents src tgt names true :: h' =>
      (src, tgt, names) :: extents_verified h'
  | _ :: h' => extents_verified h'
  end.

(** [filesystem_data_end] in the words of the specification:
    min(hash_tree_offset if >0, fec_offset if >0, partition_size). *)
Definition data_end_as_specified (p : Partition) (partition_size : Z) : Z :=
  let m := partition_size in
  let m := if 0 <? fec_offset p then Z.min (fec_offset p) m else m in
  if 0 <? hash_tree_offset p then Z.min (hash_tree_offset p) m else m.

(** The path and the size that StartPartitionHashing resolves for a step. *)
Definition step_path (step : VerifierStep) (p : Partition) : string :=
  match step with
  | kVerifySourceHash => source_path p
  | kVerifyTargetHash => target_path p
  end.

Definition step_size (step : VerifierStep) (p : Partition) : Z :=
  match step with
  | kVerifySourceHash => source_size p
  | kVerifyTargetHash => target_size p
  end.

(** The condition under which StartPartitionHashing calls
    InitializeFdVABC. *)
Definition takes_vabc_branch (env : Env) (s : State) (p : Partition) : bool :=
  uses_snapshot_compression env &&
  VerifierStep_eqb (verifier_step_ s) kVerifyTargetHash &&
  is_dynamic_partition env (name p) (target_slot (install_plan_ s)).

(** ** The order of reads and verity writes

    A checker over histories for the ordering contract: within the pass of a
    partition on which verity is written, a read that touches a byte at or
    after [filesystem_data_end] is accepted only after VerityWriter::Finalize
    has returned true in that pass, and only as part of a sequence of reads
    that starts with a seek to [filesystem_data_end] and continues where the
    previous read ended. *)
Record Pass := mkPass {
  pass_data_end : Z;
  (* whether this pass writes verity *)
  pass_verity : bool;
  (* whether Finalize has returned true in this pass *)
  pass_finalized : bool;
  (* where the next read continues the sweep of the verity region *)
  pass_position : option Z
}.

Definition pass_of (plan : InstallPlan) (index : nat) (step : VerifierStep)
  : option Pass :=
  match nth_error (partitions plan) index with
  | Some p =>
      Some {| pass_data_end := select_data_end p (step_size step p);
              pass_verity :=
                VerifierStep_eqb step kVerifyTargetHash &&
                write_verity plan &&
                ((0 <? hash_tree_size p) || (0 <? fec_size p));
              pass_finalized := false;
              pass_position := None |}
  | None => None
  end.

Definition pass_finalize (ok : bool) (pass : Pass) : Pass :=
  mkPass (pass_data_end pass) (pass_verity pass) ok None.

Definition pass_seek (offset : Z) (pass : Pass) : Pass :=
  if pass_finalized pass then
    mkPass (pass_data_end pass) (pass_verity pass) true
      (if offset =? pass_data_end pass then Some offset else None)
  else pass.

Definition read_contiguous (pass : Pass) (offset : Z) : bool :=
  pass_finalized pass &&
  match pass_position pass with
  | Some position => position =? offset
  | None => false
  end &&
  (pass_data_end pass <=? offset).

Definition read_touches_verity (pass : Pass) (offset count : Z) : bool :=
  pass_verity pass && (pass_data_end pass <? offset + count).

Definition pass_read (offset result : Z) (pass : Pass) : Pass :=
  if pass_finalized pass then
    mkPass (pass_data_end pass) (pass_verity pass) true
      (if read_contiguous pass offset
       then Some (offset + Z.max 0 result) else None)
  else pass.

(** [None] rejects the history; [Some st] is the pass it is in. *)
Definition check_event (plan : InstallPlan) (st : option Pass) (e : Event)
  : option (option Pass) :=
  match e with
  | EvHashingPartition index step _ => Some (pass_of plan index step)
  | EvVerityFinalize ok => Some (option_map (pass_finalize ok) st)
  | EvSeek offset => Some (option_map (pass_seek offset) st)
  | EvRead offset count result =>
      match st with
      | None => Some None
      | Some pass =>
          if read_touches_verity pass offset count &&
             negb (read_contiguous pass offset)
          then None
          else Some (Some (pass_read offset result pass))
      end
  | _ => Some st
  end.

Fixpoint check_order (plan : InstallPlan) (h : History)
  : option (option Pass) :=
  match h with
  | [] => Some None
  | e :: h' =>
      match check_order plan h' with
      | Some st => check_event plan st e
      | None => None
      end
  end.

Definition verity_order_ok (plan : InstallPlan) (h : History) : bool :=
  match check_order plan h with
  | Some _ => true
  | None => false
  end.

(** ** Invariants and measures used in the proofs *)

(** The action is between the opening of a partition and the comparison of
    its digest. *)
Definition in_pass (s : State) : Prop :=
  match pc s with
  | PcStartPartitionHashing_opened _
  | PcScheduleFileSystemRead | PcReadVerityAndFooter
  | PcReadVerityAndFooterLoop _ | PcFinishPartitionHashing => True
  | _ => False
  end.

(** The shape of every state of a run on [plan]: the plan is never
    written, a call chain runs uncancelled with nothing queued and nothing
    completed, the action completes at most once, and the index stays in
    the plan. *)
Record Inv (plan : InstallPlan) (s : State) : Prop := {
  inv_plan : install_plan_ s = plan;
  inv_running :
    pc s <> PcIdle ->
    cancelled_ s = false /\ pending_task_ s = None /\
    completions (trace s) = [];
  inv_once : (List.length (completions (trace s)) <= 1)%nat;
  inv_complete : completions (trace s) <> [] -> pending_task_ s = None;
  inv_index :
    (partition_index_ s <= List.length (partitions plan))%nat;
  inv_current :
    in_pass s \/ pending_task_ s <> None ->
    (partition_index_ s < List.length (partitions plan))%nat
}.

(** What the history of a run holds before and after its completion. *)
Definition InvOut (env : Env) (plan : InstallPlan) (s : State) : Prop :=
  (completions (trace s) = [] ->
   failures (trace s) = [] /\ outputs (trace s) = [] /\
   extents_verified (trace s) = []) /\
  (forall c, completions (trace s) = [c] ->
   Forall (fun f => failure_code f = c) (failures (trace s)) /\
   outputs (trace s) =
     (if ErrorCode_eqb c kSuccess && has_output_pipe env
      then [plan] else []) /\
   (c = kSuccess -> partitions plan <> [] ->
    partition_index_ s = List.length (partitions plan) /\
    (untouched_dynamic_partitions plan <> [] ->
     extents_verified (trace s) =
       [(source_slot plan, target_slot plan,
         untouched_dynamic_partitions plan)]))).

(** An event that the checker does not look at. *)
Definition order_neutral (e : Event) : Prop :=
  match e with
  | EvHashingPartition _ _ _ | EvVerityFinalize _ | EvSeek _ | EvRead _ _ _ =>
      False
  | _ => True
  end.

(** The first phase of a pass, up to [filesystem_data_end_]. *)
Definition in_phase_a (st : option Pass) (s : State) : Prop :=
  exists pass,
    st = Some pass /\
    pass_data_end pass = filesystem_data_end_ s /\
    pass_verity pass = ShouldWriteVerity s /\
    pass_finalized pass = false /\
    0 <= offset_ s <= filesystem_data_end_ s /\
    filesystem_data_end_ s < two64.

(** The sweep of the region behind [filesystem_data_end_]. *)
Definition in_phase_c (st : option Pass) (s : State) : Prop :=
  exists pass,
    st = Some pass /\
    pass_data_end pass = filesystem_data_end_ s /\
    (pass_verity pass = true ->
     pass_finalized pass = true /\
     exists position,
       partition_fd_ s = Some position /\
       pass_position pass = Some position /\
       filesystem_data_end_ s <= position).

(** The order checker accepts the history, and its pass agrees with the
    members of the action. *)
Definition InvOrder (plan : InstallPlan) (s : State) : Prop :=
  exists st,
    check_order plan (trace s) = Some st /\
    match pc s with
    | PcStartPartitionHashing_opened _ =>
        st = pass_of plan (partition_index_ s) (verifier_step_ s) /\
        exists p, current_partition s = Some p /\
                  partition_size_ s = step_size (verifier_step_ s) p
    | PcScheduleFileSystemRead | PcReadVerityAndFooter => in_phase_a st s
    | PcReadVerityAndFooterLoop _ => in_phase_c st s
    | PcIdle =>
        forall bytes_read,
          pending_task_ s = Some bytes_read -> cancelled_ s = false ->
          in_phase_a st s /\ 0 <= bytes_read /\
          offset_ s + bytes_read <= filesystem_data_end_ s
    | _ => True
    end.

(** The fraction of the current partition that has been read, and the
    progress over the whole plan that OnReadDone computes from it. *)
Definition frac (offset size : Z) : Q := inject_Z offset / inject_Z size.

Definition overall (x : Q) (index count : nat) : Q :=
  (x + inject_Z (Z.of_nat index)) / inject_Z (Z.of_nat count).

(** Each value is at least the one delivered before it. *)
Fixpoint monotone_newest_first (l : list double) : Prop :=
  match l with
  | newer :: rest =>
      match rest with
      | older :: _ => dle older newer
      | [] => True
      end /\ monotone_newest_first rest
  | [] => True
  end.

Fixpoint monotone_newest_firstb (l : list double) : bool :=
  match l with
  | newer :: rest =>
      match rest with
      | older :: _ => dleb older newer
      | [] => true
      end && monotone_newest_firstb rest
  | [] => true
  end.

(** A delivered value between 0 and [bound]. *)
Definition reported (bound : Q) (v : double) : Prop :=
  dle (DFin 0) v /\ dle v (DFin bound).

(** The largest progress a state can have reported so far. *)
Definition frontier (s : State) : Q :=
  let count := List.length (partitions (install_plan_ s)) in
  match pc s with
  | PcStartPartitionHashing | PcStartPartitionHashing_opened _ =>
      overall 0 (partition_index_ s) count
  | PcScheduleFileSystemRead =>
      overall (frac (offset_ s) (partition_size_ s)) (partition_index_ s)
        count
  | PcReadVerityAndFooter | PcReadVerityAndFooterLoop _
  | PcFinishPartitionHashing =>
      overall 1 (partition_index_ s) count
  | PcIdle =>
      match pending_task_ s with
      | Some _ =>
          if cancelled_ s then 1%Q
          else overall (frac (offset_ s) (partition_size_ s))
                 (partition_index_ s) count
      | None => 1%Q
      end
  | PcAborted => 1%Q
  end.

(** A state from which OnReadDone can still report progress. *)
Definition reading (s : State) : Prop :=
  match pc s with
  | PcScheduleFileSystemRead => True
  | PcIdle => pending_task_ s <> None /\ cancelled_ s = false
  | _ => False
  end.

(** While the action is in the target step the delivered values are
    monotone and below the frontier; a completed action has delivered 1. *)
Definition InvProg (env : Env) (plan : InstallPlan) (s : State) : Prop :=
  (verifier_step_ s = kVerifyTargetHash ->
   monotone_newest_first (progress (trace s)) /\
   Forall (reported (frontier s)) (progress (trace s)) /\
   (0 <= frontier s)%Q /\ (frontier s <= 1)%Q /\
   (reading s -> filesystem_data_end_ s <= partition_size_ s)) /\
  (has_delegate env = true -> completions (trace s) <> [] ->
   partitions plan <> [] ->
   exists rest, progress (trace s) = DFin 1 :: rest).

(** [lo <= oldest <= ... <= newest <= hi] for values listed newest first. *)
Fixpoint chain (lo : Q) (newest_first : list Q) (hi : Q) : Prop :=
  match newest_first with
  | [] => (lo <= hi)%Q
  | v :: older => (v <= hi)%Q /\ chain lo older v
  end.

(** ** Scenarios

    Concrete collaborators and plans, used to run the model. *)

(** A read returns all it was asked for, the hasher and the verity writer
    succeed, and the digest of every pass is [raw_hash].  The parameters say
    whether the update uses snapshot compression (every partition is then
    dynamic), whether a descriptor can be opened, whether CancelTask finds
    the task, and what the extent check answers. *)
Definition env_scenario (raw_hash : Blob)
    (snapshot_compression open_ok cancel_ok extents_ok : bool) : Env :=
  {| has_output_pipe := true;
     has_delegate := true;
     uses_snapshot_compression := snapshot_compression;
     is_dynamic_partition := fun _ _ => true;
     open_cow_fd := fun _ _ _ => open_ok;
     verify_extents := fun _ _ _ _ => extents_ok;
     fd_open := fun _ _ _ => open_ok;
     fd_read := fun _ _ count => count;
     hasher_update := fun _ _ => true;
     hasher_finalize := fun _ => true;
     hasher_raw_hash := fun _ => raw_hash;
     verity_init := fun _ _ => true;
     verity_update := fun _ _ _ => true;
     verity_finalize := fun _ => (true, 0);
     cancel_task := fun _ => cancel_ok |}.

Definition env_all_ok (raw_hash : Blob) : Env :=
  env_scenario raw_hash false true true true.

Definition digest_a : Blob := [x0a].
Definition digest_b : Blob := [x0b].
Definition digest_c : Blob := [x0c].

(** A delta update of one partition of 4096 bytes. *)
Definition system_delta : Partition :=
  {| name := "system";
     source_path := "/dev/block/system_a";
     source_size := 4096;
     source_hash := digest_a;
     target_path := "/dev/block/system_b";
     readonly_target_path := "";
     target_size := 4096;
     target_hash := digest_b;
     hash_tree_offset := 0;
     hash_tree_size := 0;
     fec_offset := 0;
     fec_size := 0 |}.

Definition plan_delta : InstallPlan :=
  {| source_slot := 0;
     target_slot := 1;
     write_verity := false;
     partitions := [system_delta];
     untouched_dynamic_partitions := ["vendor"%string] |}.

(** No partition to verify, one untouched dynamic partition. *)
Definition plan_no_partitions : InstallPlan :=
  {| source_slot := 0;
     target_slot := 1;
     write_verity := false;
     partitions := [];
     untouched_dynamic_partitions := ["vendor"%string] |}.

(** The delta plan after the target pass has read its 4096 bytes, with a
    digest that is not the expected one. *)
Definition state_before_finish : State :=
  run (env_all_ok digest_c) (repeat Tick 6)
    (start (env_all_ok digest_c) (Some plan_delta)).

(** The delta plan with its first read task queued, on a loop whose
    CancelTask does not find the task. *)
Definition env_cancel_late : Env :=
  env_scenario digest_b false true false true.

Definition state_read_queued : State :=
  run env_cancel_late (repeat Tick 3) (start env_cancel_late (Some plan_delta)).

(** A delta update whose target carries verity data behind 8192 bytes of
    file system, over a source of 4096 bytes. *)
Definition system_verity_layout : Partition :=
  {| name := "system";
     source_path := "/dev/block/system_a";
     source_size := 4096;
     source_hash := digest_a;
     target_path := "/dev/block/system_b";
     readonly_target_path := "";
     target_size := 16384;
     target_hash := digest_b;
     hash_tree_offset := 8192;
     hash_tree_size := 4096;
     fec_offset := 12288;
     fec_size := 4096 |}.

Definition plan_verity_layout : InstallPlan :=
  {| source_slot := 0;
     target_slot := 1;
     write_verity := false;
     partitions := [system_verity_layout];
     untouched_dynamic_partitions := [] |}.

(** A partition with no device on either slot and nothing to hash. *)
Definition partition_no_device (pname : string) : Partition :=
  {| name := pname;
     source_path := "";
     source_size := 0;
     source_hash := [];
     target_path := "";
     readonly_target_path := "";
     target_size := 0;
     target_hash := [];
     hash_tree_offset := 0;
     hash_tree_size := 0;
     fec_offset := 0;
     fec_size := 0 |}.

Definition plan_no_devices : InstallPlan :=
  {| source_slot := 0;
     target_slot := 1;
     write_verity := false;
     partitions := [partition_no_device "odm"; partition_no_device "oem"];
     untouched_dynamic_partitions := ["vendor"%string] |}.

(** Snapshot compression in use, and no device behind the empty path. *)
Definition env_vabc_no_device : Env :=
  env_scenario digest_a true false true true.

(** The extent check of the untouched partitions fails. *)
Definition env_extents_differ : Env :=
  env_scenario digest_a false true true false.

(** A full update of one partition whose verity data is written by this
    action: 8192 bytes of file system, then hash tree and FEC. *)
Definition system_verity_write : Partition :=
  {| name := "system";
     source_path := "";
     source_size := 0;
     source_hash := [];
     target_path := "/dev/block/system_b";
     readonly_target_path := "";
     target_size := 16384;
     target_hash := digest_b;
     hash_tree_offset := 8192;
     hash_tree_size := 4096;
     fec_offset := 12288;
     fec_size := 4096 |}.

Definition plan_verity_write : InstallPlan :=
  {| source_slot := 0;
     target_slot := 1;
     write_verity := true;
     partitions := [system_verity_write];
     untouched_dynamic_partitions := [] |}.

(** A delta update whose source is smaller than the file system part of
    the target. *)
Definition system_small_source : Partition :=
  {| name := "system";
     source_path := "/dev/block/system_a";
     source_size := 131072;
     source_hash := digest_a;
     target_path := "/dev/block/system_b";
     readonly_target_path := "";
     target_size := 524288;
     target_hash := digest_b;
     hash_tree_offset := 393216;
     hash_tree_size := 65536;
     fec_offset := 458752;
     fec_size := 65536 |}.

Definition plan_small_source : InstallPlan :=
  {| source_slot := 0;
     target_slot := 1;
     write_verity := false;
     partitions := [system_small_source];
     untouched_dynamic_partitions := [] |}.

(** Collaborators that succeed, over a block device of [device_size]
    bytes: a read returns what is left of the device behind the position,
    at most what was asked for, and nothing at its end.  The digest of
    every pass is [raw_hash]. *)
Definition env_device (raw_hash : Blob) (device_size : Z) : Env :=
  {| has_output_pipe := true;
     has_delegate := true;
     uses_snapshot_compression := false;
     is_dynamic_partition := fun _ _ => true;
     open_cow_fd := fun _ _ _ => true;
     verify_extents := fun _ _ _ _ => true;
     fd_open := fun _ _ _ => true;
     fd_read := fun _ pos count => Z.max 0 (Z.min count (device_size - pos));
     hasher_update := fun _ _ => true;
     hasher_finalize := fun _ => true;
     hasher_raw_hash := fun _ => raw_hash;
     verity_init := fun _ _ => true;
     verity_update := fun _ _ _ => true;
     verity_finalize := fun _ => (true, 0);
     cancel_task := fun _ => true |}.

(** ** Resources

    What the action reads and what it holds on to. *)

(** The read requests of a history as (offset, count, result), newest
    first. *)
Fixpoint reads (h : History) : list (Z * Z * Z) :=
  match h with
  | [] => []
  | EvRead offset count result :: h' => (offset, count, result) :: reads h'
  | _ :: h' => reads h'
  end.

(** A request for at least one byte and at most a buffer full. *)
Definition read_fits_buffer (r : Z * Z * Z) : Prop :=
  0 < snd (fst r) <= kReadFileBufferSize.

(** The states in which a member function is about to use the descriptor or
    the buffer. *)
Definition holds_descriptor (s : State) : Prop :=
  match pc s with
  | PcStartPartitionHashing_opened success => success = true
  | PcScheduleFileSystemRead | PcReadVerityAndFooter
  | PcReadVerityAndFooterLoop _ => True
  | PcIdle => pending_task_ s <> None /\ cancelled_ s = false
  | _ => False
  end.

Definition holds_buffer (s : State) : Prop :=
  match pc s with
  | PcScheduleFileSystemRead | PcReadVerityAndFooter
  | PcReadVerityAndFooterLoop _ => True
  | PcIdle => pending_task_ s <> None /\ cancelled_ s = false
  | _ => False
  end.

(** The failed CHECK_LE of StartPartitionHashing. *)
Definition check_failed (s : State) : Prop :=
  exists h p,
    trace s = EvCheckFailed :: h /\
    current_partition s = Some p /\
    fec_offset p < hash_tree_offset p.

(** What the action holds on to, and when it has let go. *)
Record InvRes (s : State) : Prop := {
  res_released :
    completions (trace s) <> [] \/ cancelled_ s = true ->
    partition_fd_ s = None /\ buffer_ s = 0 /\ pc s = PcIdle;
  res_descriptor : holds_descriptor s -> partition_fd_ s <> None;
  res_buffer : holds_buffer s -> buffer_ s = kReadFileBufferSize;
  res_completed :
    pc s = PcIdle -> pending_task_ s = None -> cancelled_ s = false ->
    completions (trace s) <> [];
  res_aborted : pc s = PcAborted -> check_failed s;
  res_reads : Forall read_fits_buffer (reads (trace s))
}.

(** A partition with a hash tree and no FEC data. *)
Definition system_hash_tree_only : Partition :=
  {| name := "system";
     source_path := "";
     source_size := 0;
     source_hash := [];
     target_path := "/dev/block/system_b";
     readonly_target_path := "";
     target_size := 16384;
     target_hash := digest_b;
     hash_tree_offset := 8192;
     hash_tree_size := 4096;
     fec_offset := 0;
     fec_size := 0 |}.

Definition plan_hash_tree_only : InstallPlan :=
  {| source_slot := 0;
     target_slot := 1;
     write_verity := false;
     partitions := [system_hash_tree_only];
     untouched_dynamic_partitions := [] |}.

(** ** Digests

    The comparisons of FinishPartitionHashing, read from the history. *)

(** The pass a history is in: the index and the step of the newest
    "Hashing partition" line. *)
Fixpoint current_pass (h : History) : option (nat * VerifierStep) :=
  match h with
  | [] => None
  | EvHashingPartition index step _ :: _ => Some (index, step)
  | _ :: h' => current_pass h'
  end.

(** The digest that FinishPartitionHashing compares with in a step. *)
Definition step_hash (step : VerifierStep) (p : Partition) : Blob :=
  match step with
  | kVerifySourceHash => source_hash p
  | kVerifyTargetHash => target_hash p
  end.

(** The digest comparisons of a history, newest first: for every Finalize of
    the hasher that succeeded, the pass that it ended and whether the digest
    was the one that the plan has for that pass. *)
Fixpoint comparisons (env : Env) (plan : InstallPlan) (h : History)
  : list (nat * VerifierStep * bool) :=
  match h with
  | [] => []
  | EvHasherFinalize true :: h' =>
      match current_pass h' with
      | Some (index, step) =>
          match nth_error (partitions plan) index with
          | Some p =>
              (index, step,
               blob_eqb (step_hash step p) (hasher_raw_hash env h'))
              :: comparisons env plan h'
          | None => comparisons env plan h'
          end
      | None => comparisons env plan h'
      end
  | _ :: h' => comparisons env plan h'
  end.

(** A partition that StartPartitionHashing passes over in a step: it is not
    opened through the snapshot, has no device path and no size. *)
Definition skipped (env : Env) (plan : InstallPlan) (step : VerifierStep)
    (p : Partition) : bool :=
  negb (uses_snapshot_compression env &&
        VerifierStep_eqb step kVerifyTargetHash &&
        is_dynamic_partition env (name p) (target_slot plan)) &&
  string_empty (step_path step p) &&
  (step_size step p =? 0).

Definition mismatch (env : Env) (plan : InstallPlan) (step : VerifierStep)
    (h : History) : Prop :=
  exists index, In (index, step, false) (comparisons env plan h).

(** A partition whose target digest matched, or that was passed over. *)
Definition verified (env : Env) (plan : InstallPlan) (h : History)
    (index : nat) : Prop :=
  exists p,
    nth_error (partitions plan) index = Some p /\
    (In (index, kVerifyTargetHash, true) (comparisons env plan h) \/
     skipped env plan kVerifyTargetHash p = true).

(** The comparisons made so far account for the state of the action. *)
Record InvDigest (env : Env) (plan : InstallPlan) (s : State) : Prop := {
  dig_pass :
    in_pass s \/ (pending_task_ s <> None /\ cancelled_ s = false) ->
    current_pass (trace s) = Some (partition_index_ s, verifier_step_ s);
  dig_verified :
    verifier_step_ s = kVerifyTargetHash ->
    forall index, (index < partition_index_ s)%nat ->
    verified env plan (trace s) index;
  dig_source :
    verifier_step_ s = kVerifySourceHash ->
    mismatch env plan kVerifyTargetHash (trace s);
  dig_new_rootfs :
    In kNewRootfsVerificationError (completions (trace s)) ->
    mismatch env plan kVerifyTargetHash (trace s);
  dig_download_state :
    In kDownloadStateInitializationError (completions (trace s)) ->
    mismatch env plan kVerifyTargetHash (trace s) /\
    mismatch env plan kVerifySourceHash (trace s)
}.

(** A partition of a delta update (it has a source digest) whose source has
    no device path and no size. *)
Definition sourceless_delta (p : Partition) : bool :=
  negb (blob_empty (source_hash p)) &&
  string_empty (source_path p) && (source_size p =? 0).

(** After the fall back to the source step the action stays on the
    partition whose target digest did not match, and does not succeed. *)
Definition InvFallback (s : State) : Prop :=
  verifier_step_ s = kVerifySourceHash ->
  (exists p, current_partition s = Some p /\
             blob_empty (source_hash p) = false) /\
  ~ In kSuccess (completions (trace s)).

(** A delta update of one partition whose source has no device. *)
Definition system_sourceless : Partition :=
  {| name := "system";
     source_path := "";
     source_size := 0;
     source_hash := digest_a;
     target_path := "/dev/block/system_b";
     readonly_target_path := "";
     target_size := 4096;
     target_hash := digest_b;
     hash_tree_offset := 0;
     hash_tree_size := 0;
     fec_offset := 0;
     fec_size := 0 |}.

Definition plan_sourceless : InstallPlan :=
  {| source_slot := 0;
     target_slot := 1;
     write_verity := false;
     partitions := [system_sourceless];
     untouched_dynamic_partitions := [] |}.

(** A partition without a device, then the delta partition. *)
Definition plan_skip_then_verify : InstallPlan :=
  {| source_slot := 0;
     target_slot := 1;
     write_verity := false;
     partitions := [partition_no_device "odm"; system_delta];
     untouched_dynamic_partitions := [] |}.

(** ** The sweep of a partition

    What a pass has done so far, read from the history since its "Hashing
    partition" line. *)

(** The bytes given to the hasher. *)
Fixpoint hashed (h : History) : Z :=
  match h with
  | [] => 0
  | EvHashingPartition _ _ _ :: _ => 0
  | EvHasherUpdate count _ :: h' => hashed h' + count
  | _ :: h' => hashed h'
  end.

(** The result of the newest read, until it is given to the hasher. *)
Fixpoint unhashed (h : History) : option Z :=
  match h with
  | [] => None
  | EvHashingPartition _ _ _ :: _ => None
  | EvRead _ _ result :: _ => Some result
  | EvHasherUpdate _ _ :: _ => None
  | _ :: h' => unhashed h'
  end.

(** The bytes given to the verity writer since its Init succeeded. *)
Fixpoint fed (h : History) : option Z :=
  match h with
  | [] => None
  | EvHashingPartition _ _ _ :: _ => None
  | EvVerityInit _ ok :: _ => if ok then Some 0 else None
  | EvVerityUpdate _ count _ :: h' =>
      option_map (fun n => n + count) (fed h')
  | _ :: h' => fed h'
  end.

(** Whether VerityWriter::Finalize has returned true. *)
Fixpoint finalized (h : History) : bool :=
  match h with
  | [] => false
  | EvHashingPartition _ _ _ :: _ => false
  | EvVerityFinalize ok :: _ => ok
  | _ :: h' => finalized h'
  end.

(** The partition and the step of the pass. *)
Definition pass_partition (plan : InstallPlan) (h : History)
  : option (Partition * VerifierStep) :=
  match current_pass h with
  | Some (index, step) =>
      option_map (fun p => (p, step)) (nth_error (partitions plan) index)
  | None => None
  end.

(** The condition of ShouldWriteVerity, from the plan. *)
Definition pass_writes_verity (plan : InstallPlan) (p : Partition)
    (step : VerifierStep) : bool :=
  VerifierStep_eqb step kVerifyTargetHash && write_verity plan &&
  ((0 <? hash_tree_size p) || (0 <? fec_size p)).

(** The number of bytes that a pass hashes before it compares the digest:
    partition_size when filesystem_data_end lies inside the partition, and
    2^64 more when it does not, because ReadVerityAndFooter computes
    partition_size_ - filesystem_data_end_ in uint64_t. *)
Definition pass_bytes (p : Partition) (step : VerifierStep) : Z :=
  let size := step_size step p in
  if select_data_end p size <=? size then size else size + two64.

Definition is_none {A} (o : option A) : bool :=
  match o with None => true | Some _ => false end.

(** A read starts where the hashed bytes end and waits for no earlier read;
    the hasher is given what the newest read returned; the digest is taken
    when all bytes of the pass are hashed. *)
Definition sweep_event_ok (plan : InstallPlan) (e : Event) (h : History)
  : bool :=
  match e with
  | EvRead offset _ _ => (offset =? hashed h) && is_none (unhashed h)
  | EvHasherUpdate count _ =>
      match unhashed h with
      | Some result => (count =? result) && (0 <? count)
      | None => false
      end
  | EvHasherFinalize _ =>
      match pass_partition plan h with
      | Some (p, step) =>
          is_none (unhashed h) && (hashed h =? pass_bytes p step)
      | None => false
      end
  | _ => true
  end.

Fixpoint sweep_ok (plan : InstallPlan) (h : History) : bool :=
  match h with
  | [] => true
  | e :: h' => sweep_event_ok plan e h' && sweep_ok plan h'
  end.

(** The verity writer is initialised before anything is hashed, on a pass
    that writes verity; each Update hands it the chunk that was just hashed,
    at the offset where the previous chunk ended; Finalize comes when it has
    been given all of [0, filesystem_data_end), and before the digest is
    taken. *)
Definition feed_event_ok (plan : InstallPlan) (e : Event) (h : History)
  : bool :=
  match e with
  | EvVerityInit index _ =>
      match pass_partition plan h with
      | Some (p, step) =>
          pass_writes_verity plan p step && (hashed h =? 0) &&
          is_none (unhashed h) && is_none (fed h)
      | None => false
      end
  | EvVerityUpdate offset count _ =>
      match fed h with
      | Some n =>
          (offset =? n) && (offset + count =? hashed h) &&
          negb (finalized h)
      | None => false
      end
  | EvVerityFinalize _ =>
      match pass_partition plan h, fed h with
      | Some (p, step), Some n =>
          (n =? select_data_end p (step_size step p)) &&
          (hashed h =? n) && negb (finalized h)
      | _, _ => false
      end
  | EvHasherFinalize _ =>
      match pass_partition plan h with
      | Some (p, step) =>
          implb (pass_writes_verity plan p step) (finalized h)
      | None => true
      end
  | _ => true
  end.

Fixpoint feed_ok (plan : InstallPlan) (h : History) : bool :=
  match h with
  | [] => true
  | e :: h' => feed_event_ok plan e h' && feed_ok plan h'
  end.

(** The members of the action agree with the history of the pass. *)
Definition pass_facts (plan : InstallPlan) (s : State) (p : Partition)
  : Prop :=
  nth_error (partitions plan) (partition_index_ s) = Some p /\
  current_pass (trace s) = Some (partition_index_ s, verifier_step_ s) /\
  partition_size_ s = step_size (verifier_step_ s) p.

Definition reading_facts (plan : InstallPlan) (s : State) (p : Partition)
  : Prop :=
  pass_facts plan s p /\
  filesystem_data_end_ s = select_data_end p (partition_size_ s) /\
  hashed (trace s) = offset_ s /\
  0 <= offset_ s <= filesystem_data_end_ s /\
  fed (trace s) = (if ShouldWriteVerity s then Some (offset_ s) else None) /\
  finalized (trace s) = false /\
  buffer_ s = kReadFileBufferSize.

Definition InvSweep (plan : InstallPlan) (s : State) : Prop :=
  sweep_ok plan (trace s) = true /\
  feed_ok plan (trace s) = true /\
  match pc s with
  | PcStartPartitionHashing_opened _ =>
      exists p,
        pass_facts plan s p /\
        hashed (trace s) = 0 /\ unhashed (trace s) = None /\
        fed (trace s) = None /\ finalized (trace s) = false
  | PcScheduleFileSystemRead =>
      exists p, reading_facts plan s p /\ unhashed (trace s) = None
  | PcReadVerityAndFooter =>
      exists p,
        reading_facts plan s p /\ unhashed (trace s) = None /\
        offset_ s = filesystem_data_end_ s
  | PcReadVerityAndFooterLoop bytes_to_read =>
      exists p,
        pass_facts plan s p /\ unhashed (trace s) = None /\
        partition_fd_ s = Some (hashed (trace s)) /\
        hashed (trace s) + bytes_to_read = pass_bytes p (verifier_step_ s) /\
        0 <= bytes_to_read < two64 /\
        (ShouldWriteVerity s = true -> finalized (trace s) = true)
  | PcFinishPartitionHashing =>
      exists p,
        pass_facts plan s p /\ unhashed (trace s) = None /\
        hashed (trace s) = pass_bytes p (verifier_step_ s) /\
        (ShouldWriteVerity s = true -> finalized (trace s) = true)
  | PcIdle =>
      forall bytes_read,
        pending_task_ s = Some bytes_read -> cancelled_ s = false ->
        exists p,
          reading_facts plan s p /\ unhashed (trace s) = Some bytes_read /\
          0 <= bytes_read /\
          offset_ s + bytes_read <= filesystem_data_end_ s
  | _ => True
  end.

(** ** Devices and snapshots *)

(** The calls of MapAllPartitions ([true]) and UnmapAllPartitions ([false])
    of a history, newest first. *)
Fixpoint map_events (h : History) : list bool :=
  match h with
  | [] => []
  | EvMapAllPartitions :: h' => true :: map_events h'
  | EvUnmapAllPartitions :: h' => false :: map_events h'
  | _ :: h' => map_events h'
  end.

(** Whether the newest of these calls has mapped the partitions. *)
Definition mapped (h : History) : bool := hd false (map_events h).

(** A descriptor is opened right after the block device was set read-only
    or writable to match, and it is opened for writing only on the target
    path of a partition whose verity data this action writes. *)
Definition open_event_ok (plan : InstallPlan) (e : Event) (h : History)
  : Prop :=
  match e with
  | EvOpen path writable _ =>
      (exists h', h = EvSetBlockDeviceReadOnly path (negb writable) :: h') /\
      (writable = true ->
       write_verity plan = true /\
       exists p,
         In p (partitions plan) /\ path = target_path p /\
         (0 < hash_tree_size p \/ 0 < fec_size p))
  | _ => True
  end.

Fixpoint opens_ok (plan : InstallPlan) (h : History) : Prop :=
  match h with
  | [] => True
  | e :: h' => open_event_ok plan e h' /\ opens_ok plan h'
  end.

Record InvDev (env : Env) (plan : InstallPlan) (s : State) : Prop := {
  dev_opens : opens_ok plan (trace s);
  dev_no_snapshot :
    uses_snapshot_compression env = false -> map_events (trace s) = [];
  dev_unmapped :
    write_verity plan = false ->
    completions (trace s) <> [] \/ cancelled_ s = true ->
    mapped (trace s) = false;
  dev_left_mapped :
    write_verity plan = true -> map_events (trace s) <> [] ->
    mapped (trace s) = true
}.

(** ** Turns of the loop

    A bound on the turns that the action can still take, for a descriptor
    that returns one byte per read. *)

(** The turns of one pass: StartPartitionHashing and its continuation, two
    turns for each byte before filesystem_data_end and one more for the
    read that finds nothing left, ReadVerityAndFooter, one turn for each
    byte behind filesystem_data_end and one for the last test of the loop,
    and FinishPartitionHashing. *)
Definition pass_cost (p : Partition) (step : VerifierStep) : Z :=
  let size := step_size step p in
  let data_end := select_data_end p size in
  2 * data_end + wrap64 (size - data_end) + 6.

Definition partition_cost (p : Partition) : Z :=
  pass_cost p kVerifyTargetHash + pass_cost p kVerifySourceHash + 1.

Fixpoint rest_cost (l : list Partition) : Z :=
  match l with
  | [] => 1
  | p :: l' => partition_cost p + rest_cost l'
  end.

Definition turn_bound (plan : InstallPlan) : nat :=
  Z.to_nat (rest_cost (partitions plan)).

(** The turns for the partitions behind the current one. *)
Definition later_cost (s : State) : Z :=
  rest_cost (skipn (S (partition_index_ s)) (partitions (install_plan_ s))).

(** The turns after the current pass. *)
Definition tail_cost (s : State) (p : Partition) : Z :=
  match verifier_step_ s with
  | kVerifyTargetHash => pass_cost p kVerifySourceHash + 1 + later_cost s
  | kVerifySourceHash => later_cost s
  end.

(** The turns left in the current pass. *)
Definition pass_left (s : State) : Z :=
  let tail := wrap64 (partition_size_ s - filesystem_data_end_ s) in
  match pc s with
  | PcScheduleFileSystemRead =>
      2 * (filesystem_data_end_ s - offset_ s) + tail + 4
  | PcIdle => 2 * (filesystem_data_end_ s - offset_ s) + tail + 3
  | PcReadVerityAndFooter => tail + 3
  | PcReadVerityAndFooterLoop bytes_to_read => bytes_to_read + 2
  | PcFinishPartitionHashing => 1
  | _ => 0
  end.

Definition turns_left (s : State) : Z :=
  match pc s with
  | PcAborted => 0
  | PcIdle =>
      match pending_task_ s with
      | None => 0
      | Some _ =>
          if cancelled_ s then 1
          else
            match current_partition s with
            | Some p => pass_left s + tail_cost s p
            | None => 0
            end
      end
  | PcStartPartitionHashing =>
      match current_partition s with
      | Some p => pass_cost p (verifier_step_ s) + tail_cost s p
      | None => 1
      end
  | PcStartPartitionHashing_opened _ =>
      match current_partition s with
      | Some p => pass_cost p (verifier_step_ s) - 1 + tail_cost s p
      | None => 0
      end
  | _ =>
      match current_partition s with
      | Some p => pass_left s + tail_cost s p
      | None => 0
      end
  end.

(** The action has nothing left to run. *)
Definition at_rest (s : State) : Prop :=
  pc s = PcAborted \/ (pc s = PcIdle /\ pending_task_ s = None).

Fixpoint ticks (inputs : list Input) : nat :=
  match inputs with
  | [] => 0%nat
  | Tick :: l => S (ticks l)
  | Cancel :: l => ticks l
  end.

(** A delta update of one partition of four bytes. *)
Definition system_tiny : Partition :=
  {| name := "system";
     source_path := "/dev/block/system_a";
     source_size := 4;
     source_hash := digest_a;
     target_path := "/dev/block/system_b";
     readonly_target_path := "";
     target_size := 4;
     target_hash := digest_b;
     hash_tree_offset := 0;
     hash_tree_size := 0;
     fec_offset := 0;
     fec_size := 0 |}.

Definition plan_tiny : InstallPlan :=
  {| source_slot := 0;
     target_slot := 1;
     write_verity := false;
     partitions := [system_tiny];
     untouched_dynamic_partitions := [] |}.

(** ** A healthy device *)

(** Devices that open and return data, collaborators that do not refuse,
    and a hasher whose digest of every target pass is the target_hash of
    the partition. *)
Record healthy (env : Env) (plan : InstallPlan) : Prop := {
  healthy_open : forall h path writable, fd_open env h path writable = true;
  healthy_cow : forall h pname path, open_cow_fd env h pname path = true;
  healthy_read :
    forall h pos count, 0 < count -> 0 < fd_read env h pos count;
  healthy_update : forall h count, hasher_update env h count = true;
  healthy_finalize : forall h, hasher_finalize env h = true;
  healthy_digest :
    forall h index p,
      current_pass h = Some (index, kVerifyTargetHash) ->
      nth_error (partitions plan) index = Some p ->
      hasher_raw_hash env h = target_hash p;
  healthy_verity_init : forall h p, verity_init env h p = true;
  healthy_verity_update :
    forall h offset count, verity_update env h offset count = true;
  healthy_verity_finalize : forall h, fst (verity_finalize env h) = true;
  healthy_extents :
    forall h src tgt names, verify_extents env h src tgt names = true
}.

(** The hash tree of every partition comes before its FEC data, and a
    partition without a target path has no target size. *)
Definition well_formed (plan : InstallPlan) : Prop :=
  Forall (fun p => hash_tree_offset p <= fec_offset p /\
                   (string_empty (target_path p) = true ->
                    target_size p = 0))
         (partitions plan).

(** Nothing has gone wrong so far. *)
Record InvGood (s : State) : Prop := {
  good_step : verifier_step_ s = kVerifyTargetHash;
  good_codes : forall c, In c (completions (trace s)) -> c = kSuccess;
  good_opened :
    forall success, pc s = PcStartPartitionHashing_opened success ->
    success = true;
  good_pending :
    forall b, pending_task_ s = Some b -> cancelled_ s = false -> 0 < b
}.

(** ** Input and output that fails *)

(** The code that the source gives to each failed open and each failed
    call of the hasher in the history, newest first. *)
Fixpoint io_failures (h : History) : list ErrorCode :=
  match h with
  | [] => []
  | EvOpen _ _ false :: h' => kFilesystemVerifierError :: io_failures h'
  | EvOpenCowFd _ _ false :: h' => kFilesystemVerifierError :: io_failures h'
  | EvHasherUpdate _ false :: h' => kError :: io_failures h'
  | EvHasherFinalize false :: h' => kError :: io_failures h'
  | _ :: h' => io_failures h'
  end.

(** The results of the reads that brought no data, newest first. *)
Fixpoint empty_reads (h : History) : list Z :=
  match h with
  | [] => []
  | EvRead _ _ result :: h' =>
      if result <=? 0 then result :: empty_reads h' else empty_reads h'
  | _ :: h' => empty_reads h'
  end.

(** A failure is the end of the run: it is followed by Cleanup at once,
    but for a failed open, which StartPartitionHashing looks at after
    InitializeFd has returned, and a read without data, which OnReadDone
    looks at when the loop runs it. *)
Definition InvIO (s : State) : Prop :=
  (completions (trace s) = [] ->
   (pc s <> PcStartPartitionHashing_opened false ->
    io_failures (trace s) = []) /\
   Forall (fun x => x = kFilesystemVerifierError) (io_failures (trace s)) /\
   (cancelled_ s = false -> empty_reads (trace s) <> [] ->
    pc s = PcIdle /\ pending_task_ s = Some 0)) /\
  (forall c, completions (trace s) = [c] ->
   Forall (fun x => x = c) (io_failures (trace s)) /\
   (empty_reads (trace s) <> [] ->
    c = kError \/ c = kFilesystemVerifierError)).

(** ** The place of the extent check *)

(** The partitions whose pass a history announces ("Hashing partition"),
    newest first. *)
Fixpoint hashing_indices (h : History) : list nat :=
  match h with
  | [] => []
  | EvHashingPartition index _ _ :: h' => index :: hashing_indices h'
  | _ :: h' => hashing_indices h'
  end.

(** The calls of VerifyExtentsForUntouchedPartitions with their results,
    newest first. *)
Fixpoint extent_calls (h : History)
  : list (Slot * Slot * list string * bool) :=
  match h with
  | [] => []
  | EvVerifyExtents src tgt names ok :: h' =>
      (src, tgt, names, ok) :: extent_calls h'
  | _ :: h' => extent_calls h'
  end.

(** The code with which the action completes after an extent check. *)
Definition extent_code (ok : bool) : ErrorCode :=
  if ok then kSuccess else kFilesystemVerifierError.

(** The extent check is asked for once, on the slots and the untouched
    partitions of the plan, before anything is completed and after the pass
    of every partition was announced; no pass is announced after it. *)
Definition extent_event_ok (plan : InstallPlan) (e : Event) (h : History)
  : Prop :=
  match e with
  | EvVerifyExtents src tgt names _ =>
      src = source_slot plan /\ tgt = target_slot plan /\
      names = untouched_dynamic_partitions plan /\ names <> [] /\
      extent_calls h = [] /\ completions h = [] /\
      forall index, (index < List.length (partitions plan))%nat ->
                    In index (hashing_indices h)
  | EvHashingPartition _ _ _ => extent_calls h = []
  | _ => True
  end.

Fixpoint extents_ok (plan : InstallPlan) (h : History) : Prop :=
  match h with
  | [] => True
  | e :: h' => extent_event_ok plan e h' /\ extents_ok plan h'
  end.

(** The index has moved past the partitions whose pass was announced, and
    an extent check is followed by the completion at once. *)
Record InvExtents (plan : InstallPlan) (s : State) : Prop := {
  ext_ok : extents_ok plan (trace s);
  ext_passed :
    forall index, (index < partition_index_ s)%nat ->
    In index (hashing_indices (trace s));
  ext_current :
    in_pass s \/ pending_task_ s <> None ->
    In (partition_index_ s) (hashing_indices (trace s));
  ext_none : completions (trace s) = [] -> extent_calls (trace s) = [];
  ext_code :
    forall c src tgt names ok,
    completions (trace s) = [c] ->
    In (src, tgt, names, ok) (extent_calls (trace s)) ->
    c = extent_code ok /\ partition_index_ s = List.length (partitions plan)
}.

(** ** Reasoning support *)

Ltac sim_goal :=
  cbn [install_plan_ partition_index_ verifier_step_ partition_size_ offset_
       filesystem_data_end_ cancelled_ partition_fd_ buffer_ hasher_
       pending_task_ trace pc
       set_install_plan_ set_partition_index_ set_verifier_step_
       set_partition_size_ set_offset_ set_filesystem_data_end_
       set_cancelled_ set_partition_fd_ set_buffer_ set_hasher_
       set_pending_task_ set_trace set_pc emit call ret abort
       completions outputs progress failures extents_verified
       fst snd negb andb orb].

Ltac sim :=
  cbn [install_plan_ partition_index_ verifier_step_ partition_size_ offset_
       filesystem_data_end_ cancelled_ partition_fd_ buffer_ hasher_
       pending_task_ trace pc
       set_install_plan_ set_partition_index_ set_verifier_step_
       set_partition_size_ set_offset_ set_filesystem_data_end_
       set_cancelled_ set_partition_fd_ set_buffer_ set_hasher_
       set_pending_task_ set_trace set_pc emit call ret abort
       completions outputs progress failures extents_verified
       fst snd negb andb orb] in *.

(** Splits on the conditions of the goal, innermost scrutinee first. *)
Ltac split_conds :=
  repeat (sim;
    match goal with
    | |- context [negb ?c] =>
        lazymatch c with
        | context [if _ then _ else _] => fail
        | context [match _ with _ => _ end] => fail
        | _ => destruct c eqn:?
        end
    | |- context [if ?c then _ else _] =>
        lazymatch c with
        | context [if _ then _ else _] => fail
        | context [match _ with _ => _ end] => fail
        | _ => destruct c eqn:?
        end
    | |- context [match ?c with _ => _ end] =>
        lazymatch c with
        | context [if _ then _ else _] => fail
        | context [match _ with _ => _ end] => fail
        | _ => destruct c eqn:?
        end
    end); sim.

(** Splits on the condition at the head of the state in a goal [P state],
    outermost first, so that only the branches the code can take appear. *)
Ltac scrutinee c :=
  lazymatch c with
  | negb ?c' => scrutinee c'
  | if ?c' then _ else _ => scrutinee c'
  | match ?c' with _ => _ end => scrutinee c'
  | context [if ?c' then _ else _] => scrutinee c'
  | context [match ?c' with _ => _ end] => scrutinee c'
  | _ => destruct c eqn:?
  end.

Ltac split_head :=
  repeat (sim_goal;
    match goal with
    | |- _ ?t =>
        lazymatch t with
        | if ?c then _ else _ => scrutinee c
        | match ?c with _ => _ end => scrutinee c
        | context [if ?c then _ else _] => scrutinee c
        | context [match ?c with _ => _ end] => scrutinee c
        end
    end); sim.

Lemma blob_eqb_eq (a b : Blob) : blob_eqb a b = true <-> a = b.
Proof.
  revert b; induction a as [|x a IH]; intros [|y b]; simpl;
    try (split; [discriminate | congruence]); [tauto|].
  rewrite andb_true_iff, IH.
  split.
  - intros [Hxy Hab]. apply Byte.byte_dec_bl in Hxy. congruence.
  - intros H; injection H as -> ->. split; [apply Byte.byte_dec_lb|]; auto.
Qed.

Lemma blob_empty_nil (a : Blob) : blob_empty a = true <-> a = [].
Proof. destruct a; simpl; split; congruence. Qed.

Lemma string_empty_eq (s : string) : string_empty s = true <-> s = EmptyString.
Proof. destruct s; simpl; split; congruence. Qed.

Section Facts.

Variable env : Env.

(** *** What Cleanup does *)

Lemma Cleanup_pc code s : pc (Cleanup env code s) = PcIdle.
Proof. unfold Cleanup, UpdateProgress; split_conds; congruence. Qed.

Lemma Cleanup_install_plan code s :
  install_plan_ (Cleanup env code s) = install_plan_ s.
Proof. unfold Cleanup, UpdateProgress; split_conds; congruence. Qed.

Lemma Cleanup_partition_index code s :
  partition_index_ (Cleanup env code s) = partition_index_ s.
Proof. unfold Cleanup, UpdateProgress; split_conds; congruence. Qed.

Lemma Cleanup_verifier_step code s :
  verifier_step_ (Cleanup env code s) = verifier_step_ s.
Proof. unfold Cleanup, UpdateProgress; split_conds; congruence. Qed.

Lemma Cleanup_cancelled code s :
  cancelled_ (Cleanup env code s) = cancelled_ s.
Proof. unfold Cleanup, UpdateProgress; split_conds; congruence. Qed.

Lemma Cleanup_pending_task code s :
  pending_task_ (Cleanup env code s) = pending_task_ s.
Proof. unfold Cleanup, UpdateProgress; split_conds; congruence. Qed.

Lemma Cleanup_partition_fd code s : partition_fd_ (Cleanup env code s) = None.
Proof. unfold Cleanup, UpdateProgress; split_conds; congruence. Qed.

Lemma Cleanup_buffer code s : buffer_ (Cleanup env code s) = 0.
Proof. unfold Cleanup, UpdateProgress; split_conds; congruence. Qed.

Lemma Cleanup_completions code s :
  completions (trace (Cleanup env code s)) =
  if cancelled_ s then completions (trace s)
  else code :: completions (trace s).
Proof. unfold Cleanup, UpdateProgress; split_conds; congruence. Qed.

Lemma Cleanup_outputs code s :
  outputs (trace (Cleanup env code s)) =
  if negb (cancelled_ s) && ErrorCode_eqb code kSuccess && has_output_pipe env
  then install_plan_ s :: outputs (trace s)
  else outputs (trace s).
Proof.
  unfold Cleanup, UpdateProgress; split_conds; congruence.
Qed.

Lemma Cleanup_progress code s :
  progress (trace (Cleanup env code s)) =
  if negb (cancelled_ s) && has_delegate env
  then DFin 1 :: progress (trace s)
  else progress (trace s).
Proof. unfold Cleanup, UpdateProgress; split_conds; congruence. Qed.

Lemma Cleanup_partition_size code s :
  partition_size_ (Cleanup env code s) = partition_size_ s.
Proof. unfold Cleanup, UpdateProgress; split_conds; congruence. Qed.

Lemma Cleanup_offset code s : offset_ (Cleanup env code s) = offset_ s.
Proof. unfold Cleanup, UpdateProgress; split_conds; congruence. Qed.

Lemma Cleanup_filesystem_data_end code s :
  filesystem_data_end_ (Cleanup env code s) = filesystem_data_end_ s.
Proof. unfold Cleanup, UpdateProgress; split_conds; congruence. Qed.

Lemma Cleanup_failures code s :
  failures (trace (Cleanup env code s)) = failures (trace s).
Proof. unfold Cleanup, UpdateProgress; split_conds; congruence. Qed.

Lemma Cleanup_extents_verified code s :
  extents_verified (trace (Cleanup env code s)) = extents_verified (trace s).
Proof. unfold Cleanup, UpdateProgress; split_conds; congruence. Qed.

End Facts.

Create Rewrite HintDb cleanup.
#[export] Hint Rewrite Cleanup_pc Cleanup_install_plan Cleanup_partition_index
  Cleanup_verifier_step Cleanup_cancelled Cleanup_pending_task
  Cleanup_partition_fd Cleanup_buffer Cleanup_completions Cleanup_outputs
  Cleanup_progress Cleanup_failures Cleanup_extents_verified
  Cleanup_partition_size Cleanup_offset Cleanup_filesystem_data_end : cleanup.

(** Unfolds one turn of the action down to Cleanup and the setters. *)
Ltac unfold_action :=
  unfold exec, StartPartitionHashing, StartPartitionHashing_opened,
    ScheduleFileSystemRead, OnReadDone,
    ReadVerityAndFooter, ReadVerityAndFooterLoop, FinishPartitionHashing;
  unfold InitializeFdVABC, OnReadDone_advance,
    ReadVerityAndFooter_seek, FinishPartitionHashing_next;
  unfold InitializeFd, Seek, Read, UpdateProgress.

Lemma current_partition_Some s p :
  current_partition s = Some p ->
  (partition_index_ s < List.length (partitions (install_plan_ s)))%nat.
Proof.
  unfold current_partition; intros H.
  apply nth_error_Some; congruence.
Qed.

(** *** Runs *)

Lemma run_app env l1 l2 s :
  run env (l1 ++ l2) s = run env l2 (run env l1 s).
Proof. unfold run; apply fold_left_app. Qed.

Lemma run_invariant env (P : State -> Prop) :
  (forall i s, P s -> P (next env i s)) ->
  forall inputs s, P s -> P (run env inputs s).
Proof.
  intros Hstep inputs; induction inputs as [|i l IH]; intros s Hs; simpl; auto.
Qed.

(** Without a queued task the message loop has nothing to run. *)
Lemma idle_stays env s n :
  pc s = PcIdle -> pending_task_ s = None ->
  run env (repeat Tick n) s = s.
Proof.
  intros Hpc Hpend. induction n as [|n IH]; [reflexivity|].
  simpl. unfold exec. rewrite Hpc, Hpend. exact IH.
Qed.

(** *** The shape of every reachable state *)

Ltac inv_facts H :=
  let Hplan := fresh "Hplan" in
  let Hrun := fresh "Hrun" in
  let Honce := fresh "Honce" in
  let Hcomp := fresh "Hcomp" in
  let Hidx := fresh "Hidx" in
  let Hcur := fresh "Hcur" in
  destruct H as [Hplan Hrun Honce Hcomp Hidx Hcur].

Section Invariant.

Variable env : Env.

Lemma Inv_start input plan :
  input = Some plan -> Inv plan (start env input).
Proof.
  intros ->. unfold start, PerformAction; split_conds;
    constructor; sim; unfold in_pass; sim;
    try congruence; try (simpl; lia); try tauto;
    intuition (try congruence; try (simpl; lia)).
Qed.

Ltac inv_close :=
  constructor; unfold in_pass in *; autorewrite with cleanup; sim;
  repeat match goal with
    | H : current_partition _ = Some _ |- _ =>
        apply current_partition_Some in H
    | H : (_ =? _)%nat = true |- _ => apply Nat.eqb_eq in H
    | H : (_ =? _)%nat = false |- _ => apply Nat.eqb_neq in H
    | H : completions (trace _) = _ |- _ => rewrite H
    | H : pending_task_ _ = _ |- _ => rewrite H
    | H : cancelled_ _ = _ |- _ => rewrite H
    | H : pc _ = _ |- _ => rewrite H
    end;
  subst; sim;
  try congruence; try (simpl; lia); try tauto;
  try solve [intuition (try congruence; try (simpl in *; lia))].

Lemma Inv_exec plan s : Inv plan s -> Inv plan (exec env s).
Proof.
  intros H. inv_facts H.
  unfold_action.
  destruct (pc s) eqn:Hpc; try (constructor; assumption);
    try (destruct Hrun as (Hc & Hp & Hd); [congruence|]);
    unfold in_pass in Hcur; rewrite Hpc in Hcur.
  - (* StartPartitionHashing *) split_head; inv_close.
  - split_head; inv_close.
  - split_head; inv_close.
  - split_head; inv_close.
  - split_head; inv_close.
  - split_head; inv_close.
  - destruct (pending_task_ s) as [b|] eqn:Hpend;
      [|constructor; unfold in_pass; rewrite ?Hpc, ?Hpend; auto].
    assert (Hd : completions (trace s) = []).
    { destruct (completions (trace s)); [reflexivity|].
      discriminate Hcomp; discriminate. }
    split_head; inv_close.
  - constructor; unfold in_pass; rewrite ?Hpc; auto.
Qed.

Lemma Inv_TerminateProcessing plan s :
  Inv plan s -> pc s = PcIdle -> Inv plan (TerminateProcessing env s).
Proof.
  intros H Hpc. inv_facts H.
  unfold TerminateProcessing; split_head; inv_close.
Qed.

Lemma Inv_next plan i s : Inv plan s -> Inv plan (next env i s).
Proof.
  intros H; destruct i; simpl.
  - apply Inv_exec; assumption.
  - destruct (pc s) eqn:Hpc; auto using Inv_TerminateProcessing.
Qed.

Lemma Inv_run plan inputs :
  Inv plan (run env inputs (start env (Some plan))).
Proof.
  apply run_invariant; [intros; apply Inv_next; assumption|].
  apply Inv_start; reflexivity.
Qed.

End Invariant.

(** *** What a completed run has in its history *)

Ltac out_close :=
  unfold InvOut; autorewrite with cleanup; sim;
  repeat match goal with
    | H : (_ =? _)%nat = true |- _ => apply Nat.eqb_eq in H
    | H : install_plan_ _ = _ |- _ => rewrite H in *
    | H : completions (trace _) = _ |- _ => rewrite H
    | H : failures (trace _) = _ |- _ => rewrite H
    | H : outputs (trace _) = _ |- _ => rewrite H
    | H : extents_verified (trace _) = _ |- _ => rewrite H
    | H : cancelled_ _ = _ |- _ => rewrite H
    | H : untouched_dynamic_partitions _ = _ |- _ => rewrite H
    end;
  sim;
  split;
  [ intros; try discriminate; auto
  | let c := fresh "c" in
    let Hc := fresh "Hc" in
    intros c Hc; try discriminate;
    try (injection Hc as <-); sim;
    repeat match goal with
      | H : has_output_pipe _ = _ |- _ => rewrite H
      end;
    repeat split; intros;
    try discriminate; try congruence; auto;
    try solve [repeat constructor; auto] ].

Section Outcome.

Variable env : Env.

Lemma InvOut_start plan : InvOut env plan (start env (Some plan)).
Proof.
  unfold start, PerformAction; sim.
  destruct (partitions plan) eqn:Hparts; split_head; out_close.
Qed.

Lemma InvOut_exec plan s :
  Inv plan s -> InvOut env plan s -> InvOut env plan (exec env s).
Proof.
  intros H [Hnone Hsome]. inv_facts H.
  unfold_action.
  destruct (pc s) eqn:Hpc;
    try (destruct Hrun as (Hc & Hp & Hd); [congruence|];
         destruct (Hnone Hd) as (Hf & Ho & He)).
  - split_head; out_close.
  - split_head; out_close.
  - split_head; out_close.
  - split_head; out_close.
  - split_head; out_close.
  - split_head; out_close.
  - destruct (pending_task_ s) as [b|] eqn:Hpend; [|split; assumption].
    assert (Hd : completions (trace s) = []).
    { destruct (completions (trace s)); [reflexivity|].
      discriminate Hcomp; discriminate. }
    destruct (Hnone Hd) as (Hf & Ho & He).
    split_head; out_close.
  - split; assumption.
Qed.

Lemma InvOut_TerminateProcessing plan s :
  InvOut env plan s -> InvOut env plan (TerminateProcessing env s).
Proof.
  intros [Hnone Hsome].
  assert (Hcomp : completions (trace (TerminateProcessing env s)) =
                  completions (trace s)).
  { unfold TerminateProcessing; autorewrite with cleanup; split_conds;
      reflexivity. }
  assert (Hf : failures (trace (TerminateProcessing env s)) =
               failures (trace s)).
  { unfold TerminateProcessing; autorewrite with cleanup; split_conds;
      reflexivity. }
  assert (Ho : outputs (trace (TerminateProcessing env s)) =
               outputs (trace s)).
  { unfold TerminateProcessing; autorewrite with cleanup; split_conds;
      reflexivity. }
  assert (He : extents_verified (trace (TerminateProcessing env s)) =
               extents_verified (trace s)).
  { unfold TerminateProcessing; autorewrite with cleanup; split_conds;
      reflexivity. }
  assert (Hi : partition_index_ (TerminateProcessing env s) =
               partition_index_ s).
  { unfold TerminateProcessing; autorewrite with cleanup; split_conds;
      reflexivity. }
  unfold InvOut; rewrite Hcomp, Hf, Ho, He, Hi; split; assumption.
Qed.

Lemma InvOut_run plan inputs :
  Inv plan (run env inputs (start env (Some plan))) /\
  InvOut env plan (run env inputs (start env (Some plan))).
Proof.
  apply (run_invariant env (fun s => Inv plan s /\ InvOut env plan s)).
  - intros i s [HI HO]; split; [apply Inv_next; assumption|].
    destruct i; simpl.
    + apply InvOut_exec; assumption.
    + destruct (pc s); auto using InvOut_TerminateProcessing.
  - split; [apply Inv_start; reflexivity | apply InvOut_start].
Qed.

End Outcome.

(** *** Reading single events back from the summaries *)

Lemma failures_VerityInit h i :
  In (EvVerityInit i false) h -> In FailVerityInit (failures h).
Proof.
  induction h as [|e h IH]; simpl; [tauto|].
  intros [->|H]; [left; reflexivity|].
  specialize (IH H).
  destruct e as [| | | | | ? ? ? []| | | | | | | | |? []|? ? []|[]| | |];
    simpl; auto.
Qed.

Lemma failures_VerityUpdate h o n :
  In (EvVerityUpdate o n false) h -> In FailVerityUpdate (failures h).
Proof.
  induction h as [|e h IH]; simpl; [tauto|].
  intros [->|H]; [left; reflexivity|].
  specialize (IH H).
  destruct e as [| | | | | ? ? ? []| | | | | | | | |? []|? ? []|[]| | |];
    simpl; auto.
Qed.

Lemma failures_VerityFinalize h :
  In (EvVerityFinalize false) h -> In FailVerityFinalize (failures h).
Proof.
  induction h as [|e h IH]; simpl; [tauto|].
  intros [->|H]; [left; reflexivity|].
  specialize (IH H).
  destruct e as [| | | | | ? ? ? []| | | | | | | | |? []|? ? []|[]| | |];
    simpl; auto.
Qed.

Lemma failures_VerifyExtents h a b names :
  In (EvVerifyExtents a b names false) h -> In FailVerifyExtents (failures h).
Proof.
  induction h as [|e h IH]; simpl; [tauto|].
  intros [->|H]; [left; reflexivity|].
  specialize (IH H).
  destruct e as [| | | | | ? ? ? []| | | | | | | | |? []|? ? []|[]| | |];
    simpl; auto.
Qed.

Lemma outputs_In h plan :
  In (EvSetOutputObject plan) h <-> In plan (outputs h).
Proof.
  induction h as [|e h IH]; simpl; [tauto|].
  destruct e; simpl; rewrite <- IH;
    try (split; [intros [H|H]; [discriminate H|auto] | auto]).
  split.
  - intros [H|H]; [injection H as ->|]; auto.
  - intros [->|H]; auto.
Qed.

(** A failure in the history fixes the completion code. *)
Lemma failure_completes env plan s f :
  Inv plan s -> InvOut env plan s ->
  In f (failures (trace s)) ->
  completions (trace s) = [failure_code f] /\
  pc s = PcIdle /\ pending_task_ s = None.
Proof.
  intros HI [Hnone Hsome] Hin. inv_facts HI.
  destruct (completions (trace s)) as [|c [|c' l]] eqn:Hcs.
  - destruct (Hnone eq_refl) as (Hf & _). rewrite Hf in Hin. destruct Hin.
  - destruct (Hsome c eq_refl) as (Hall & _).
    rewrite Forall_forall in Hall. rewrite (Hall f Hin).
    split; [reflexivity|]. split.
    + destruct (pc s) eqn:Hpc; try reflexivity;
        destruct Hrun as (_ & _ & Hd); congruence.
    + apply Hcomp; discriminate.
  - simpl in Honce; lia.
Qed.

(** ** The claims *)

(** C1. After the digest comparison of FinishPartitionHashing: in the target
    step a matching digest advances partition_index_ and stays in the target
    step; a mismatch with an empty source_hash completes with
    kNewRootfsVerificationError; a mismatch with a non-empty source_hash
    switches to the source step on the same partition.  In the source step a
    matching digest completes with kNewRootfsVerificationError and a
    mismatch with kDownloadStateInitializationError. *)
Theorem FinishPartitionHashing_transitions env s partition :
  current_partition s = Some partition ->
  cancelled_ s = false ->
  hasher_finalize env (trace s) = true ->
  let raw_hash := hasher_raw_hash env (trace s) in
  let s' := FinishPartitionHashing env s in
  (verifier_step_ s = kVerifyTargetHash ->
   (target_hash partition = raw_hash ->
    partition_index_ s' = S (partition_index_ s) /\
    verifier_step_ s' = kVerifyTargetHash /\
    pc s' = PcStartPartitionHashing /\
    completions (trace s') = completions (trace s)) /\
   (target_hash partition <> raw_hash -> source_hash partition = [] ->
    completions (trace s') =
      kNewRootfsVerificationError :: completions (trace s) /\
    pc s' = PcIdle) /\
   (target_hash partition <> raw_hash -> source_hash partition <> [] ->
    partition_index_ s' = partition_index_ s /\
    verifier_step_ s' = kVerifySourceHash /\
    pc s' = PcStartPartitionHashing /\
    completions (trace s') = completions (trace s))) /\
  (verifier_step_ s = kVerifySourceHash ->
   (source_hash partition = raw_hash ->
    completions (trace s') =
      kNewRootfsVerificationError :: completions (trace s) /\
    pc s' = PcIdle) /\
   (source_hash partition <> raw_hash ->
    completions (trace s') =
      kDownloadStateInitializationError :: completions (trace s) /\
    pc s' = PcIdle)).
Proof.
  intros Hp Hc Hfin raw_hash s'. subst raw_hash s'.
  unfold FinishPartitionHashing, FinishPartitionHashing_next.
  rewrite Hfin; sim.
  replace (current_partition (emit (EvHasherFinalize true) s))
    with (Some partition) by (rewrite <- Hp; reflexivity).
  split; intros Hstep; rewrite Hstep.
  - destruct (blob_eqb (target_hash partition) (hasher_raw_hash env (trace s)))
      eqn:Heq; sim.
    + apply blob_eqb_eq in Heq.
      repeat split; try reflexivity; intros; congruence.
    + assert (Hne : target_hash partition <> hasher_raw_hash env (trace s)).
      { intros H; apply blob_eqb_eq in H; congruence. }
      destruct (blob_empty (source_hash partition)) eqn:Hem.
      * apply blob_empty_nil in Hem.
        autorewrite with cleanup; sim; rewrite Hc.
        repeat split; try reflexivity; intros; congruence.
      * assert (Hs : source_hash partition <> []).
        { intros H; apply blob_empty_nil in H; congruence. }
        sim. repeat split; try reflexivity; intros; congruence.
  - destruct (blob_eqb (source_hash partition) (hasher_raw_hash env (trace s)))
      eqn:Heq; sim; autorewrite with cleanup; sim; rewrite Hc.
    + apply blob_eqb_eq in Heq.
      repeat split; try reflexivity; intros; congruence.
    + assert (Hne : source_hash partition <> hasher_raw_hash env (trace s)).
      { intros H; apply blob_eqb_eq in H; congruence. }
      repeat split; try reflexivity; intros; congruence.
Qed.

Lemma FinishPartitionHashing_transitions_witness :
  pc state_before_finish = PcFinishPartitionHashing /\
  partition_index_
    (FinishPartitionHashing (env_all_ok digest_c) state_before_finish) = 0%nat /\
  verifier_step_
    (FinishPartitionHashing (env_all_ok digest_c) state_before_finish) =
    kVerifySourceHash.
Proof.
  split; [reflexivity|].
  destruct (FinishPartitionHashing_transitions (env_all_ok digest_c)
              state_before_finish system_delta
              eq_refl eq_refl eq_refl) as [Htarget _].
  destruct (Htarget eq_refl) as (_ & _ & Hswitch).
  destruct Hswitch as (Hi & Hv & _); [discriminate | discriminate |].
  split; [exact Hi | exact Hv].
Defined.

(** C7. In every run, once VerityWriter Init or Update has refused, the
    action has completed with kVerityCalculationError, and once Finalize has
    refused, with kFilesystemVerifierError; in each case the action is back
    in the message loop with no task queued. *)
Theorem verity_failure_codes env plan inputs :
  let s := run env inputs (start env (Some plan)) in
  (forall index, In (EvVerityInit index false) (trace s) ->
   completions (trace s) = [kVerityCalculationError] /\
   pc s = PcIdle /\ pending_task_ s = None) /\
  (forall offset count, In (EvVerityUpdate offset count false) (trace s) ->
   completions (trace s) = [kVerityCalculationError] /\
   pc s = PcIdle /\ pending_task_ s = None) /\
  (In (EvVerityFinalize false) (trace s) ->
   completions (trace s) = [kFilesystemVerifierError] /\
   pc s = PcIdle /\ pending_task_ s = None).
Proof.
  intros s. subst s.
  destruct (InvOut_run env plan inputs) as [HI HO].
  repeat split; intros.
  all: match goal with
       | H : In (EvVerityInit _ _) _ |- _ =>
           apply failures_VerityInit in H
       | H : In (EvVerityUpdate _ _ _) _ |- _ =>
           apply failures_VerityUpdate in H
       | H : In (EvVerityFinalize _) _ |- _ =>
           apply failures_VerityFinalize in H
       end.
  all: match goal with
       | H : In ?f (failures _) |- _ =>
           destruct (failure_completes env plan _ f HI HO H) as (? & ? & ?)
       end; assumption.
Qed.

(** C9. In every run the only plan ever put in the output pipe is the plan
    that came in, and a run that completes with kSuccess on an action with
    an output pipe has put it there exactly once. *)
Theorem output_plan_unchanged env plan inputs :
  let s := run env inputs (start env (Some plan)) in
  install_plan_ s = plan /\
  (forall forwarded, In (EvSetOutputObject forwarded) (trace s) ->
   forwarded = plan) /\
  (In kSuccess (completions (trace s)) -> has_output_pipe env = true ->
   outputs (trace s) = [plan]).
Proof.
  intros s. subst s.
  destruct (InvOut_run env plan inputs) as [HI [Hnone Hsome]].
  inv_facts HI.
  set (s := run env inputs (start env (Some plan))) in *.
  split; [assumption|].
  destruct (completions (trace s)) as [|c [|c' l]] eqn:Hcs.
  - destruct (Hnone eq_refl) as (_ & Ho & _). split.
    + intros forwarded Hin. apply outputs_In in Hin.
      rewrite Ho in Hin; destruct Hin.
    + intros [].
  - destruct (Hsome c eq_refl) as (_ & Ho & _). split.
    + intros forwarded Hin. apply outputs_In in Hin. rewrite Ho in Hin.
      destruct (ErrorCode_eqb c kSuccess && has_output_pipe env);
        simpl in Hin; intuition.
    + intros [Hc|[]] Hpipe; subst c. rewrite Ho, Hpipe. reflexivity.
  - simpl in Honce; lia.
Qed.

(** *** The place of the extent check *)

Lemma Cleanup_extents_ok env plan code s :
  extents_ok plan (trace (Cleanup env code s)) <-> extents_ok plan (trace s).
Proof.
  unfold Cleanup, UpdateProgress; split_conds; simpl; tauto.
Qed.

Lemma Cleanup_hashing_indices env code s :
  hashing_indices (trace (Cleanup env code s)) = hashing_indices (trace s).
Proof. unfold Cleanup, UpdateProgress; split_conds; reflexivity. Qed.

Lemma Cleanup_extent_calls env code s :
  extent_calls (trace (Cleanup env code s)) = extent_calls (trace s).
Proof. unfold Cleanup, UpdateProgress; split_conds; reflexivity. Qed.

Ltac ext_facts H :=
  let Hok := fresh "Hok" in
  let Hpassed := fresh "Hpassed" in
  let Hcurrent := fresh "Hcurrent" in
  let Hnocall := fresh "Hnocall" in
  let Hcode := fresh "Hcode" in
  destruct H as [Hok Hpassed Hcurrent Hnocall Hcode].

Ltac ext_index :=
  match goal with
  | Hpassed : forall index, (index < ?n)%nat -> In index ?l
    |- In ?i (?n :: ?l) =>
      destruct (Nat.eq_dec i n);
      [left; congruence | right; apply Hpassed; lia]
  | Hpassed : forall index, (index < ?n)%nat -> In index ?l,
    Hcurrent : In ?n ?l
    |- In ?i ?l =>
      destruct (Nat.eq_dec i n);
      [subst; assumption | apply Hpassed; lia]
  | Hpassed : forall index, (index < ?n)%nat -> In index ?l
    |- ?n = ?i \/ In ?i ?l =>
      destruct (Nat.eq_dec i n);
      [left; congruence | right; apply Hpassed; lia]
  | Hpassed : forall index, (index < ?n)%nat -> In index ?l
    |- In ?i ?l => apply Hpassed; lia
  end.

Ltac ext_close :=
  constructor; unfold in_pass, extent_code in *;
  rewrite ?Cleanup_extents_ok, ?Cleanup_hashing_indices,
    ?Cleanup_extent_calls;
  autorewrite with cleanup; sim;
  cbn [hashing_indices extent_calls extents_ok extent_event_ok In] in *;
  repeat match goal with
    | H : (_ =? _)%nat = true |- _ => apply Nat.eqb_eq in H
    | H : (_ =? _)%nat = false |- _ => apply Nat.eqb_neq in H
    | H : install_plan_ _ = _ |- _ => rewrite H in *
    | H : completions (trace _) = _ |- _ => rewrite H in *
    | H : extent_calls (trace _) = _ |- _ => rewrite H in *
    | H : pending_task_ _ = _ |- _ => rewrite H in *
    | H : cancelled_ _ = _ |- _ => rewrite H in *
    | H : pc _ = _ |- _ => rewrite H in *
    end;
  intros; sim; cbn [In] in *;
  repeat match goal with
    | H : _ /\ _ |- _ => destruct H
    | H : False |- _ => destruct H
    | H : True \/ _ -> _ |- _ => specialize (H (or_introl I))
    | H : ?x = ?x -> _ |- _ => specialize (H eq_refl)
    | H : ?x <> ?x |- _ => destruct (H eq_refl)
    | H : False \/ ?x <> ?x |- _ => destruct H as [[]|H]
    | H : _ \/ False |- _ => destruct H as [H|[]]
    | H : _ :: _ = [_] |- _ => injection H as H
    | H : (_, _) = (_, _) |- _ => injection H as H
    end;
  subst;
  try discriminate; try congruence;
  try solve [auto];
  try solve [ext_index];
  try solve [repeat split; intros; auto; try congruence; try discriminate;
             try ext_index].

Section Extents.

Variable env : Env.
Variable plan : InstallPlan.

Lemma InvExtents_start : InvExtents plan (start env (Some plan)).
Proof.
  unfold start, PerformAction; split_head; ext_close;
    simpl in *; try congruence; try tauto; try lia.
Qed.

Lemma InvExtents_exec s :
  Inv plan s -> InvExtents plan s -> InvExtents plan (exec env s).
Proof.
  intros H HE. inv_facts H. ext_facts HE.
  unfold_action.
  destruct (pc s) eqn:Hpc;
    try (constructor; unfold in_pass; rewrite ?Hpc; assumption);
    try (destruct Hrun as (Hc & Hp & Hd); [congruence|];
         specialize (Hnocall Hd));
    unfold in_pass in Hcur, Hcurrent; rewrite Hpc in Hcur, Hcurrent.
  - split_head; ext_close.
  - split_head; ext_close.
  - split_head; ext_close.
  - split_head; ext_close.
  - split_head; ext_close.
  - split_head; ext_close.
  - destruct (pending_task_ s) as [b|] eqn:Hpend;
      [|constructor; unfold in_pass; rewrite ?Hpc, ?Hpend; assumption].
    assert (Hd : completions (trace s) = []).
    { destruct (completions (trace s)); [reflexivity|].
      discriminate Hcomp; discriminate. }
    specialize (Hnocall Hd).
    assert (Hin : In (partition_index_ s) (hashing_indices (trace s))).
    { apply Hcurrent. right. discriminate. }
    clear Hcurrent.
    split_head; ext_close.
  - constructor; unfold in_pass; rewrite ?Hpc; auto.
Qed.

Lemma InvExtents_TerminateProcessing s :
  Inv plan s -> InvExtents plan s -> pc s = PcIdle ->
  InvExtents plan (TerminateProcessing env s).
Proof.
  intros H HE Hpc. inv_facts H. ext_facts HE.
  unfold TerminateProcessing. unfold in_pass in Hcurrent.
  rewrite Hpc in Hcurrent.
  split_head; ext_close;
    try solve [apply Hcurrent; right; congruence];
    try solve [eapply Hcode; eauto].
Qed.

Lemma InvExtents_next i s :
  Inv plan s -> InvExtents plan s -> InvExtents plan (next env i s).
Proof.
  intros H HE; destruct i; simpl.
  - apply InvExtents_exec; assumption.
  - destruct (pc s) eqn:Hpc; auto.
    apply InvExtents_TerminateProcessing; assumption.
Qed.

Lemma InvExtents_run inputs :
  Inv plan (run env inputs (start env (Some plan))) /\
  InvExtents plan (run env inputs (start env (Some plan))).
Proof.
  apply (run_invariant env (fun s => Inv plan s /\ InvExtents plan s)).
  - intros i s [H HE]; split;
      [apply Inv_next | apply InvExtents_next]; assumption.
  - split; [apply Inv_start; reflexivity | apply InvExtents_start].
Qed.

(** The extent check is asked for only by StartPartitionHashing, in a turn
    that begins with partition_index_ behind the last partition. *)
Lemma extent_call_turn i s :
  Inv plan s ->
  extent_calls (trace (next env i s)) <> extent_calls (trace s) ->
  i = Tick /\ pc s = PcStartPartitionHashing /\
  partition_index_ s = List.length (partitions plan).
Proof.
  intros H. inv_facts H.
  set (P := fun st : State =>
    extent_calls (trace st) <> extent_calls (trace s) ->
    i = Tick /\ pc s = PcStartPartitionHashing /\
    partition_index_ s = List.length (partitions plan)).
  change (P (next env i s)).
  destruct i; simpl.
  - unfold_action.
    destruct (pc s) eqn:Hpc;
      try (subst P; cbv beta; intros Hne; congruence);
      split_head; subst P; cbv beta;
      rewrite ?Cleanup_extent_calls; sim; cbn [extent_calls];
      intros Hne; try congruence;
      repeat match goal with
        | H : (_ =? _)%nat = true |- _ => apply Nat.eqb_eq in H
        end;
      repeat split; congruence.
  - destruct (pc s) eqn:Hpc;
      try (subst P; cbv beta; intros Hne; congruence).
    unfold TerminateProcessing.
    split_head; subst P; cbv beta;
      rewrite ?Cleanup_extent_calls; sim; cbn [extent_calls];
      intros Hne; congruence.
Qed.

End Extents.

Lemma extents_ok_suffix plan later e earlier :
  extents_ok plan (later ++ e :: earlier) ->
  extent_event_ok plan e earlier /\ extents_ok plan earlier.
Proof.
  induction later as [|x later IH]; simpl; intros [H1 H2]; auto.
Qed.

Lemma extent_calls_app later earlier :
  extent_calls (later ++ earlier) = extent_calls later ++ extent_calls earlier.
Proof.
  induction later as [|x later IH]; [reflexivity|].
  destruct x; simpl; rewrite ?IH; reflexivity.
Qed.

Lemma completions_app later earlier :
  completions (later ++ earlier) = completions later ++ completions earlier.
Proof.
  induction later as [|x later IH]; [reflexivity|].
  destruct x; simpl; rewrite ?IH; reflexivity.
Qed.

(** An extent check that passed is an event of the history. *)
Lemma extents_verified_In h src tgt names :
  In (src, tgt, names) (extents_verified h) ->
  exists later earlier,
    h = later ++ EvVerifyExtents src tgt names true :: earlier.
Proof.
  induction h as [|e h IH]; [intros []|].
  assert (Hrest : In (src, tgt, names) (extents_verified h) ->
            exists later earlier,
              e :: h = later ++ EvVerifyExtents src tgt names true :: earlier).
  { intros Hin. destruct (IH Hin) as (later & earlier & ->).
    exists (e :: later), earlier. reflexivity. }
  destruct e as [| | | | |src' tgt' names' [] | | | | | | | | | | | | | |];
    simpl; auto.
  intros [Heq|Hin]; [|auto].
  injection Heq as -> -> ->. exists [], h. reflexivity.
Qed.

(** No pass is announced after an extent check. *)
Lemma extents_ok_later plan later src tgt names ok earlier :
  extents_ok plan (later ++ EvVerifyExtents src tgt names ok :: earlier) ->
  hashing_indices later = [] /\ extent_calls later = [].
Proof.
  induction later as [|x later IH]; [split; reflexivity|].
  simpl. intros [Hx Hrest]. destruct (IH Hrest) as [IH1 IH2].
  destruct x; simpl; auto.
  - simpl in Hx. destruct Hx as (_ & _ & _ & _ & Hx & _).
    rewrite extent_calls_app in Hx. apply app_eq_nil in Hx.
    destruct Hx as [_ Hx]. discriminate Hx.
  - simpl in Hx. rewrite extent_calls_app in Hx. apply app_eq_nil in Hx.
    destruct Hx as [_ Hx]. discriminate Hx.
Qed.

(** C4, as the claim states it, fails on a plan without partitions:
    PerformAction completes with kSuccess at once and never asks for the
    extent check, although the plan names an untouched dynamic partition. *)
Lemma extent_check_skipped_without_partitions :
  let s := start (env_all_ok digest_a) (Some plan_no_partitions) in
  untouched_dynamic_partitions plan_no_partitions <> [] /\
  completions (trace s) = [kSuccess] /\
  trace s =
    [EvActionComplete kSuccess; EvSetOutputObject plan_no_partitions] /\
  extents_verified (trace s) = [] /\
  forall n, run (env_all_ok digest_a) (repeat Tick n) s = s.
Proof.
  cbv zeta. repeat split; try reflexivity; try discriminate.
  intros n; apply idle_stays; reflexivity.
Qed.

(** C4, amended. On a plan with at least one partition and a non-empty
    untouched_dynamic_partitions, a run that completes with kSuccess has
    called VerifyExtentsForUntouchedPartitions on the two slots and that
    set, with result true, and has partition_index_ past the last
    partition; a run in which that call returned false has completed with
    kFilesystemVerifierError.  The call is made once partition_index_ has
    passed the last partition: the turn that makes it is a turn of
    StartPartitionHashing that begins with partition_index_ equal to the
    number of partitions, and in the history the call comes after the pass
    of every partition of the plan was announced and before anything is
    completed, no pass is announced after it, and its result decides the
    completion code. *)
Theorem extent_check_guards_success env plan inputs :
  partitions plan <> [] ->
  untouched_dynamic_partitions plan <> [] ->
  let s := run env inputs (start env (Some plan)) in
  (In kSuccess (completions (trace s)) ->
   extents_verified (trace s) =
     [(source_slot plan, target_slot plan,
       untouched_dynamic_partitions plan)] /\
   partition_index_ s = List.length (partitions plan) /\
   exists later earlier,
     trace s =
       later ++
       EvVerifyExtents (source_slot plan) (target_slot plan)
         (untouched_dynamic_partitions plan) true :: earlier) /\
  (forall src tgt names, In (EvVerifyExtents src tgt names false) (trace s) ->
   completions (trace s) = [kFilesystemVerifierError]) /\
  (forall before i after, inputs = before ++ i :: after ->
   let s0 := run env before (start env (Some plan)) in
   extent_calls (trace (next env i s0)) <> extent_calls (trace s0) ->
   i = Tick /\ pc s0 = PcStartPartitionHashing /\
   partition_index_ s0 = List.length (partitions plan)) /\
  (forall later src tgt names ok earlier,
   trace s = later ++ EvVerifyExtents src tgt names ok :: earlier ->
   (src, tgt, names) =
     (source_slot plan, target_slot plan,
      untouched_dynamic_partitions plan) /\
   (forall index, (index < List.length (partitions plan))%nat ->
    In index (hashing_indices earlier)) /\
   hashing_indices later = [] /\
   extent_calls earlier = [] /\ extent_calls later = [] /\
   completions earlier = [] /\
   completions (trace s) = [extent_code ok]).
Proof.
  intros Hparts Hunt s. subst s.
  destruct (InvOut_run env plan inputs) as [HI HO].
  destruct (InvExtents_run env plan inputs) as [_ HE].
  split; [|split; [|split]].
  - destruct HO as [Hnone Hsome]. inv_facts HI.
    destruct (completions
                (trace (run env inputs (start env (Some plan)))))
      as [|c [|c' l]] eqn:Hcs.
    + intros [].
    + intros [Hc|[]]; subst c.
      destruct (Hsome kSuccess eq_refl) as (_ & _ & Hk).
      destruct (Hk eq_refl Hparts) as [Hi He].
      specialize (He Hunt).
      split; [exact He|]. split; [exact Hi|].
      apply extents_verified_In. rewrite He. left. reflexivity.
    + simpl in Honce; lia.
  - intros src tgt names Hin. apply failures_VerifyExtents in Hin.
    destruct (failure_completes env plan _ _ HI HO Hin) as (? & _).
    assumption.
  - intros before i after Hin s0 Hne. subst s0.
    apply (extent_call_turn env plan i _ (Inv_run env plan before) Hne).
  - intros later src tgt names ok earlier Htrace.
    pose proof (ext_ok _ _ HE) as Hok. rewrite Htrace in Hok.
    destruct (extents_ok_later _ _ _ _ _ _ _ Hok) as [Hh Hl].
    apply extents_ok_suffix in Hok. destruct Hok as [Hev _].
    simpl in Hev.
    destruct Hev as (Hsrc & Htgt & Hnames & _ & Hcalls & Hcompl & Hall).
    split; [congruence|]. split; [exact Hall|].
    split; [exact Hh|]. split; [exact Hcalls|]. split; [exact Hl|].
    split; [exact Hcompl|].
    pose proof (inv_once _ _ HI) as Honce.
    assert (Hin : In (src, tgt, names, ok)
                    (extent_calls
                       (trace (run env inputs (start env (Some plan)))))).
    { rewrite Htrace, extent_calls_app. apply in_or_app. right.
      left. reflexivity. }
    destruct (completions
                (trace (run env inputs (start env (Some plan)))))
      as [|c [|c' l]] eqn:Hcs.
    + rewrite (ext_none _ _ HE Hcs) in Hin. destruct Hin.
    + destruct (ext_code _ _ HE c src tgt names ok Hcs Hin) as [Hc _].
      rewrite Hc. reflexivity.
    + simpl in Honce; lia.
Qed.

Lemma extent_check_guards_success_witness :
  let env := env_all_ok digest_b in
  let s := run env (repeat Tick 9) (start env (Some plan_delta)) in
  let s0 := run env (repeat Tick 7) (start env (Some plan_delta)) in
  completions (trace s) = [kSuccess] /\
  (extents_verified (trace s) = [(0, 1, ["vendor"%string])] /\
   partition_index_ s = 1%nat) /\
  (Tick = Tick /\ pc s0 = PcStartPartitionHashing /\
   partition_index_ s0 = 1%nat) /\
  hashing_indices (trace s0) = [0%nat].
Proof.
  cbv zeta. split; [vm_compute; reflexivity|].
  destruct (extent_check_guards_success (env_all_ok digest_b) plan_delta
              (repeat Tick 9)) as (Hsuccess & _ & Hturn & _);
    [discriminate | discriminate |].
  destruct Hsuccess as (He & Hi & _); [vm_compute; left; reflexivity|].
  split; [split; [exact He|exact Hi]|].
  split; [|vm_compute; reflexivity].
  apply (Hturn (repeat Tick 7) Tick [Tick] eq_refl).
  vm_compute. intros Heq. discriminate Heq.
Defined.

(** C10. With an empty partitions sequence PerformAction completes with
    kSuccess and forwards the plan: the whole history is the output object
    (when there is a pipe) and the completion, so no descriptor was opened,
    no progress was reported, no extent check was asked for and no partition
    was unmapped; nothing is queued and further turns of the loop change
    nothing. *)
Theorem empty_plan_completes env plan :
  partitions plan = [] ->
  let s := start env (Some plan) in
  trace s =
    EvActionComplete kSuccess ::
    (if has_output_pipe env then [EvSetOutputObject plan] else []) /\
  progress (trace s) = [] /\
  partition_fd_ s = None /\ pending_task_ s = None /\ pc s = PcIdle /\
  forall n, run env (repeat Tick n) s = s.
Proof.
  intros Hparts s. subst s. unfold start, PerformAction; sim.
  rewrite Hparts.
  destruct (has_output_pipe env); sim; repeat split; try reflexivity;
    intros n; apply idle_stays; reflexivity.
Qed.

Lemma empty_plan_completes_witness :
  trace (start (env_all_ok digest_a) (Some plan_no_partitions)) =
    [EvActionComplete kSuccess; EvSetOutputObject plan_no_partitions].
Proof.
  apply (empty_plan_completes (env_all_ok digest_a) plan_no_partitions).
  reflexivity.
Defined.

(** C8. TerminateProcessing, called from the message loop, sets cancelled_
    and releases the descriptor and the buffer; from then on, whatever the
    loop runs, no completion is reported, no output object is set and no
    progress is reported.  A read task that is still dispatched sees the
    flag and does nothing but Cleanup. *)
Theorem cancel_suppresses_outcome env s inputs :
  pc s = PcIdle ->
  let s' := run env inputs (TerminateProcessing env s) in
  completions (trace s') = completions (trace s) /\
  outputs (trace s') = outputs (trace s) /\
  progress (trace s') = progress (trace s) /\
  cancelled_ s' = true /\
  partition_fd_ s' = None /\ buffer_ s' = 0 /\ pc s' = PcIdle /\
  (forall bytes_read s1, cancelled_ s1 = true ->
   OnReadDone env bytes_read s1 = Cleanup env kError s1).
Proof.
  intros Hpc s'. subst s'.
  assert (Hdispatched : forall bytes_read s1, cancelled_ s1 = true ->
            OnReadDone env bytes_read s1 = Cleanup env kError s1).
  { intros b s1 Hc. unfold OnReadDone. rewrite Hc. reflexivity. }
  set (Q := fun s' : State =>
    completions (trace s') = completions (trace s) /\
    outputs (trace s') = outputs (trace s) /\
    progress (trace s') = progress (trace s) /\
    cancelled_ s' = true /\
    partition_fd_ s' = None /\ buffer_ s' = 0 /\ pc s' = PcIdle).
  assert (HQ : Q (run env inputs (TerminateProcessing env s))).
  { apply run_invariant.
    - intros i s1 (Hc & Ho & Hp & Hcan & Hfd & Hbuf & Hpc1).
      destruct i; simpl.
      + unfold exec. rewrite Hpc1.
        destruct (pending_task_ s1) as [b|];
          [|repeat split; assumption].
        rewrite Hdispatched by exact Hcan.
        unfold Q. autorewrite with cleanup; sim. rewrite Hcan; sim.
        repeat split; assumption.
      + rewrite Hpc1. unfold TerminateProcessing, Q.
        autorewrite with cleanup; sim.
        destruct (cancel_task env (trace s1)); sim;
          repeat split; assumption.
    - unfold TerminateProcessing, Q. autorewrite with cleanup; sim.
      destruct (cancel_task env (trace s)); sim;
        repeat split; reflexivity. }
  destruct HQ as (Hc & Ho & Hp & Hcan & Hfd & Hbuf & Hpc1).
  repeat split; assumption.
Qed.

Lemma cancel_suppresses_outcome_witness :
  pending_task_ state_read_queued = Some 4096 /\
  let s' := run env_cancel_late [Tick; Tick]
              (TerminateProcessing env_cancel_late state_read_queued) in
  completions (trace s') = [] /\
  outputs (trace s') = [] /\
  progress (trace s') = [] /\
  pending_task_ s' = None.
Proof.
  split; [vm_compute; reflexivity|]. cbv zeta.
  destruct (cancel_suppresses_outcome env_cancel_late state_read_queued
              [Tick; Tick] eq_refl) as (Hc & Ho & Hp & _).
  split; [|split; [|split]].
  - rewrite Hc. vm_compute; reflexivity.
  - rewrite Ho. vm_compute; reflexivity.
  - rewrite Hp. vm_compute; reflexivity.
  - vm_compute; reflexivity.
Defined.

(** C2. The code misses the claim in the source step of a partition whose
    source is smaller than the hash tree offset of the target.  On
    [plan_verity_layout] (source_size 4096, hash_tree_offset 8192), over
    devices of 16 KiB and after a target mismatch, the source pass starts
    with partition_size_ = 4096 and filesystem_data_end_ = 8192, where the
    stated minimum is 4096.  The pass then reads [0, 8192), past the source
    size; partition_size_ - filesystem_data_end_ wraps to 2^64 - 4096, so
    ReadVerityAndFooter goes on to ask for 131072 bytes at 8192 and again
    at the end of the device; the run completes with
    kFilesystemVerifierError, and the digest of the source is never
    compared with source_hash: the only comparison of the run is the one
    of the target.

    The value also differs on a partition with a hash tree and no FEC data
    ([plan_hash_tree_only]): the stated minimum is its hash_tree_offset,
    8192, and the process ends at the CHECK_LE of StartPartitionHashing
    with filesystem_data_end_ still at partition_size_, before any read. *)
Theorem source_pass_overruns_source_size :
  let env := env_device digest_c 16384 in
  let s := run env (repeat Tick 10) (start env (Some plan_verity_layout)) in
  let s' := run env (repeat Tick 15) (start env (Some plan_verity_layout)) in
  (pc s = PcScheduleFileSystemRead /\
   verifier_step_ s = kVerifySourceHash /\
   partition_size_ s = source_size system_verity_layout /\
   filesystem_data_end_ s = 8192 /\
   data_end_as_specified system_verity_layout (partition_size_ s) = 4096 /\
   wrap64 (partition_size_ s - filesystem_data_end_ s) = two64 - 4096) /\
  (reads (trace s') =
     [(16384, 131072, 0); (8192, 131072, 8192); (0, 8192, 8192)] ++
     reads (trace s) /\
   completions (trace s') = [kFilesystemVerifierError] /\
   comparisons env plan_verity_layout (trace s') =
     [(0%nat, kVerifyTargetHash, false)] /\
   forall n, run env (repeat Tick n) s' = s') /\
  (let env2 := env_all_ok digest_b in
   let s2 := run env2 [Tick; Tick] (start env2 (Some plan_hash_tree_only)) in
   data_end_as_specified system_hash_tree_only
     (target_size system_hash_tree_only) = 8192 /\
   pc s2 = PcAborted /\
   filesystem_data_end_ s2 = target_size system_hash_tree_only /\
   reads (trace s2) = [] /\ completions (trace s2) = []).
Proof.
  cbv zeta. split; [|split].
  - vm_compute. repeat split; reflexivity.
  - split; [vm_compute; reflexivity|].
    split; [vm_compute; reflexivity|].
    split; [vm_compute; reflexivity|].
    intros n. apply idle_stays; vm_compute; reflexivity.
  - vm_compute. repeat split; reflexivity.
Qed.

(** Where the hash tree comes before the FEC data and the offset that
    StartPartitionHashing selects lies inside the partition, the selection
    is the stated minimum. *)
Lemma select_data_end_as_specified p size :
  Partition_in_range p ->
  hash_tree_offset p <= fec_offset p ->
  select_data_end p size <= size ->
  select_data_end p size = data_end_as_specified p size.
Proof.
  unfold Partition_in_range, u64, select_data_end, data_end_as_specified.
  intros (_ & _ & Hh & _ & Hf & _) Hle Hsel.
  destruct (hash_tree_offset p =? 0) eqn:E1; simpl in *;
    destruct (fec_offset p =? 0) eqn:E2; simpl in *;
    destruct (0 <? hash_tree_offset p) eqn:E3;
    destruct (0 <? fec_offset p) eqn:E4; lia.
Qed.

(** *** Partitions without a device path *)

Lemma StartPartitionHashing_empty_path env s p :
  current_partition s = Some p ->
  takes_vabc_branch env s p = false ->
  step_path (verifier_step_ s) p = EmptyString ->
  StartPartitionHashing env s =
  let s1 :=
    emit (EvHashingPartition (partition_index_ s) (verifier_step_ s)
            EmptyString)
      (set_partition_size_ (step_size (verifier_step_ s) p) s) in
  if step_size (verifier_step_ s) p =? 0
  then call PcStartPartitionHashing
         (set_partition_index_ (S (partition_index_ s)) s1)
  else Cleanup env kFilesystemVerifierError s1.
Proof.
  intros Hp Hvabc Hpath.
  pose proof (current_partition_Some _ _ Hp) as Hlt.
  unfold StartPartitionHashing, takes_vabc_branch, step_path, step_size in *.
  destruct (Nat.eqb_spec (partition_index_ s)
              (List.length (partitions (install_plan_ s)))); [lia|].
  rewrite Hp.
  destruct (verifier_step_ s) eqn:Hstep; sim; rewrite ?Hstep;
    rewrite Hvabc, Hpath; reflexivity.
Qed.

Lemma all_skipped_run env plan :
  (forall q, In q (partitions plan) ->
   target_path q = EmptyString /\ target_size q = 0 /\
   uses_snapshot_compression env &&
   is_dynamic_partition env (name q) (target_slot plan) = false) ->
  (untouched_dynamic_partitions plan = [] \/
   forall h, verify_extents env h (source_slot plan) (target_slot plan)
               (untouched_dynamic_partitions plan) = true) ->
  forall k s,
  pc s = PcStartPartitionHashing ->
  install_plan_ s = plan ->
  verifier_step_ s = kVerifyTargetHash ->
  cancelled_ s = false ->
  completions (trace s) = [] ->
  (partition_index_ s + k)%nat = List.length (partitions plan) ->
  completions (trace (run env (repeat Tick (S k)) s)) = [kSuccess].
Proof.
  intros Hall Hext k. induction k as [|k IH];
    intros s Hpc Hplan Hstep Hcan Hdone Hidx.
  - simpl. unfold exec. rewrite Hpc. unfold StartPartitionHashing.
    rewrite Hplan.
    replace (partition_index_ s) with (List.length (partitions plan)) by lia.
    rewrite Nat.eqb_refl.
    destruct (untouched_dynamic_partitions plan) eqn:Hunt; sim.
    + autorewrite with cleanup. rewrite Hcan, Hdone. reflexivity.
    + destruct Hext as [Hext|Hext]; [discriminate|].
      rewrite Hext; sim. autorewrite with cleanup; sim.
      rewrite Hcan, Hdone. reflexivity.
  - destruct (nth_error (partitions plan) (partition_index_ s))
      as [q|] eqn:Hq; [|apply nth_error_None in Hq; lia].
    destruct (Hall q (nth_error_In _ _ Hq)) as (Hpath & Hsize & Hdyn).
    change (repeat Tick (S (S k))) with (Tick :: repeat Tick (S k)).
    cbn [run fold_left next]. fold (run env (repeat Tick (S k))).
    unfold exec at 1. rewrite Hpc.
    rewrite (StartPartitionHashing_empty_path env s q).
    + cbv zeta. rewrite Hstep. cbn [step_size]. rewrite Hsize. cbn [Z.eqb].
      apply IH; sim; auto. lia.
    + unfold current_partition. rewrite Hplan. exact Hq.
    + unfold takes_vabc_branch. rewrite Hstep, Hplan. sim.
      rewrite andb_true_r. exact Hdyn.
    + rewrite Hstep. exact Hpath.
Qed.

(** C5, as the claim states it, fails in two ways.  With snapshot
    compression a dynamic target partition goes to InitializeFdVABC whatever
    its path: the first partition of the plan, with an empty path and size 0,
    is not skipped, the open of its (empty) read-only path fails and the
    action completes with kFilesystemVerifierError at index 0.  Without
    snapshot compression both partitions are skipped, and the plan still
    ends in kFilesystemVerifierError when the extent check of the untouched
    partitions fails. *)
Lemma empty_path_not_always_skipped :
  (let s := run env_vabc_no_device [Tick; Tick]
              (start env_vabc_no_device (Some plan_no_devices)) in
   completions (trace s) = [kFilesystemVerifierError] /\
   partition_index_ s = 0%nat /\
   In (EvOpen "" false false) (trace s)) /\
  (let s := run env_extents_differ [Tick; Tick; Tick]
              (start env_extents_differ (Some plan_no_devices)) in
   completions (trace s) = [kFilesystemVerifierError] /\
   partition_index_ s = 2%nat).
Proof.
  vm_compute. repeat split; try reflexivity.
  repeat first [left; reflexivity | right].
Qed.

(** C5, amended. For a partition that does not take the snapshot
    compression branch and whose path for the step is empty: if its size for
    the step is 0, StartPartitionHashing only advances partition_index_ and
    calls itself again, without asking for a descriptor; otherwise the
    action completes with kFilesystemVerifierError.  A plan all of whose
    partitions are skipped this way in the target step ends in kSuccess,
    provided the extent check of the untouched partitions is not needed or
    passes. *)
Theorem empty_path_partition env s p :
  pc s = PcStartPartitionHashing ->
  current_partition s = Some p ->
  cancelled_ s = false ->
  takes_vabc_branch env s p = false ->
  step_path (verifier_step_ s) p = EmptyString ->
  let s' := exec env s in
  let plan := install_plan_ s in
  (step_size (verifier_step_ s) p = 0 ->
   partition_index_ s' = S (partition_index_ s) /\
   verifier_step_ s' = verifier_step_ s /\
   pc s' = PcStartPartitionHashing /\
   partition_fd_ s' = partition_fd_ s /\
   trace s' =
     EvHashingPartition (partition_index_ s) (verifier_step_ s) EmptyString
     :: trace s) /\
  (step_size (verifier_step_ s) p <> 0 ->
   completions (trace s') =
     kFilesystemVerifierError :: completions (trace s) /\
   pc s' = PcIdle /\
   partition_index_ s' = partition_index_ s) /\
  (verifier_step_ s = kVerifyTargetHash ->
   completions (trace s) = [] ->
   (forall q, In q (partitions plan) ->
    target_path q = EmptyString /\ target_size q = 0 /\
    uses_snapshot_compression env &&
    is_dynamic_partition env (name q) (target_slot plan) = false) ->
   (untouched_dynamic_partitions plan = [] \/
    forall h, verify_extents env h (source_slot plan) (target_slot plan)
                (untouched_dynamic_partitions plan) = true) ->
   completions
     (trace
        (run env
           (repeat Tick
              (S (List.length (partitions plan) - partition_index_ s)))
           s)) = [kSuccess]).
Proof.
  intros Hpc Hp Hcan Hvabc Hpath s' plan. subst s' plan.
  unfold exec at 1 2 3 4 5 6 7 8. rewrite Hpc.
  rewrite (StartPartitionHashing_empty_path env s p Hp Hvabc Hpath).
  cbv zeta. split; [|split].
  - intros Hsize. rewrite Hsize. cbn [Z.eqb]. sim.
    repeat split; reflexivity.
  - intros Hsize. apply Z.eqb_neq in Hsize. rewrite Hsize.
    autorewrite with cleanup; sim. rewrite Hcan.
    repeat split; reflexivity.
  - intros Hstep Hdone Hall Hext.
    apply (all_skipped_run env (install_plan_ s)); auto.
    pose proof (current_partition_Some _ _ Hp). lia.
Qed.

Lemma empty_path_partition_witness :
  completions
    (trace
       (run (env_all_ok digest_a) [Tick; Tick; Tick]
          (start (env_all_ok digest_a) (Some plan_no_devices)))) =
  [kSuccess].
Proof.
  destruct (empty_path_partition (env_all_ok digest_a)
              (start (env_all_ok digest_a) (Some plan_no_devices))
              (partition_no_device "odm")
              eq_refl eq_refl eq_refl eq_refl eq_refl) as (_ & _ & Hrun).
  apply Hrun; try reflexivity.
  - intros q [<-|[<-|[]]]; repeat split; reflexivity.
  - right; reflexivity.
Defined.

(** *** Reads and verity writes in order *)

Lemma wrap64_small z : 0 <= z < two64 -> wrap64 z = z.
Proof. intros H; unfold wrap64; apply Z.mod_small; exact H. Qed.

Lemma two64_pos : 0 < two64.
Proof. reflexivity. Qed.

Lemma select_data_end_range p size :
  Partition_in_range p -> u64 size -> u64 (select_data_end p size).
Proof.
  unfold Partition_in_range, select_data_end.
  intros (_ & _ & Hh & _ & Hf & _) Hs.
  destruct (hash_tree_offset p =? 0); simpl; auto.
  destruct (fec_offset p =? 0); simpl; auto.
Qed.

Lemma step_size_range step p : Partition_in_range p -> u64 (step_size step p).
Proof. intros (Hs & Ht & _); destruct step; assumption. Qed.

Lemma check_order_neutral plan e h :
  order_neutral e -> check_order plan (e :: h) = check_order plan h.
Proof.
  intros He. simpl. destruct (check_order plan h); [|reflexivity].
  destruct e; simpl in *; try reflexivity; destruct He.
Qed.

Lemma Cleanup_check_order env plan code s :
  check_order plan (trace (Cleanup env code s)) = check_order plan (trace s).
Proof.
  unfold Cleanup, UpdateProgress; split_conds;
    rewrite ?check_order_neutral by exact I; reflexivity.
Qed.

Ltac order_events Hck :=
  sim_goal;
  cbn [check_order check_event option_map];
  rewrite ?Hck;
  cbn [check_order check_event option_map].

Lemma VerifierStep_eqb_eq a b : VerifierStep_eqb a b = true -> a = b.
Proof. destruct a, b; simpl; congruence. Qed.

Ltac order_read Hck Hread :=
  sim_goal; rewrite ?check_order_neutral by exact I;
  cbn [check_order]; rewrite Hck; cbn [check_order]; exact Hread.

Section Order.

Variable env : Env.
Variable plan : InstallPlan.
Hypothesis Hrange : InstallPlan_in_range plan.
Hypothesis Hreads : reads_bounded env.

Lemma InvOrder_Cleanup code s st :
  check_order plan (trace s) = Some st ->
  pending_task_ s = None ->
  InvOrder plan (Cleanup env code s).
Proof.
  intros Hck Hp. exists st. rewrite Cleanup_check_order, Cleanup_pc.
  split; [assumption|]. intros b Hb. autorewrite with cleanup in Hb.
  congruence.
Qed.

Lemma InvOrder_StartPartitionHashing s :
  Inv plan s -> InvOrder plan s -> pc s = PcStartPartitionHashing ->
  InvOrder plan (StartPartitionHashing env s).
Proof.
  intros H (st & Hck & _) Hpc. inv_facts H.
  destruct Hrun as (Hc & Hp & Hd); [congruence|].
  unfold StartPartitionHashing, InitializeFdVABC, InitializeFd.
  split_head.
  all: try (eapply InvOrder_Cleanup;
            [order_events Hck; reflexivity|sim; assumption]).
  all: try (eexists; split; [order_events Hck; reflexivity|exact I]).
  all: exists (pass_of plan (partition_index_ s) (verifier_step_ s));
    (split; [order_events Hck; rewrite ?Heqv; reflexivity|]);
    sim_goal; (split; [rewrite ?Heqv; reflexivity|]);
    exists p; unfold current_partition in *; sim; (split; [assumption|]);
    rewrite ?Heqv; try reflexivity.
  all: repeat match goal with
       | H : _ && _ = true |- _ => apply andb_prop in H; destruct H
       end;
       match goal with
       | H : VerifierStep_eqb _ _ = true |- _ =>
           apply VerifierStep_eqb_eq in H;
           first [congruence | rewrite H; reflexivity]
       end.
Qed.

Lemma current_partition_in_range s p :
  install_plan_ s = plan -> current_partition s = Some p ->
  Partition_in_range p.
Proof.
  intros Hplan Hcp. unfold current_partition in Hcp. rewrite Hplan in Hcp.
  apply nth_error_In in Hcp.
  exact (proj1 (Forall_forall _ _) Hrange p Hcp).
Qed.

Lemma pass_of_current s p :
  install_plan_ s = plan -> current_partition s = Some p ->
  pass_of plan (partition_index_ s) (verifier_step_ s) =
  Some (mkPass (select_data_end p (step_size (verifier_step_ s) p))
          (ShouldWriteVerity s) false None).
Proof.
  intros Hplan Hcp. unfold pass_of, ShouldWriteVerity.
  rewrite Hcp. unfold current_partition in Hcp. rewrite Hplan in Hcp.
  rewrite Hcp, Hplan. reflexivity.
Qed.

Lemma InvOrder_opened s success :
  Inv plan s -> InvOrder plan s ->
  pc s = PcStartPartitionHashing_opened success ->
  InvOrder plan (StartPartitionHashing_opened env success s).
Proof.
  intros H (st & Hck & Hst) Hpc. inv_facts H.
  destruct Hrun as (Hc & Hp & Hd); [congruence|].
  rewrite Hpc in Hst. destruct Hst as (Hst & p & Hcp & Hsize).
  pose proof (current_partition_in_range s p Hplan Hcp) as Hpr.
  pose proof (select_data_end_range p _ Hpr
                (step_size_range (verifier_step_ s) p Hpr)) as Hsel.
  rewrite (pass_of_current s p Hplan Hcp) in Hst.
  unfold StartPartitionHashing_opened. rewrite Hcp.
  split_head.
  all: try (eapply InvOrder_Cleanup;
            [order_events Hck; reflexivity|sim; assumption]).
  all: try (eexists; split; [order_events Hck; reflexivity|exact I]).
  all: exists st; (split; [order_events Hck; reflexivity|]); sim_goal;
    eexists; (split; [exact Hst|]); cbn [pass_data_end pass_verity
      pass_finalized pass_position]; sim_goal;
    unfold select_data_end in *;
    repeat match goal with
      | H : (_ =? 0) = _ |- _ => rewrite H in *
      end; cbn [negb] in *; rewrite <- ?Hsize in *;
    unfold u64 in *; repeat split; try reflexivity; try lia.
Qed.

Lemma check_seek_phase_a pass offset :
  pass_finalized pass = false ->
  check_event plan (Some pass) (EvSeek offset) = Some (Some pass).
Proof. intros H; simpl; unfold pass_seek; rewrite H; reflexivity. Qed.

Lemma check_read_phase_a pass offset count result :
  pass_finalized pass = false ->
  offset + count <= pass_data_end pass ->
  check_event plan (Some pass) (EvRead offset count result) =
  Some (Some pass).
Proof.
  intros H Hle; simpl. unfold read_touches_verity, pass_read.
  rewrite H. replace (pass_data_end pass <? offset + count) with false
    by (symmetry; apply Z.ltb_ge; exact Hle).
  rewrite andb_false_r. reflexivity.
Qed.

Lemma InvOrder_ScheduleFileSystemRead s :
  Inv plan s -> InvOrder plan s -> pc s = PcScheduleFileSystemRead ->
  InvOrder plan (ScheduleFileSystemRead env s).
Proof.
  intros H (st & Hck & Hst) Hpc. inv_facts H.
  destruct Hrun as (Hc & Hp & Hd); [congruence|].
  rewrite Hpc in Hst.
  destruct Hst as (pass & -> & Hde & Hver & Hfin & Hoff & Hlt).
  assert (Hcount : offset_ s +
            Z.min (buffer_ s) (wrap64 (filesystem_data_end_ s - offset_ s))
            <= pass_data_end pass).
  { rewrite wrap64_small by lia. lia. }
  assert (Hck' : forall r,
    check_order plan
      (EvRead (offset_ s)
         (Z.min (buffer_ s) (wrap64 (filesystem_data_end_ s - offset_ s))) r
       :: EvSeek (offset_ s) :: trace s) = Some (Some pass)).
  { intros r. cbn [check_order]. rewrite Hck.
    rewrite check_seek_phase_a by assumption.
    apply check_read_phase_a; assumption. }
  unfold ScheduleFileSystemRead, Seek, Read.
  split_head.
  - exists (Some pass). split; [assumption|]. exists pass. auto 10.
  - eapply InvOrder_Cleanup; [sim_goal; apply Hck'|sim; assumption].
  - exists (Some pass).
    split; [sim_goal; rewrite check_order_neutral by exact I; apply Hck'|].
    sim_goal. intros b Hb _. injection Hb as <-.
    split; [exists pass; auto 10|].
    pose proof (Hreads (EvSeek (offset_ s) :: trace s) (offset_ s)
                  (Z.min (buffer_ s)
                     (wrap64 (filesystem_data_end_ s - offset_ s)))).
    apply Z.ltb_ge in Heqb0. split; [assumption|lia].
  - exists (Some pass). split; [assumption|exact I].
Qed.

Lemma InvOrder_OnReadDone s bytes_read :
  Inv plan s -> InvOrder plan s -> pc s = PcIdle ->
  pending_task_ s = Some bytes_read ->
  InvOrder plan (OnReadDone env bytes_read (set_pending_task_ None s)).
Proof.
  intros H (st & Hck & Hst) Hpc Hpend. inv_facts H.
  rewrite Hpc in Hst. specialize (Hst _ Hpend).
  unfold OnReadDone, OnReadDone_advance, UpdateProgress.
  split_head.
  all: try (eapply InvOrder_Cleanup;
            [order_events Hck; reflexivity|sim; reflexivity]).
  all: destruct (Hst eq_refl)
         as ((pass & -> & Hde & Hver & Hfin & Hoff & Hlt) & Hb0 & Hb1);
    exists (Some pass); (split; [order_events Hck; reflexivity|]);
    unfold in_phase_a; sim_goal; exists pass;
    rewrite wrap64_small by lia;
    repeat split; try assumption; try lia.
Qed.

Lemma InvOrder_ReadVerityAndFooter s :
  Inv plan s -> InvOrder plan s -> pc s = PcReadVerityAndFooter ->
  InvOrder plan (ReadVerityAndFooter env s).
Proof.
  intros H (st & Hck & Hst) Hpc. inv_facts H.
  destruct Hrun as (Hc & Hp & Hd); [congruence|].
  rewrite Hpc in Hst.
  destruct Hst as (pass & -> & Hde & Hver & Hfin & Hoff & Hlt).
  unfold ReadVerityAndFooter, ReadVerityAndFooter_seek, Seek.
  split_head.
  all: try (eapply InvOrder_Cleanup;
            [order_events Hck; reflexivity|sim; assumption]).
  all: try (eexists; split; [order_events Hck; reflexivity|exact I]).
  - eexists. split; [order_events Hck; reflexivity|].
    unfold in_phase_c, pass_seek, pass_finalize; sim_goal.
    cbn [pass_finalized pass_data_end pass_verity pass_position].
    eexists. split; [reflexivity|].
    cbn [pass_finalized pass_data_end pass_verity pass_position].
    rewrite Hde, Z.eqb_refl. split; [reflexivity|]. intros _.
    split; [reflexivity|]. exists (filesystem_data_end_ s).
    repeat split; try reflexivity; lia.
  - exists (Some pass). split.
    + order_events Hck. unfold pass_seek. rewrite Hfin. reflexivity.
    + unfold in_phase_c; sim_goal. exists pass.
      split; [reflexivity|]. split; [assumption|]. congruence.
Qed.

Lemma check_read_phase_c pass z count r :
  (pass_verity pass = true ->
   pass_finalized pass = true /\ pass_position pass = Some z /\
   pass_data_end pass <= z) ->
  check_event plan (Some pass) (EvRead z count r) =
    Some (Some (pass_read z r pass)) /\
  pass_data_end (pass_read z r pass) = pass_data_end pass /\
  pass_verity (pass_read z r pass) = pass_verity pass /\
  (pass_verity pass = true ->
   pass_finalized (pass_read z r pass) = true /\
   pass_position (pass_read z r pass) = Some (z + Z.max 0 r)).
Proof.
  intros Hv. cbn [check_event].
  unfold read_touches_verity, pass_read, read_contiguous.
  destruct (pass_verity pass) eqn:Hpv.
  - destruct (Hv eq_refl) as (Hf & Hpos & Hle).
    rewrite Hf, Hpos, Z.eqb_refl.
    replace (pass_data_end pass <=? z) with true
      by (symmetry; apply Z.leb_le; exact Hle).
    cbn [andb negb]. rewrite andb_false_r.
    repeat split; reflexivity.
  - cbn [andb]. destruct (pass_finalized pass);
      repeat split; try reflexivity; try assumption; congruence.
Qed.

Lemma InvOrder_ReadVerityAndFooterLoop s bytes_to_read :
  Inv plan s -> InvOrder plan s ->
  pc s = PcReadVerityAndFooterLoop bytes_to_read ->
  InvOrder plan (ReadVerityAndFooterLoop env bytes_to_read s).
Proof.
  intros H (st & Hck & Hst) Hpc. inv_facts H.
  destruct Hrun as (Hc & Hp & Hd); [congruence|].
  rewrite Hpc in Hst.
  destruct Hst as (pass & -> & Hde & Hver).
  unfold ReadVerityAndFooterLoop, Read.
  split_head.
  all: try (eexists; split; [order_events Hck; reflexivity|exact I]).
  all: match goal with
       | |- context [EvRead ?z ?count ?r] =>
           destruct (check_read_phase_c pass z count r)
             as (Hread & Hde' & Hver' & Hfin');
           [ intros Hv; destruct (Hver Hv) as (Hf & pos & Hz & Hpos & Hle);
             injection Hz as <-; rewrite Hde; auto
           | ]
       end.
  all: try (eapply InvOrder_Cleanup;
            [order_read Hck Hread|sim; assumption]).
  exists (Some (pass_read z
                  (fd_read env (trace s) z (Z.min (buffer_ s) bytes_to_read))
                  pass)).
  split; [order_read Hck Hread|].
  unfold in_phase_c; sim_goal. eexists. split; [reflexivity|].
  rewrite Hde', Hver'. split; [assumption|].
  intros Hv. destruct (Hfin' Hv) as (Hf' & Hpos').
  destruct (Hver Hv) as (_ & pos & Hz & _ & Hle). injection Hz as <-.
  split; [assumption|]. eexists. split; [reflexivity|].
  split; [assumption|]. lia.
Qed.

Lemma InvOrder_FinishPartitionHashing s :
  Inv plan s -> InvOrder plan s -> pc s = PcFinishPartitionHashing ->
  InvOrder plan (FinishPartitionHashing env s).
Proof.
  intros H (st & Hck & _) Hpc. inv_facts H.
  destruct Hrun as (Hc & Hp & Hd); [congruence|].
  unfold FinishPartitionHashing, FinishPartitionHashing_next.
  split_head.
  all: try (eapply InvOrder_Cleanup;
            [order_events Hck; reflexivity|sim; assumption]).
  all: try (eexists; split; [order_events Hck; reflexivity|exact I]).
Qed.

Lemma InvOrder_TerminateProcessing s :
  InvOrder plan s -> InvOrder plan (TerminateProcessing env s).
Proof.
  intros (st & Hck & _). unfold TerminateProcessing.
  exists st. rewrite Cleanup_check_order, Cleanup_pc.
  split.
  - split_conds; rewrite check_order_neutral by exact I; assumption.
  - intros b _ Hcan. autorewrite with cleanup in Hcan.
    revert Hcan. split_conds; discriminate.
Qed.

Lemma InvOrder_start : InvOrder plan (start env (Some plan)).
Proof.
  unfold start, PerformAction; sim.
  destruct (partitions plan); split_head;
    (eexists; split; [order_events I; reflexivity|]); sim_goal;
    try exact I; intros; discriminate.
Qed.

Lemma InvOrder_next i s :
  Inv plan s -> InvOrder plan s -> InvOrder plan (next env i s).
Proof.
  intros HI HO. destruct i; simpl.
  - unfold exec. destruct (pc s) eqn:Hpc.
    + apply InvOrder_StartPartitionHashing; assumption.
    + apply InvOrder_opened; assumption.
    + apply InvOrder_ScheduleFileSystemRead; assumption.
    + apply InvOrder_ReadVerityAndFooter; assumption.
    + apply InvOrder_ReadVerityAndFooterLoop; assumption.
    + apply InvOrder_FinishPartitionHashing; assumption.
    + destruct (pending_task_ s) eqn:Hpend; [|assumption].
      apply InvOrder_OnReadDone; assumption.
    + assumption.
  - destruct (pc s); auto using InvOrder_TerminateProcessing.
Qed.

Lemma InvOrder_run inputs :
  InvOrder plan (run env inputs (start env (Some plan))).
Proof.
  apply (run_invariant env (fun s => Inv plan s /\ InvOrder plan s)).
  - intros i s [HI HO]; split;
      [apply Inv_next | apply InvOrder_next]; assumption.
  - split; [apply Inv_start; reflexivity | apply InvOrder_start].
Qed.

End Order.

Lemma check_order_suffix plan later earlier st :
  check_order plan (later ++ earlier) = Some st ->
  exists st', check_order plan earlier = Some st'.
Proof.
  revert st. induction later as [|e later IH]; intros st H.
  - exists st. exact H.
  - simpl in H. destruct (check_order plan (later ++ earlier)) as [st1|];
      [|discriminate]. eapply IH; reflexivity.
Qed.

Lemma in_range_scenario z : (0 <=? z) && (z <? two64) = true -> u64 z.
Proof.
  intros H. apply andb_prop in H. destruct H as [H1 H2].
  split; [apply Z.leb_le | apply Z.ltb_lt]; assumption.
Qed.

(** C3. In every run over a plan whose sizes and offsets fit uint64_t, with
    a descriptor that never returns more than it was asked for, the history
    passes the order checker: within a pass that writes verity, every read
    that touches a byte at or after filesystem_data_end comes after
    VerityWriter::Finalize has returned true in that pass, and belongs to the
    sequence of reads that starts at a seek to filesystem_data_end made
    after Finalize and continues where the previous read ended. *)
Theorem verity_reads_after_finalize env plan inputs :
  InstallPlan_in_range plan ->
  reads_bounded env ->
  let s := run env inputs (start env (Some plan)) in
  verity_order_ok plan (trace s) = true /\
  (forall later offset count result earlier pass,
   trace s = later ++ EvRead offset count result :: earlier ->
   check_order plan earlier = Some (Some pass) ->
   pass_verity pass = true ->
   pass_data_end pass < offset + count ->
   pass_finalized pass = true /\
   pass_position pass = Some offset /\
   pass_data_end pass <= offset).
Proof.
  intros Hrange Hreads s. subst s.
  destruct (InvOrder_run env plan Hrange Hreads inputs) as (st & Hck & _).
  split; [unfold verity_order_ok; rewrite Hck; reflexivity|].
  intros later offset count result earlier pass Htrace Hearlier Hv Hlt.
  rewrite Htrace in Hck.
  destruct (check_order_suffix _ _ _ _ Hck) as (st' & Hread).
  cbn [check_order] in Hread. rewrite Hearlier in Hread.
  cbn [check_event] in Hread.
  unfold read_touches_verity in Hread. rewrite Hv in Hread.
  replace (pass_data_end pass <? offset + count) with true in Hread
    by (symmetry; apply Z.ltb_lt; exact Hlt).
  cbn [andb] in Hread.
  destruct (read_contiguous pass offset) eqn:Hcont; [|discriminate].
  unfold read_contiguous in Hcont.
  destruct (pass_finalized pass); [|discriminate].
  destruct (pass_position pass) as [position|]; [|discriminate].
  cbn [andb] in Hcont. apply andb_prop in Hcont. destruct Hcont as [H1 H2].
  apply Z.eqb_eq in H1. apply Z.leb_le in H2. subst position. auto.
Qed.

Lemma verity_reads_after_finalize_witness :
  let s := run (env_all_ok digest_b) (repeat Tick 12)
             (start (env_all_ok digest_b) (Some plan_verity_write)) in
  completions (trace s) = [kSuccess] /\
  In (EvVerityFinalize true) (trace s) /\
  In (EvRead 8192 8192 8192) (trace s) /\
  verity_order_ok plan_verity_write (trace s) = true.
Proof.
  cbv zeta. split; [vm_compute; reflexivity|].
  split; [vm_compute; repeat first [left; reflexivity | right]|].
  split; [vm_compute; repeat first [left; reflexivity | right]|].
  assert (Hrange : InstallPlan_in_range plan_verity_write).
  { repeat constructor; apply in_range_scenario; reflexivity. }
  assert (Hreads : reads_bounded (env_all_ok digest_b)).
  { intros h pos count. apply Z.le_refl. }
  exact (proj1 (verity_reads_after_finalize (env_all_ok digest_b)
                  plan_verity_write (repeat Tick 12) Hrange Hreads)).
Defined.

(** *** Progress reports *)

Lemma dleb_dle a b : dle a b -> dleb a b = true.
Proof.
  destruct a, b; simpl; try tauto. apply Qle_bool_iff.
Qed.

Lemma monotone_newest_firstb_complete l :
  monotone_newest_first l -> monotone_newest_firstb l = true.
Proof.
  induction l as [|a l IH]; [reflexivity|].
  intros [H1 H2]. cbn [monotone_newest_firstb].
  rewrite (IH H2), andb_true_r.
  destruct l; [reflexivity|]. apply dleb_dle; exact H1.
Qed.

Lemma Qdiv_le_compat x y z : (0 <= z)%Q -> (x <= y)%Q -> (x / z <= y / z)%Q.
Proof.
  intros Hz Hxy. unfold Qdiv. apply Qmult_le_compat_r; [exact Hxy|].
  apply Qinv_le_0_compat; exact Hz.
Qed.

Lemma inject_Z_nonneg z : 0 <= z -> (0 <= inject_Z z)%Q.
Proof.
  intros H. change 0%Q with (inject_Z 0). rewrite <- Zle_Qle. exact H.
Qed.

Lemma inject_nat_nonneg n : (0 <= inject_Z (Z.of_nat n))%Q.
Proof. apply inject_Z_nonneg. apply Nat2Z.is_nonneg. Qed.

Lemma frac_le o o' size :
  0 <= size -> o <= o' -> (frac o size <= frac o' size)%Q.
Proof.
  intros Hs Ho. unfold frac. apply Qdiv_le_compat.
  - apply inject_Z_nonneg; exact Hs.
  - rewrite <- Zle_Qle; exact Ho.
Qed.

Lemma frac_nonneg o size : 0 <= o -> 0 <= size -> (0 <= frac o size)%Q.
Proof.
  intros Ho Hs. unfold frac, Qdiv. apply Qmult_le_0_compat.
  - apply inject_Z_nonneg; exact Ho.
  - apply Qinv_le_0_compat. apply inject_Z_nonneg; exact Hs.
Qed.

Lemma frac_le_1 o size : 0 <= o <= size -> (frac o size <= 1)%Q.
Proof.
  intros [Ho Hs]. unfold frac.
  destruct (Z.eq_dec size 0) as [->|Hne].
  - assert (o = 0) by lia. subst o. discriminate.
  - apply Qle_shift_div_r.
    + change 0%Q with (inject_Z 0). rewrite <- Zlt_Qlt. lia.
    + rewrite Qmult_1_l. rewrite <- Zle_Qle; exact Hs.
Qed.

Lemma overall_le x y index count :
  (x <= y)%Q -> (overall x index count <= overall y index count)%Q.
Proof.
  intros H. unfold overall. apply Qdiv_le_compat.
  - apply inject_nat_nonneg.
  - apply Qplus_le_compat; [exact H | apply Qle_refl].
Qed.

Lemma overall_nonneg x index count :
  (0 <= x)%Q -> (0 <= overall x index count)%Q.
Proof.
  intros H. unfold overall, Qdiv. apply Qmult_le_0_compat.
  - replace 0%Q with (0 + 0)%Q by reflexivity.
    apply Qplus_le_compat; [exact H | apply inject_nat_nonneg].
  - apply Qinv_le_0_compat. apply inject_nat_nonneg.
Qed.

Lemma overall_succ index count :
  (overall 1 index count == overall 0 (S index) count)%Q.
Proof.
  unfold overall. apply Qmult_comp; [|reflexivity].
  rewrite Nat2Z.inj_succ. unfold Z.succ. rewrite inject_Z_plus.
  change (inject_Z 1) with 1%Q. ring.
Qed.

Lemma overall_le_1 x index count :
  (x <= 1)%Q -> (index < count)%nat -> (overall x index count <= 1)%Q.
Proof.
  intros Hx Hlt. unfold overall. apply Qle_shift_div_r.
  - change 0%Q with (inject_Z 0). rewrite <- Zlt_Qlt. lia.
  - rewrite Qmult_1_l.
    apply Qle_trans with (1 + inject_Z (Z.of_nat index))%Q.
    + apply Qplus_le_compat; [exact Hx | apply Qle_refl].
    + change 1%Q with (inject_Z 1). rewrite <- inject_Z_plus.
      rewrite <- Zle_Qle. lia.
Qed.

Lemma overall_0_le_1 index count :
  (index <= count)%nat -> (overall 0 index count <= 1)%Q.
Proof.
  intros Hle. destruct index as [|index].
  - unfold overall. change (0 + inject_Z (Z.of_nat 0))%Q with (0 + 0)%Q.
    unfold Qdiv. setoid_replace (0 + 0)%Q with 0%Q by ring.
    rewrite Qmult_0_l. discriminate.
  - rewrite <- overall_succ. apply overall_le_1; [apply Qle_refl | lia].
Qed.

Lemma Qeq_bool_inject_Z z : z <> 0 -> Qeq_bool (inject_Z z) 0 = false.
Proof.
  intros Hz. destruct (Qeq_bool (inject_Z z) 0) eqn:E; [|reflexivity].
  apply Qeq_bool_eq in E. unfold Qeq in E. simpl in E. lia.
Qed.

Lemma progress_value_finite offset size index count :
  size <> 0 -> count <> 0%nat ->
  progress_value offset size index count =
  DFin (overall (frac offset size) index count).
Proof.
  intros Hs Hc. unfold progress_value, double_of_Z, ddiv, dadd.
  rewrite (Qeq_bool_inject_Z size Hs).
  rewrite (Qeq_bool_inject_Z (Z.of_nat count)) by lia.
  reflexivity.
Qed.

Lemma overall_succ_le index count :
  (overall 1 index count <= overall 0 (S index) count)%Q.
Proof. rewrite overall_succ. apply Qle_refl. Qed.

Lemma overall_skip index count :
  (overall 0 index count <= overall 0 (S index) count)%Q.
Proof.
  apply Qle_trans with (overall 1 index count).
  - apply overall_le. discriminate.
  - apply overall_succ_le.
Qed.

Lemma chain_le lo new hi : chain lo new hi -> (lo <= hi)%Q.
Proof.
  revert hi. induction new as [|v new IH]; simpl; intros hi H; [exact H|].
  destruct H as [Hv Hc]. eapply Qle_trans; [apply IH; exact Hc | exact Hv].
Qed.

Lemma reported_weaken lo hi l :
  (lo <= hi)%Q -> Forall (reported lo) l -> Forall (reported hi) l.
Proof.
  intros Hle H. induction H as [|v l [H0 H1] _ IH]; constructor; [|exact IH].
  split; [exact H0|]. destruct v; simpl in *; try tauto.
  eapply Qle_trans; eassumption.
Qed.

Lemma chain_extends lo new hi l :
  (0 <= lo)%Q ->
  monotone_newest_first l -> Forall (reported lo) l ->
  chain lo new hi ->
  monotone_newest_first (map DFin new ++ l) /\
  Forall (reported hi) (map DFin new ++ l).
Proof.
  intros H0 Hm Hl. revert hi.
  induction new as [|v new IH]; cbn [map app chain]; intros hi Hc.
  - split; [exact Hm | eapply reported_weaken; eassumption].
  - destruct Hc as [Hv Hc]. destruct (IH v Hc) as [IHm IHf].
    pose proof (chain_le _ _ _ Hc) as Hlo.
    split.
    + cbn [monotone_newest_first]. split; [|exact IHm].
      destruct (map DFin new ++ l) as [|older rest] eqn:E; [exact I|].
      inversion IHf as [|? ? [_ Hb] _]; subst. exact Hb.
    + constructor.
      * split; simpl; [eapply Qle_trans; eassumption | exact Hv].
      * eapply reported_weaken; eassumption.
Qed.

Create HintDb progress.
#[export] Hint Resolve Qle_refl overall_le frac_le frac_le_1 frac_nonneg
  overall_succ_le overall_skip overall_le_1 overall_0_le_1 overall_nonneg
  : progress.
#[export] Hint Extern 1 (_ <= _)%Z => lia : progress.
#[export] Hint Extern 1 (_ <= _ <= _)%Z => lia : progress.
#[export] Hint Extern 1 (_ < _)%nat => lia : progress.
#[export] Hint Extern 1 (_ <= _)%nat => lia : progress.
#[export] Hint Extern 1 (0 <= 1)%Q => discriminate : progress.
#[export] Hint Extern 1 (1 <= 1)%Q => discriminate : progress.

Section Progress.

Variable env : Env.
Variable plan : InstallPlan.
Hypothesis Hrange : InstallPlan_in_range plan.
Hypothesis Hreads : reads_bounded env.
Hypothesis Hwithin :
  forall p, In p (partitions plan) ->
  select_data_end p (target_size p) <= target_size p.

(** How a turn keeps [InvProg]: the turn reports [new], between the old
    frontier and the new one. *)
Lemma InvProg_plain s s' (new : list double) :
  InvProg env plan s ->
  progress (trace s') = new ++ progress (trace s) ->
  (verifier_step_ s' = kVerifyTargetHash ->
   verifier_step_ s = kVerifyTargetHash) ->
  completions (trace s') = [] ->
  (verifier_step_ s' = kVerifyTargetHash ->
   exists qs, new = map DFin qs /\
   chain (frontier s) qs (frontier s') /\ (frontier s' <= 1)%Q /\
   (reading s' -> filesystem_data_end_ s' <= partition_size_ s')) ->
  InvProg env plan s'.
Proof.
  intros [Ht Hf] Hnew Hstep Hdone Hchain. split.
  - intros Hs'. destruct (Hchain Hs') as (qs & -> & Hc & H1' & Hsize').
    specialize (Hstep Hs').
    destruct (Ht Hstep) as (Hm & Hall & H0 & H1 & _).
    destruct (chain_extends _ _ _ _ H0 Hm Hall Hc) as [Hm' Hall'].
    rewrite Hnew.
    split; [exact Hm'|]. split; [exact Hall'|].
    split; [|split; assumption].
    eapply Qle_trans; [exact H0 | eapply chain_le; exact Hc].
  - intros _ Hne. congruence.
Qed.

(** The same for a turn that ends in Cleanup of a state that is not
    cancelled. *)
Lemma InvProg_Cleanup s x code (new : list double) :
  InvProg env plan s ->
  cancelled_ x = false ->
  progress (trace x) = new ++ progress (trace s) ->
  (verifier_step_ x = kVerifyTargetHash ->
   verifier_step_ s = kVerifyTargetHash) ->
  pending_task_ x = None ->
  (verifier_step_ x = kVerifyTargetHash ->
   exists qs, new = map DFin qs /\ chain (frontier s) qs 1) ->
  InvProg env plan (Cleanup env code x).
Proof.
  intros [Ht Hf] Hcan Hnew Hstep Hpend Hchain.
  assert (Hfr : frontier (Cleanup env code x) = 1%Q).
  { unfold frontier. rewrite Cleanup_pc, Cleanup_pending_task, Hpend.
    reflexivity. }
  split.
  - rewrite Cleanup_verifier_step. intros Hx.
    destruct (Hchain Hx) as (qs & -> & Hc). specialize (Hstep Hx).
    destruct (Ht Hstep) as (Hm & Hall & H0 & H1 & _).
    rewrite Hfr, Cleanup_progress, Hcan, Hnew. cbn [negb andb].
    assert (Hrd : ~ reading (Cleanup env code x)).
    { unfold reading. rewrite Cleanup_pc, Cleanup_pending_task, Hpend.
      intros [H _]; apply H; reflexivity. }
    destruct (has_delegate env).
    + destruct (chain_extends _ (1%Q :: qs) 1 _ H0 Hm Hall) as [Hm' Hall'].
      { split; [apply Qle_refl | exact Hc]. }
      split; [exact Hm'|]. split; [exact Hall'|].
      split; [discriminate|]. split; [discriminate|].
      intros Hr; destruct (Hrd Hr).
    + destruct (chain_extends _ qs 1 _ H0 Hm Hall Hc) as [Hm' Hall'].
      split; [exact Hm'|]. split; [exact Hall'|].
      split; [discriminate|]. split; [discriminate|].
      intros Hr; destruct (Hrd Hr).
  - intros Hdel _ _. rewrite Cleanup_progress, Hcan, Hdel. cbn [negb andb].
    eexists; reflexivity.
Qed.

(** A turn that reports nothing and leaves nothing to report. *)
Lemma InvProg_frozen s s' :
  InvProg env plan s ->
  progress (trace s') = progress (trace s) ->
  completions (trace s') = completions (trace s) ->
  (verifier_step_ s' = kVerifyTargetHash ->
   verifier_step_ s = kVerifyTargetHash) ->
  frontier s' = 1%Q ->
  ~ reading s' ->
  InvProg env plan s'.
Proof.
  intros [Ht Hf] Hp Hc Hstep Hfr Hrd. split.
  - intros Hs'. specialize (Hstep Hs').
    destruct (Ht Hstep) as (Hm & Hall & H0 & H1 & _).
    rewrite Hp, Hfr.
    split; [exact Hm|]. split; [eapply reported_weaken; eassumption|].
    split; [discriminate|]. split; [discriminate|].
    intros Hr; destruct (Hrd Hr).
  - rewrite Hp, Hc. exact Hf.
Qed.

Ltac prog_side :=
  sim_goal;
  first
    [ assumption
    | reflexivity
    | (let H := fresh in intros H; first [exact H | discriminate H]) ].

(** Closes [InvProg] of a leaf of a turn from [s], leaving the chain of
    rational bounds. *)
Ltac prog_leaf Hinv :=
  first
    [ eapply (InvProg_Cleanup _ _ _ (@nil double));
        [exact Hinv | prog_side | sim_goal; reflexivity | prog_side
        | prog_side | ]
    | eapply (InvProg_Cleanup _ _ _ [_]);
        [exact Hinv | prog_side | sim_goal; reflexivity | prog_side
        | prog_side | ]
    | eapply (InvProg_plain _ _ (@nil double));
        [exact Hinv | sim_goal; reflexivity | prog_side | prog_side | ]
    | eapply (InvProg_plain _ _ [_]);
        [exact Hinv | sim_goal; reflexivity | prog_side | prog_side | ] ].

(** The chain of bounds of a leaf, from the facts of the target step. *)
Ltac prog_chain Hinv Hfr Hfacts :=
  let Hstep := fresh "Hstep" in
  let Ht := fresh "Ht" in
  let H0 := fresh "H0" in
  let H1 := fresh "H1" in
  let Hf := fresh "Hf" in
  sim_goal; intros Hstep; try congruence; destruct Hinv as [Ht _];
  destruct (Ht Hstep) as (_ & _ & H0 & H1 & _);
  first [pose proof (Hfacts Hstep) as Hf | pose proof (Hfacts eq_refl) as Hf];
  rewrite Hfr in *;
  unfold frontier, reading, select_data_end in *; sim_goal;
  repeat match goal with
    | H : (_ =? _)%nat = true |- _ => apply Nat.eqb_eq in H
    | H : (_ =? _)%nat = false |- _ => apply Nat.eqb_neq in H
    | H : (_ =? _) = _ |- _ => rewrite H in *
    | H : install_plan_ _ = _ |- _ => rewrite H in *
    | H : cancelled_ _ = _ |- _ => rewrite H
    end;
  repeat match goal with
    | H : (_ =? _) = false |- _ => apply Z.eqb_neq in H
    end;
  cbn [negb] in *;
  rewrite ?wrap64_small by lia;
  rewrite ?progress_value_finite by lia;
  first [ exists (@nil Q); split; [reflexivity|]
        | eexists [_]; split; [reflexivity|] ];
  cbn [chain]; repeat split; intros; auto with progress.

Lemma InvProg_StartPartitionHashing s :
  Inv plan s -> InvProg env plan s -> pc s = PcStartPartitionHashing ->
  InvProg env plan (StartPartitionHashing env s).
Proof.
  intros H Hinv Hpc. inv_facts H.
  destruct Hrun as (Hc & Hp & Hd); [congruence|].
  assert (Hfr : frontier s =
    overall 0 (partition_index_ s) (List.length (partitions plan))).
  { unfold frontier. rewrite Hpc, Hplan. reflexivity. }
  assert (Hfacts : verifier_step_ s = kVerifyTargetHash -> True) by auto.
  unfold StartPartitionHashing, InitializeFdVABC, InitializeFd.
  split_head; prog_leaf Hinv; prog_chain Hinv Hfr Hfacts.
Qed.

Lemma InvProg_opened s success :
  Inv plan s -> InvOrder plan s -> InvProg env plan s ->
  pc s = PcStartPartitionHashing_opened success ->
  InvProg env plan (StartPartitionHashing_opened env success s).
Proof.
  intros H (st & _ & Hst) Hinv Hpc. inv_facts H.
  destruct Hrun as (Hc & Hp & Hd); [congruence|].
  rewrite Hpc in Hst. destruct Hst as (_ & p & Hcp & Hsize).
  assert (Hfr : frontier s =
    overall 0 (partition_index_ s) (List.length (partitions plan))).
  { unfold frontier. rewrite Hpc, Hplan. reflexivity. }
  pose proof (current_partition_in_range plan Hrange s p Hplan Hcp) as Hpr.
  assert (Hlt : (partition_index_ s < List.length (partitions plan))%nat).
  { rewrite <- Hplan. eapply current_partition_Some; eassumption. }
  assert (Hfacts : verifier_step_ s = kVerifyTargetHash ->
            select_data_end p (partition_size_ s) <= partition_size_ s /\
            0 <= partition_size_ s).
  { intros Hstep. rewrite Hsize, Hstep. cbn [step_size]. split.
    - apply Hwithin. unfold current_partition in Hcp.
      rewrite Hplan in Hcp. eapply nth_error_In; eassumption.
    - destruct Hpr as (_ & (? & _) & _). assumption. }
  unfold StartPartitionHashing_opened. rewrite Hcp.
  split_head; prog_leaf Hinv; prog_chain Hinv Hfr Hfacts.
Qed.

Lemma InvProg_ScheduleFileSystemRead s :
  Inv plan s -> InvOrder plan s -> InvProg env plan s ->
  pc s = PcScheduleFileSystemRead ->
  InvProg env plan (ScheduleFileSystemRead env s).
Proof.
  intros H (st & _ & Hst) Hinv Hpc. inv_facts H.
  destruct Hrun as (Hc & Hp & Hd); [congruence|].
  rewrite Hpc in Hst.
  destruct Hst as (pass & _ & _ & _ & _ & Hoff & _).
  assert (Hfr : frontier s =
    overall (frac (offset_ s) (partition_size_ s)) (partition_index_ s)
      (List.length (partitions plan))).
  { unfold frontier. rewrite Hpc, Hplan. reflexivity. }
  assert (Hlt : (partition_index_ s < List.length (partitions plan))%nat).
  { apply Hcur. left. unfold in_pass. rewrite Hpc. exact I. }
  assert (Hfacts : verifier_step_ s = kVerifyTargetHash ->
            filesystem_data_end_ s <= partition_size_ s).
  { intros Hstep. destruct Hinv as [Ht _].
    destruct (Ht Hstep) as (_ & _ & _ & _ & Hsz). apply Hsz.
    unfold reading. rewrite Hpc. exact I. }
  unfold ScheduleFileSystemRead, Seek, Read.
  split_head; prog_leaf Hinv; prog_chain Hinv Hfr Hfacts.
Qed.

Lemma InvProg_OnReadDone s bytes_read :
  Inv plan s -> InvOrder plan s -> InvProg env plan s ->
  pc s = PcIdle -> pending_task_ s = Some bytes_read ->
  InvProg env plan (OnReadDone env bytes_read (set_pending_task_ None s)).
Proof.
  intros H (st & _ & Hst) Hinv Hpc Hpend. inv_facts H.
  rewrite Hpc in Hst. specialize (Hst _ Hpend).
  assert (Hd : completions (trace s) = []).
  { destruct (completions (trace s)); [reflexivity|].
    rewrite Hcomp in Hpend; discriminate. }
  unfold OnReadDone. sim_goal.
  destruct (cancelled_ s) eqn:Hcan.
  - apply (InvProg_frozen s); autorewrite with cleanup; sim_goal;
      rewrite ?Hcan; auto.
    + unfold frontier. rewrite Cleanup_pc, Cleanup_pending_task. reflexivity.
    + unfold reading. rewrite Cleanup_pc, Cleanup_pending_task.
      sim_goal. intros [Hn _]; apply Hn; reflexivity.
  - destruct (Hst eq_refl)
      as ((pass & _ & _ & _ & _ & Hoff & Hlt2) & Hb0 & Hb1).
    assert (Hfr : frontier s =
      overall (frac (offset_ s) (partition_size_ s)) (partition_index_ s)
        (List.length (partitions plan))).
    { unfold frontier. rewrite Hpc, Hpend, Hcan, Hplan. reflexivity. }
    assert (Hlt : (partition_index_ s < List.length (partitions plan))%nat).
    { apply Hcur. right. congruence. }
    assert (Hfacts : verifier_step_ s = kVerifyTargetHash ->
              filesystem_data_end_ s <= partition_size_ s).
    { intros Hstep. destruct Hinv as [Ht _].
      destruct (Ht Hstep) as (_ & _ & _ & _ & Hsz). apply Hsz.
      unfold reading. rewrite Hpc, Hpend, Hcan. split; congruence. }
    unfold OnReadDone_advance, UpdateProgress.
    split_head; prog_leaf Hinv; prog_chain Hinv Hfr Hfacts.
  Qed.

Ltac prog_after_phase_a :=
  match goal with
  | H : Inv _ ?s, Hinv : InvProg _ _ ?s, Hpc : pc ?s = _ |- _ =>
      inv_facts H;
      let Hc := fresh "Hc" in
      let Hp := fresh "Hp" in
      let Hd := fresh "Hd" in
      let Hfr := fresh "Hfr" in
      let Hlt := fresh "Hlt" in
      let Hfacts := fresh "Hfacts" in
      match goal with
      | Hrun : pc s <> PcIdle -> _ |- _ =>
          destruct Hrun as (Hc & Hp & Hd); [congruence|]
      end;
      assert (Hfr : frontier s =
        overall 1 (partition_index_ s) (List.length (partitions plan)))
        by (unfold frontier;
            match goal with Hplan : install_plan_ s = _ |- _ =>
              rewrite Hpc, Hplan end; reflexivity);
      assert (Hlt : (partition_index_ s < List.length (partitions plan))%nat)
        by (match goal with Hcur : in_pass s \/ _ -> _ |- _ =>
              apply Hcur end; left; unfold in_pass; rewrite Hpc; exact I);
      assert (Hfacts : verifier_step_ s = kVerifyTargetHash -> True) by auto;
      unfold ReadVerityAndFooter, ReadVerityAndFooter_seek, Seek,
        ReadVerityAndFooterLoop, Read,
        FinishPartitionHashing, FinishPartitionHashing_next;
      split_head; prog_leaf Hinv; prog_chain Hinv Hfr Hfacts
  end.

Lemma InvProg_ReadVerityAndFooter s :
  Inv plan s -> InvProg env plan s -> pc s = PcReadVerityAndFooter ->
  InvProg env plan (ReadVerityAndFooter env s).
Proof. intros H Hinv Hpc. prog_after_phase_a. Qed.

Lemma InvProg_ReadVerityAndFooterLoop s bytes_to_read :
  Inv plan s -> InvProg env plan s ->
  pc s = PcReadVerityAndFooterLoop bytes_to_read ->
  InvProg env plan (ReadVerityAndFooterLoop env bytes_to_read s).
Proof. intros H Hinv Hpc. prog_after_phase_a. Qed.

Lemma InvProg_FinishPartitionHashing s :
  Inv plan s -> InvProg env plan s -> pc s = PcFinishPartitionHashing ->
  InvProg env plan (FinishPartitionHashing env s).
Proof. intros H Hinv Hpc. prog_after_phase_a. Qed.

Lemma InvProg_TerminateProcessing s :
  InvProg env plan s -> pc s = PcIdle ->
  InvProg env plan (TerminateProcessing env s).
Proof.
  intros Hinv Hpc. unfold TerminateProcessing.
  apply (InvProg_frozen s); autorewrite with cleanup; sim_goal; auto.
  - split_conds; reflexivity.
  - split_conds; reflexivity.
  - split_conds; auto.
  - unfold frontier. rewrite Cleanup_pc, Cleanup_pending_task,
      Cleanup_cancelled.
    split_conds; reflexivity.
  - unfold reading. rewrite Cleanup_pc, Cleanup_pending_task,
      Cleanup_cancelled.
    split_conds; intros [_ Hn]; discriminate Hn.
Qed.

Lemma InvProg_start :
  partitions plan <> [] -> InvProg env plan (start env (Some plan)).
Proof.
  intros Hne. unfold start, PerformAction; sim.
  destruct (partitions plan) as [|p l] eqn:Hparts; [congruence|].
  split.
  - intros _. unfold frontier, reading; sim. rewrite Hparts.
    split; [exact I|]. split; [constructor|].
    split; [apply overall_nonneg; discriminate|].
    split; [apply overall_0_le_1; simpl; lia | intros []].
  - intros _ Hc. exfalso. apply Hc. reflexivity.
Qed.

Lemma InvProg_next i s :
  Inv plan s -> InvOrder plan s -> InvProg env plan s ->
  InvProg env plan (next env i s).
Proof.
  intros HI HO HP. destruct i; simpl.
  - unfold exec. destruct (pc s) eqn:Hpc.
    + apply InvProg_StartPartitionHashing; assumption.
    + apply InvProg_opened; assumption.
    + apply InvProg_ScheduleFileSystemRead; assumption.
    + apply InvProg_ReadVerityAndFooter; assumption.
    + apply InvProg_ReadVerityAndFooterLoop; assumption.
    + apply InvProg_FinishPartitionHashing; assumption.
    + destruct (pending_task_ s) eqn:Hpend; [|assumption].
      apply InvProg_OnReadDone; assumption.
    + assumption.
  - destruct (pc s) eqn:Hpc; auto using InvProg_TerminateProcessing.
Qed.

Lemma InvProg_run inputs :
  partitions plan <> [] ->
  InvProg env plan (run env inputs (start env (Some plan))).
Proof.
  intros Hne.
  apply (run_invariant env
           (fun s => Inv plan s /\ InvOrder plan s /\ InvProg env plan s)).
  - intros i s (HI & HO & HP). split; [apply Inv_next; assumption|].
    split; [apply InvOrder_next | apply InvProg_next]; assumption.
  - split; [apply Inv_start; reflexivity|].
    split; [apply InvOrder_start | apply InvProg_start; assumption].
Qed.

End Progress.




(** ** Further properties of the action *)

(** *** Resources *)

Lemma Cleanup_reads env code s :
  reads (trace (Cleanup env code s)) = reads (trace s).
Proof. unfold Cleanup, UpdateProgress; split_conds; reflexivity. Qed.

Lemma current_partition_None s :
  current_partition s = None ->
  (List.length (partitions (install_plan_ s)) <= partition_index_ s)%nat.
Proof. unfold current_partition. apply nth_error_None. Qed.

Lemma Inv_start_any env input :
  exists plan, Inv plan (start env input).
Proof.
  destruct input as [plan|].
  - exists plan. apply Inv_start. reflexivity.
  - exists empty_plan. unfold start, PerformAction.
    constructor; sim; unfold in_pass; sim; simpl;
      try congruence; try lia; try tauto.
Qed.

Section Resources.

Variable env : Env.

Ltac res_facts H :=
  let Hrel := fresh "Hrel" in
  let Hfd := fresh "Hfd" in
  let Hbuf := fresh "Hbuf" in
  let Hdone := fresh "Hdone" in
  let Hab := fresh "Hab" in
  let Hreads := fresh "Hreads" in
  destruct H as [Hrel Hfd Hbuf Hdone Hab Hreads];
  unfold holds_descriptor, holds_buffer in Hfd, Hbuf.

Ltac res_close :=
  constructor;
  unfold holds_descriptor, holds_buffer, check_failed;
  rewrite ?Cleanup_reads; autorewrite with cleanup; sim;
  cbn [reads] in *;
  repeat match goal with
    | H : current_partition _ = Some _ |- _ =>
        pose proof (current_partition_Some _ _ H); revert H
    | H : current_partition _ = None |- _ =>
        apply current_partition_None in H
    | H : (_ =? _)%nat = true |- _ => apply Nat.eqb_eq in H
    | H : (_ =? _)%nat = false |- _ => apply Nat.eqb_neq in H
    | H : completions (trace _) = _ |- _ => rewrite H in *
    | H : pending_task_ _ = _ |- _ => rewrite H in *
    | H : cancelled_ _ = _ |- _ => rewrite H in *
    | H : pc _ = _ |- _ => rewrite H in *
    end; intros; subst; sim;
  repeat match goal with
    | H : _ /\ _ |- _ => destruct H
    | H : _ \/ _ |- _ => destruct H
    | H : False |- _ => destruct H
    | H : True -> _ |- _ => specialize (H I)
    | H : True \/ _ -> _ |- _ => specialize (H (or_introl I))
    | H : ?x = ?x -> _ |- _ => specialize (H eq_refl)
    end;
  try congruence; try (exfalso; congruence); try (exfalso; lia);
  try solve [repeat split; congruence];
  try solve [match goal with
             | H : _ -> ?g |- ?g => apply H; repeat split; congruence
             end].

Lemma wrap64_range z : 0 <= wrap64 z < two64.
Proof. unfold wrap64. apply Z.mod_pos_bound. reflexivity. Qed.

Lemma InvRes_start input : InvRes (start env input).
Proof.
  unfold start, PerformAction; split_head; res_close;
    simpl in *; try congruence; try tauto; try constructor.
Qed.

Ltac res_reads Hbuf :=
  try assumption;
  try (constructor; [|assumption]; unfold read_fits_buffer; simpl;
       repeat match goal with
         | H : (_ =? _) = false |- _ => apply Z.eqb_neq in H
         | H : (_ <? _) = true |- _ => apply Z.ltb_lt in H
         end;
       match goal with
       | |- context [wrap64 ?z] => pose proof (wrap64_range z)
       | _ => idtac
       end;
       rewrite ?Hbuf in * by exact I; unfold kReadFileBufferSize in *; lia);
  try (eexists _, _; (split; [reflexivity|]);
       unfold current_partition in *; sim_goal; (split; [eassumption|]);
       apply Z.leb_gt; assumption).

Lemma InvRes_exec plan s : Inv plan s -> InvRes s -> InvRes (exec env s).
Proof.
  intros H HR. inv_facts H. res_facts HR.
  unfold_action.
  destruct (pc s) eqn:Hpc;
    try (constructor; unfold holds_descriptor, holds_buffer;
         rewrite ?Hpc; assumption);
    try (destruct Hrun as (Hc & Hp & Hd); [congruence|]);
    unfold in_pass in Hcur; rewrite Hpc in Hcur.
  - split_head; res_close; res_reads Hbuf.
  - split_head; res_close; res_reads Hbuf.
  - split_head; res_close; res_reads Hbuf.
  - split_head; res_close; res_reads Hbuf.
  - split_head; res_close; res_reads Hbuf.
  - split_head; res_close; res_reads Hbuf.
  - destruct (pending_task_ s) as [b|] eqn:Hpend;
      [|constructor; unfold holds_descriptor, holds_buffer;
        rewrite ?Hpc, ?Hpend; auto].
    assert (Hd : completions (trace s) = []).
    { destruct (completions (trace s)); [reflexivity|].
      discriminate Hcomp; discriminate. }
    split_head; res_close; res_reads Hbuf.
Qed.

Lemma InvRes_TerminateProcessing plan s :
  Inv plan s -> InvRes s -> pc s = PcIdle ->
  InvRes (TerminateProcessing env s).
Proof.
  intros H HR Hpc. inv_facts H. res_facts HR.
  unfold TerminateProcessing; split_head; res_close; res_reads Hbuf.
Qed.

Lemma InvRes_next plan i s :
  Inv plan s -> InvRes s -> InvRes (next env i s).
Proof.
  intros H HR; destruct i; simpl.
  - eapply InvRes_exec; eassumption.
  - destruct (pc s) eqn:Hpc; eauto using InvRes_TerminateProcessing.
Qed.

Lemma InvRes_run input inputs :
  exists plan,
    Inv plan (run env inputs (start env input)) /\
    InvRes (run env inputs (start env input)).
Proof.
  destruct (Inv_start_any env input) as (plan & HI).
  exists plan.
  apply (run_invariant env (fun s => Inv plan s /\ InvRes s)).
  - intros i s [H HR]; split;
      [apply Inv_next | eapply InvRes_next]; eassumption.
  - split; [assumption | apply InvRes_start].
Qed.

End Resources.

Lemma aborted_stays env s inputs :
  pc s = PcAborted -> run env inputs s = s.
Proof.
  intros Hpc. induction inputs as [|i l IH]; [reflexivity|].
  simpl. destruct i; simpl; unfold exec; rewrite Hpc; exact IH.
Qed.

Lemma completed_next env plan i s :
  Inv plan s -> completions (trace s) <> [] ->
  completions (trace (next env i s)) = completions (trace s) /\
  outputs (trace (next env i s)) = outputs (trace s) /\
  progress (trace (next env i s)) = progress (trace s).
Proof.
  intros H Hc. inv_facts H.
  assert (Hpc : pc s = PcIdle).
  { destruct (pc s) eqn:Hpc; try reflexivity;
      destruct Hrun as (_ & _ & Hd); congruence. }
  destruct i; simpl.
  - unfold exec. rewrite Hpc, (Hcomp Hc). auto.
  - rewrite Hpc. unfold TerminateProcessing.
    autorewrite with cleanup. split_conds; auto.
Qed.

Lemma completed_run env plan more s :
  Inv plan s -> completions (trace s) <> [] ->
  completions (trace (run env more s)) = completions (trace s) /\
  outputs (trace (run env more s)) = outputs (trace s) /\
  progress (trace (run env more s)) = progress (trace s).
Proof.
  revert s. induction more as [|i l IH]; intros s H Hc; [auto|].
  simpl. destruct (completed_next env plan i s H Hc) as (E1 & E2 & E3).
  destruct (IH (next env i s)) as (F1 & F2 & F3).
  - apply Inv_next; assumption.
  - rewrite E1; assumption.
  - rewrite F1, F2, F3. auto.
Qed.

(** X1. In every run the action completes at most once.  When it has
    completed it is back in the message loop with nothing queued, the
    descriptor released and the buffer empty, and whatever the loop runs
    afterwards adds no completion, no output object and no progress
    report. *)
Theorem completion_is_final env input inputs more :
  let s := run env inputs (start env input) in
  (List.length (completions (trace s)) <= 1)%nat /\
  (completions (trace s) <> [] ->
   pc s = PcIdle /\ pending_task_ s = None /\
   partition_fd_ s = None /\ buffer_ s = 0 /\
   completions (trace (run env more s)) = completions (trace s) /\
   outputs (trace (run env more s)) = outputs (trace s) /\
   progress (trace (run env more s)) = progress (trace s)).
Proof.
  intros s. subst s.
  destruct (InvRes_run env input inputs) as (plan & HI & HR).
  split; [apply (inv_once _ _ HI)|].
  intros Hc.
  destruct (res_released _ HR (or_introl Hc)) as (Hfd & Hbuf & Hpc).
  pose proof (inv_complete _ _ HI Hc) as Hpend.
  destruct (completed_run env plan more _ HI Hc) as (E1 & E2 & E3).
  auto 10.
Qed.

(** X2. The process ends abnormally only at the CHECK_LE of
    StartPartitionHashing: when a run has aborted, the current partition has
    its hash tree behind its FEC data, the failed check is the last event,
    and no completion was reported.  No run uses a descriptor that is not
    there or a partition outside the plan. *)
Theorem abort_only_by_check env input inputs :
  let s := run env inputs (start env input) in
  pc s = PcAborted ->
  completions (trace s) = [] /\ check_failed s.
Proof.
  intros s Hpc. subst s.
  destruct (InvRes_run env input inputs) as (plan & HI & HR).
  split; [|apply (res_aborted _ HR Hpc)].
  destruct (inv_running _ _ HI) as (_ & _ & Hd); [congruence|exact Hd].
Qed.

Lemma abort_only_by_check_witness :
  let s := run (env_all_ok digest_b) [Tick; Tick]
             (start (env_all_ok digest_b) (Some plan_hash_tree_only)) in
  pc s = PcAborted /\ completions (trace s) = [] /\ check_failed s.
Proof.
  cbv zeta. split; [vm_compute; reflexivity|].
  apply (abort_only_by_check (env_all_ok digest_b)
           (Some plan_hash_tree_only) [Tick; Tick]).
  vm_compute; reflexivity.
Defined.

(** X3. Every read that the action issues asks for at least one byte and
    for no more than the 128 KiB that buffer_ holds. *)
Theorem reads_fit_buffer env input inputs :
  Forall read_fits_buffer
    (reads (trace (run env inputs (start env input)))).
Proof.
  destruct (InvRes_run env input inputs) as (plan & HI & HR).
  apply (res_reads _ HR).
Qed.

(** X4. When the descriptor of a partition whose hash_tree_offset exceeds
    its fec_offset has been opened, the CHECK_LE of StartPartitionHashing
    ends the process: nothing is reported to the processor, then or
    later. *)
Theorem check_failure_aborts env s p inputs :
  pc s = PcStartPartitionHashing_opened true ->
  current_partition s = Some p ->
  fec_offset p < hash_tree_offset p ->
  let s' := run env (Tick :: inputs) s in
  pc s' = PcAborted /\ trace s' = EvCheckFailed :: trace s.
Proof.
  intros Hpc Hcp Hlt s'. subst s'.
  assert (E : exec env s =
              abort (emit EvCheckFailed
                (set_filesystem_data_end_ (partition_size_ s)
                  (set_offset_ 0 (set_hasher_ true
                    (set_buffer_ kReadFileBufferSize s)))))).
  { unfold exec. rewrite Hpc. unfold StartPartitionHashing_opened.
    rewrite Hcp. cbn [negb].
    replace (hash_tree_offset p <=? fec_offset p) with false
      by (symmetry; apply Z.leb_gt; exact Hlt).
    reflexivity. }
  change (run env (Tick :: inputs) s) with (run env inputs (exec env s)).
  rewrite E. rewrite aborted_stays by reflexivity. split; reflexivity.
Qed.

Lemma check_failure_aborts_witness :
  let env := env_all_ok digest_b in
  let s := run env [Tick] (start env (Some plan_hash_tree_only)) in
  let s' := run env [Tick; Tick; Cancel; Tick] s in
  pc s = PcStartPartitionHashing_opened true /\
  pc s' = PcAborted /\ trace s' = EvCheckFailed :: trace s.
Proof.
  cbv zeta. split; [vm_compute; reflexivity|].
  apply (check_failure_aborts (env_all_ok digest_b) _ system_hash_tree_only
           [Tick; Cancel; Tick]).
  - vm_compute; reflexivity.
  - vm_compute; reflexivity.
  - vm_compute; reflexivity.
Defined.

(** *** Digests *)

Lemma Cleanup_current_pass env code s :
  current_pass (trace (Cleanup env code s)) = current_pass (trace s).
Proof. unfold Cleanup, UpdateProgress; split_conds; reflexivity. Qed.

Lemma Cleanup_comparisons env plan code s :
  comparisons env plan (trace (Cleanup env code s)) =
  comparisons env plan (trace s).
Proof. unfold Cleanup, UpdateProgress; split_conds; reflexivity. Qed.

Lemma comparisons_cons env plan e h x :
  In x (comparisons env plan h) -> In x (comparisons env plan (e :: h)).
Proof.
  intros H. destruct e; simpl; auto.
  destruct ok; auto. destruct (current_pass h) as [[i st]|]; auto.
  destruct (nth_error (partitions plan) i); simpl; auto.
Qed.

Lemma verified_cons env plan e h index :
  verified env plan h index -> verified env plan (e :: h) index.
Proof.
  intros (p & Hp & [H|H]); exists p; (split; [assumption|]);
    [left; apply comparisons_cons; assumption | right; assumption].
Qed.

Lemma mismatch_cons env plan step e h :
  mismatch env plan step h -> mismatch env plan step (e :: h).
Proof. intros (i & H). exists i. apply comparisons_cons. assumption. Qed.

Section Digest.

Variable env : Env.

Variable plan : InstallPlan.

Ltac dig_facts H :=
  let Hpass := fresh "Hpass" in
  let Hver := fresh "Hver" in
  let Hsrc := fresh "Hsrc" in
  let Hnew := fresh "Hnew" in
  let Hdl := fresh "Hdl" in
  destruct H as [Hpass Hver Hsrc Hnew Hdl].

Ltac dig_mismatch :=
  match goal with
  | |- exists i, (?j, ?st, ?b) = (i, ?st, ?b) \/ _ =>
      exists j; left; reflexivity
  | H : In (?x, ?st, ?b) ?l |- exists i, _ \/ In (i, ?st, ?b) ?l =>
      exists x; right; exact H
  | H : In (?x, ?st, ?b) ?l |- exists i, In (i, ?st, ?b) ?l =>
      exists x; exact H
  end.

Ltac dig_rewrite :=
  repeat match goal with
    | H : completions (trace _) = _ |- _ => rewrite H in *
    | H : pending_task_ _ = _ |- _ => rewrite H in *
    | H : cancelled_ _ = _ |- _ => rewrite H in *
    | H : pc _ = _ |- _ => rewrite H in *
    | H : verifier_step_ _ = _ |- _ => rewrite H in *
    | H : current_pass (trace _) = _ |- _ => rewrite H in *
    | H : nth_error (partitions _) _ = _ |- _ => rewrite H in *
    | H : blob_eqb _ _ = _ |- _ => rewrite H in *
    | H : hasher_finalize _ _ = _ |- _ => rewrite H in *
    end.

Ltac dig_close :=
  constructor; unfold in_pass in *;
  rewrite ?Cleanup_current_pass, ?Cleanup_comparisons;
  unfold verified, mismatch in *;
  rewrite ?Cleanup_current_pass, ?Cleanup_comparisons;
  autorewrite with cleanup; sim;
  cbn [current_pass comparisons In step_hash] in *;
  dig_rewrite; cbn [current_pass comparisons In step_hash] in *;
  dig_rewrite; cbn [current_pass comparisons In step_hash] in *;
  dig_rewrite; cbn [current_pass comparisons In step_hash] in *;
  intros; sim; cbn [In step_hash] in *;
  repeat match goal with
    | H : _ /\ _ |- _ => destruct H
    | H : _ \/ _ |- _ => destruct H
    | H : False |- _ => destruct H
    | H : exists _, _ |- _ => destruct H
    | H : True -> _ |- _ => specialize (H I)
    | H : True \/ _ -> _ |- _ => specialize (H (or_introl I))
    | H : ?x = ?x -> _ |- _ => specialize (H eq_refl)
    end;
  try congruence; try (exfalso; congruence);
  try solve [auto];
  try solve [dig_mismatch];
  try solve [split; dig_mismatch];
  try solve [match goal with
             | H : _ -> ?g |- ?g =>
                 apply H; right; split; [discriminate|reflexivity]
             end].

Ltac dig_earlier Hv i Hlt :=
  let p := fresh "p" in
  let Hn := fresh "Hn" in
  let Hin := fresh "Hin" in
  destruct (Hv i Hlt) as (p & Hn & [Hin|Hin]);
  exists p; (split; [exact Hn|]);
  [left; first [exact Hin | right; exact Hin] | right; exact Hin].

Ltac dig_index :=
  match goal with
  | Hlt : (?i < partition_index_ ?s)%nat,
    Hv : forall index, (index < partition_index_ ?s)%nat -> _ |- _ =>
      dig_earlier Hv i Hlt
  | Hlt : (?i < S (partition_index_ ?s))%nat,
    Hv : forall index, (index < partition_index_ ?s)%nat -> _ |- _ =>
      let Hne := fresh "Hne" in
      destruct (Nat.eq_dec i (partition_index_ s)) as [->|Hne];
      [|assert (Hlt' : (i < partition_index_ s)%nat) by lia;
        dig_earlier Hv i Hlt']
  end.

Ltac dig_current :=
  match goal with
  | Hcp : current_partition ?s = Some ?p, Hplan : install_plan_ ?s = _
    |- exists q, nth_error _ (partition_index_ ?s) = Some q /\ _ =>
      exists p; split;
      [unfold current_partition in Hcp; rewrite Hplan in Hcp; exact Hcp|]
  | Hcp : nth_error _ (partition_index_ ?s) = Some ?p
    |- exists q, nth_error _ (partition_index_ ?s) = Some q /\ _ =>
      exists p; split; [exact Hcp|]
  end.

Lemma InvDigest_start : InvDigest env plan (start env (Some plan)).
Proof.
  unfold start, PerformAction; split_head; dig_close;
    simpl in *; try congruence; try tauto; try lia.
Qed.

Lemma InvDigest_exec s :
  Inv plan s -> InvDigest env plan s -> InvDigest env plan (exec env s).
Proof.
  intros H HD. inv_facts H. dig_facts HD.
  unfold_action.
  destruct (pc s) eqn:Hpc;
    try (constructor; unfold in_pass; rewrite ?Hpc; assumption);
    try (destruct Hrun as (Hc & Hp & Hd); [congruence|]);
    unfold in_pass in Hcur, Hpass; rewrite Hpc in Hcur, Hpass.
  - split_head; dig_close.
    dig_index. dig_current.
    right. unfold skipped. cbn [step_path step_size].
    rewrite ?Heqv, ?Hplan in Heqb0. cbn [VerifierStep_eqb] in *.
    rewrite Heqb0, Heqb1, Heqb2. reflexivity.
  - split_head; dig_close.
  - split_head; dig_close.
  - split_head; dig_close.
  - split_head; dig_close.
  - specialize (Hpass (or_introl I)).
    unfold current_partition. sim_goal. rewrite Hplan.
    split_head; dig_close; dig_index.
    dig_current. left; left; reflexivity.
  - destruct (pending_task_ s) as [b|] eqn:Hpend;
      [|constructor; unfold in_pass; rewrite ?Hpc, ?Hpend; assumption].
    assert (Hd : completions (trace s) = []).
    { destruct (completions (trace s)); [reflexivity|].
      discriminate Hcomp; discriminate. }
    split_head; dig_close.
  - constructor; unfold in_pass; rewrite ?Hpc; assumption.
Qed.

Lemma InvDigest_TerminateProcessing s :
  InvDigest env plan s -> pc s = PcIdle ->
  InvDigest env plan (TerminateProcessing env s).
Proof.
  intros HD Hpc. dig_facts HD.
  unfold TerminateProcessing; split_head; dig_close.
Qed.

Lemma InvDigest_next i s :
  Inv plan s -> InvDigest env plan s -> InvDigest env plan (next env i s).
Proof.
  intros H HD; destruct i; simpl.
  - apply InvDigest_exec; assumption.
  - destruct (pc s) eqn:Hpc; auto using InvDigest_TerminateProcessing.
Qed.

Lemma InvDigest_run inputs :
  Inv plan (run env inputs (start env (Some plan))) /\
  InvDigest env plan (run env inputs (start env (Some plan))).
Proof.
  apply (run_invariant env (fun s => Inv plan s /\ InvDigest env plan s)).
  - intros i s [H HD]; split;
      [apply Inv_next | apply InvDigest_next]; assumption.
  - split; [apply Inv_start; reflexivity | apply InvDigest_start].
Qed.

End Digest.

Lemma completions_single (c : ErrorCode) l :
  In c l -> (List.length l <= 1)%nat -> l = [c].
Proof.
  destruct l as [|a [|b l]]; simpl; intros H Hl;
    [destruct H | destruct H as [->|[]]; reflexivity | lia].
Qed.

Section Fallback.

Variable env : Env.

Variable plan : InstallPlan.

Hypothesis Hplan_ok :
  Forall (fun p => sourceless_delta p = false) (partitions plan).

Lemma current_not_sourceless s p :
  install_plan_ s = plan -> current_partition s = Some p ->
  sourceless_delta p = false.
Proof.
  intros Hplan Hcp. unfold current_partition in Hcp. rewrite Hplan in Hcp.
  apply nth_error_In in Hcp.
  exact (proj1 (Forall_forall _ _) Hplan_ok p Hcp).
Qed.

Ltac fb_close :=
  unfold InvFallback in *; unfold current_partition in *;
  autorewrite with cleanup; sim; intros;
  repeat match goal with
    | H : completions (trace _) = _ |- _ => rewrite H in *
    | H : cancelled_ _ = _ |- _ => rewrite H in *
    | H : verifier_step_ _ = _ |- _ => rewrite H in *
    end; cbn [In] in *;
  repeat match goal with
    | H : ?x = ?x -> _ |- _ => specialize (H eq_refl)
    | H : _ /\ _ |- _ => destruct H
    | H : exists _, _ |- _ => destruct H
    end;
  try congruence;
  try solve [split; [eauto | intros [?|?]; congruence]];
  try solve [split; [eauto | tauto]].

(** In the source step the index is inside the plan. *)
Ltac fb_index :=
  exfalso;
  match goal with
  | H : nth_error ?l ?i = Some _, E : (?i =? _)%nat = true |- _ =>
      apply Nat.eqb_eq in E;
      assert (Hlt : (i < List.length l)%nat)
        by (apply nth_error_Some; congruence);
      lia
  end.

(** In the source step the partition is not passed over. *)
Ltac fb_skip :=
  exfalso;
  repeat match goal with
    | H1 : ?a = Some ?x, H2 : ?a = Some ?y |- _ =>
        assert (x = y) by congruence; subst x; clear H1
    end;
  match goal with
  | Hplan : install_plan_ ?s = _,
    Hcp : nth_error (partitions (install_plan_ ?s)) (partition_index_ ?s) =
          Some ?p,
    He : blob_empty (source_hash ?p) = false |- _ =>
      pose proof (current_not_sourceless s p Hplan Hcp) as Hns;
      unfold sourceless_delta in Hns; rewrite He in Hns;
      repeat match goal with
        | H : string_empty _ = true |- _ => rewrite H in Hns
        | H : (_ =? 0) = true |- _ => rewrite H in Hns
        end;
      discriminate Hns
  end.

Lemma InvFallback_start : InvFallback (start env (Some plan)).
Proof.
  unfold start, PerformAction; split_head; fb_close;
    simpl in *; congruence.
Qed.

Lemma InvFallback_exec s :
  Inv plan s -> InvFallback s -> InvFallback (exec env s).
Proof.
  intros H HF. inv_facts H.
  unfold_action.
  destruct (pc s) eqn:Hpc; try assumption;
    try (destruct Hrun as (Hc & Hp & Hd); [congruence|]);
    unfold in_pass in Hcur; rewrite Hpc in Hcur.
  - split_head; fb_close; first [fb_index | fb_skip].
  - split_head; fb_close.
  - split_head; fb_close.
  - split_head; fb_close.
  - split_head; fb_close.
  - split_head; fb_close.
  - destruct (pending_task_ s) as [b|] eqn:Hpend; [|assumption].
    assert (Hd : completions (trace s) = []).
    { destruct (completions (trace s)); [reflexivity|].
      discriminate Hcomp; discriminate. }
    split_head; fb_close.
Qed.

Lemma InvFallback_TerminateProcessing s :
  InvFallback s -> InvFallback (TerminateProcessing env s).
Proof.
  intros HF. unfold TerminateProcessing; split_head; fb_close.
Qed.

Lemma InvFallback_next i s :
  Inv plan s -> InvFallback s -> InvFallback (next env i s).
Proof.
  intros H HF; destruct i; simpl.
  - apply InvFallback_exec; assumption.
  - destruct (pc s) eqn:Hpc; auto using InvFallback_TerminateProcessing.
Qed.

Lemma InvFallback_run inputs :
  InvFallback (run env inputs (start env (Some plan))).
Proof.
  apply (run_invariant env (fun s => Inv plan s /\ InvFallback s)).
  - intros i s [H HF]; split;
      [apply Inv_next | apply InvFallback_next]; assumption.
  - split; [apply Inv_start; reflexivity | apply InvFallback_start].
Qed.

End Fallback.

(** A run that has completed with kSuccess without leaving the target step
    has matched or passed over every partition. *)
Lemma target_step_success env plan inputs :
  let s := run env inputs (start env (Some plan)) in
  In kSuccess (completions (trace s)) ->
  verifier_step_ s = kVerifyTargetHash ->
  forall index p, nth_error (partitions plan) index = Some p ->
  In (index, kVerifyTargetHash, true) (comparisons env plan (trace s)) \/
  skipped env plan kVerifyTargetHash p = true.
Proof.
  intros s Hin Hstep index p Hp. subst s.
  destruct (InvDigest_run env plan inputs) as (HI & HD).
  destruct (InvOut_run env plan inputs) as (_ & _ & Hsome).
  pose proof (completions_single _ _ Hin (inv_once _ _ HI)) as Hc.
  destruct (Hsome _ Hc) as (_ & _ & Hidx).
  assert (Hne : partitions plan <> []).
  { intros E. rewrite E in Hp. destruct index; discriminate. }
  destruct (Hidx eq_refl Hne) as (Hlen & _).
  assert (Hlt : (index < List.length (partitions plan))%nat)
    by (apply nth_error_Some; congruence).
  rewrite <- Hlen in Hlt.
  destruct (dig_verified _ _ _ HD Hstep index Hlt) as (p' & Hp' & Hv).
  assert (p' = p) by congruence. subst p'. exact Hv.
Qed.

(** X5. On a plan in which no partition with a source digest lacks both a
    source path and a source size, a run completes with kSuccess only if,
    for every partition of the plan, a pass of the target step ended in a
    digest equal to target_hash, or the partition was passed over because it
    has no target path and no target size. *)
Theorem success_means_verified env plan inputs :
  Forall (fun p => sourceless_delta p = false) (partitions plan) ->
  let s := run env inputs (start env (Some plan)) in
  In kSuccess (completions (trace s)) ->
  forall index p, nth_error (partitions plan) index = Some p ->
  In (index, kVerifyTargetHash, true) (comparisons env plan (trace s)) \/
  skipped env plan kVerifyTargetHash p = true.
Proof.
  intros Hok s Hin. subst s.
  apply target_step_success; [exact Hin|].
  pose proof (InvFallback_run env plan Hok inputs) as HF.
  destruct (verifier_step_ (run env inputs (start env (Some plan))))
    eqn:Hstep; [reflexivity|].
  destruct (HF Hstep) as (_ & Hno). destruct (Hno Hin).
Qed.

Lemma success_means_verified_witness :
  let env := env_all_ok digest_b in
  let s := run env (repeat Tick 12) (start env (Some plan_skip_then_verify)) in
  completions (trace s) = [kSuccess] /\
  (In (1%nat, kVerifyTargetHash, true)
      (comparisons env plan_skip_then_verify (trace s)) \/
   skipped env plan_skip_then_verify kVerifyTargetHash system_delta = true) /\
  (In (0%nat, kVerifyTargetHash, true)
      (comparisons env plan_skip_then_verify (trace s)) \/
   skipped env plan_skip_then_verify kVerifyTargetHash
     (partition_no_device "odm") = true).
Proof.
  cbv zeta.
  assert (Hok : Forall (fun p => sourceless_delta p = false)
                  (partitions plan_skip_then_verify)).
  { repeat constructor. }
  assert (Hin : In kSuccess
      (completions (trace (run (env_all_ok digest_b) (repeat Tick 12)
         (start (env_all_ok digest_b) (Some plan_skip_then_verify)))))).
  { vm_compute. left; reflexivity. }
  split; [vm_compute; reflexivity|]. split.
  - exact (success_means_verified (env_all_ok digest_b)
             plan_skip_then_verify (repeat Tick 12) Hok Hin 1%nat
             system_delta eq_refl).
  - exact (success_means_verified (env_all_ok digest_b)
             plan_skip_then_verify (repeat Tick 12) Hok Hin 0%nat
             (partition_no_device "odm") eq_refl).
Defined.

(** X6. A run completes with kNewRootfsVerificationError only after the
    digest of a target pass differed from target_hash, and with
    kDownloadStateInitializationError only after, in addition, the digest of
    a source pass differed from source_hash; the action is in the source
    step only after a target digest differed. *)
Theorem digest_error_codes env plan inputs :
  let s := run env inputs (start env (Some plan)) in
  (In kNewRootfsVerificationError (completions (trace s)) ->
   mismatch env plan kVerifyTargetHash (trace s)) /\
  (In kDownloadStateInitializationError (completions (trace s)) ->
   mismatch env plan kVerifyTargetHash (trace s) /\
   mismatch env plan kVerifySourceHash (trace s)) /\
  (verifier_step_ s = kVerifySourceHash ->
   mismatch env plan kVerifyTargetHash (trace s)).
Proof.
  intros s. subst s.
  destruct (InvDigest_run env plan inputs) as (_ & HD).
  split; [apply (dig_new_rootfs _ _ _ HD)|].
  split; [apply (dig_download_state _ _ _ HD) | apply (dig_source _ _ _ HD)].
Qed.

(** X7. When the target digest of the last partition differs, the partition
    has a source digest but neither a source path nor a source size, and no
    untouched dynamic partition is to be checked, FinishPartitionHashing
    falls back to the source step, StartPartitionHashing passes the
    partition over there, and the action completes with kSuccess. *)
Theorem sourceless_fallback_succeeds env s p :
  pc s = PcFinishPartitionHashing ->
  cancelled_ s = false ->
  verifier_step_ s = kVerifyTargetHash ->
  current_partition s = Some p ->
  S (partition_index_ s) = List.length (partitions (install_plan_ s)) ->
  untouched_dynamic_partitions (install_plan_ s) = [] ->
  hasher_finalize env (trace s) = true ->
  target_hash p <> hasher_raw_hash env (trace s) ->
  source_hash p <> [] ->
  source_path p = EmptyString ->
  source_size p = 0 ->
  let s' := run env [Tick; Tick; Tick] s in
  completions (trace s') = kSuccess :: completions (trace s) /\
  verifier_step_ s' = kVerifySourceHash /\
  pc s' = PcIdle.
Proof.
  intros Hpc Hcan Hstep Hcp Hlast Hunt Hfin Hne Hsrc Hpath Hsize s'.
  subst s'. unfold current_partition in Hcp.
  assert (Hneq : blob_eqb (target_hash p) (hasher_raw_hash env (trace s))
                 = false).
  { destruct (blob_eqb _ _) eqn:E; [|reflexivity].
    apply blob_eqb_eq in E. contradiction. }
  assert (Hnempty : blob_empty (source_hash p) = false).
  { destruct (blob_empty _) eqn:E; [|reflexivity].
    apply blob_empty_nil in E. contradiction. }
  set (s1 := call PcStartPartitionHashing
               (set_partition_fd_ None (set_buffer_ 0 (set_hasher_ false
                 (set_verifier_step_ kVerifySourceHash
                   (emit (EvHasherFinalize true) s)))))).
  assert (E1 : exec env s = s1).
  { unfold exec. rewrite Hpc.
    unfold FinishPartitionHashing, FinishPartitionHashing_next.
    rewrite Hfin. cbn [negb]. unfold current_partition. sim_goal.
    rewrite Hcp, Hstep, Hneq, Hnempty. reflexivity. }
  set (s2 := call PcStartPartitionHashing
               (set_partition_index_ (S (partition_index_ s))
                 (emit (EvHashingPartition (partition_index_ s)
                          kVerifySourceHash (source_path p))
                    (set_partition_size_ (source_size p) s1)))).
  assert (E2 : exec env s1 = s2).
  { unfold exec, StartPartitionHashing, current_partition. subst s2 s1.
    sim_goal. rewrite Hcp.
    replace (partition_index_ s =?
             List.length (partitions (install_plan_ s)))%nat with false
      by (symmetry; apply Nat.eqb_neq; lia).
    cbn [VerifierStep_eqb]. rewrite andb_false_r. cbn [andb].
    rewrite Hpath, Hsize. reflexivity. }
  assert (E3 : exec env s2 = Cleanup env kSuccess s2).
  { unfold exec, StartPartitionHashing. subst s2 s1. sim_goal.
    rewrite Hlast, Nat.eqb_refl, Hunt. reflexivity. }
  change (run env [Tick; Tick; Tick] s)
    with (exec env (exec env (exec env s))).
  rewrite E1, E2, E3. autorewrite with cleanup.
  subst s2 s1. sim_goal. rewrite Hcan. auto.
Qed.

Lemma sourceless_fallback_succeeds_witness :
  let env := env_all_ok digest_c in
  let s := run env (repeat Tick 6) (start env (Some plan_sourceless)) in
  let s' := run env [Tick; Tick; Tick] s in
  pc s = PcFinishPartitionHashing /\
  completions (trace s') = kSuccess :: completions (trace s) /\
  verifier_step_ s' = kVerifySourceHash /\
  pc s' = PcIdle.
Proof.
  cbv zeta. split; [vm_compute; reflexivity|].
  apply (sourceless_fallback_succeeds (env_all_ok digest_c) _
           system_sourceless).
  - vm_compute; reflexivity.
  - vm_compute; reflexivity.
  - vm_compute; reflexivity.
  - vm_compute; reflexivity.
  - vm_compute; reflexivity.
  - vm_compute; reflexivity.
  - vm_compute; reflexivity.
  - vm_compute; discriminate.
  - vm_compute; discriminate.
  - reflexivity.
  - reflexivity.
Defined.

(** *** The sweep of a partition *)

Lemma Cleanup_sweep_ok env plan code s :
  sweep_ok plan (trace (Cleanup env code s)) = sweep_ok plan (trace s).
Proof. unfold Cleanup, UpdateProgress; split_conds; reflexivity. Qed.

Lemma Cleanup_feed_ok env plan code s :
  feed_ok plan (trace (Cleanup env code s)) = feed_ok plan (trace s).
Proof. unfold Cleanup, UpdateProgress; split_conds; reflexivity. Qed.

Ltac sweep_events :=
  sim_goal;
  cbn [sweep_ok feed_ok sweep_event_ok feed_event_ok hashed unhashed fed
       finalized current_pass andb].

Lemma ShouldWriteVerity_frame s s' :
  install_plan_ s' = install_plan_ s ->
  partition_index_ s' = partition_index_ s ->
  verifier_step_ s' = verifier_step_ s ->
  ShouldWriteVerity s' = ShouldWriteVerity s.
Proof.
  intros H1 H2 H3. unfold ShouldWriteVerity, current_partition.
  rewrite H1, H2, H3. reflexivity.
Qed.

(** Brings every ShouldWriteVerity back to the state [s]. *)
Ltac sv_norm s :=
  repeat match goal with
  | |- context [ShouldWriteVerity ?t] =>
      lazymatch t with
      | s => fail
      | _ => rewrite (ShouldWriteVerity_frame s t) by reflexivity
      end
  | H : context [ShouldWriteVerity ?t] |- _ =>
      lazymatch t with
      | s => fail
      | _ => rewrite (ShouldWriteVerity_frame s t) in H by reflexivity
      end
  end.

Section Sweep.

Variable env : Env.

Variable plan : InstallPlan.

Hypothesis Hrange : InstallPlan_in_range plan.

Hypothesis Hreads : reads_bounded env.

Lemma InvSweep_Cleanup code s :
  sweep_ok plan (trace s) = true -> feed_ok plan (trace s) = true ->
  pending_task_ s = None ->
  InvSweep plan (Cleanup env code s).
Proof.
  intros H1 H2 Hp. unfold InvSweep.
  rewrite Cleanup_sweep_ok, Cleanup_feed_ok, Cleanup_pc.
  split; [assumption|]. split; [assumption|].
  intros b Hb. autorewrite with cleanup in Hb. congruence.
Qed.

Lemma InvSweep_start : InvSweep plan (start env (Some plan)).
Proof.
  unfold start, PerformAction, InvSweep; split_head; sweep_events;
    (split; [reflexivity|]); (split; [reflexivity|]);
    try exact I; intros; discriminate.
Qed.

Lemma InvSweep_StartPartitionHashing s :
  Inv plan s -> InvSweep plan s -> pc s = PcStartPartitionHashing ->
  InvSweep plan (StartPartitionHashing env s).
Proof.
  intros H (Hsw & Hfe & _) Hpc. inv_facts H.
  destruct Hrun as (Hc & Hp & Hd); [congruence|].
  unfold StartPartitionHashing, InitializeFdVABC, InitializeFd.
  split_head.
  all: try (apply InvSweep_Cleanup;
            [sweep_events; assumption|sweep_events; assumption
            |sim; assumption]).
  all: unfold InvSweep; sweep_events;
    (split; [assumption|]); (split; [assumption|]); try exact I.
  all: exists p; unfold pass_facts; sweep_events;
    unfold current_partition in *; rewrite ?Hplan in *;
    repeat split; try assumption; try reflexivity;
    rewrite ?Heqv; try reflexivity.
  all: repeat match goal with
       | H : _ && _ = true |- _ => apply andb_prop in H; destruct H
       end;
       match goal with
       | H : VerifierStep_eqb _ _ = true |- _ =>
           apply VerifierStep_eqb_eq in H;
           first [congruence | rewrite H; reflexivity]
       end.
Qed.

Lemma ShouldWriteVerity_pass s p :
  install_plan_ s = plan ->
  nth_error (partitions plan) (partition_index_ s) = Some p ->
  ShouldWriteVerity s = pass_writes_verity plan p (verifier_step_ s).
Proof.
  intros Hplan Hp. unfold ShouldWriteVerity, current_partition.
  rewrite Hplan, Hp. reflexivity.
Qed.

Lemma pass_partition_facts s p :
  pass_facts plan s p ->
  pass_partition plan (trace s) = Some (p, verifier_step_ s).
Proof.
  intros (Hp & Hcp & _). unfold pass_partition. rewrite Hcp, Hp. reflexivity.
Qed.

Lemma nth_in_range index p :
  nth_error (partitions plan) index = Some p -> Partition_in_range p.
Proof.
  intros Hp. apply nth_error_In in Hp.
  exact (proj1 (Forall_forall _ _) Hrange p Hp).
Qed.

(** Evaluates the checks of the new events with the facts at hand. *)
Ltac sweep_checks s :=
  sweep_events; sv_norm s;
  repeat match goal with
    | H : pass_partition _ (trace s) = _ |- _ => rewrite H
    | H : hashed (trace s) = _ |- _ => rewrite H
    | H : unhashed (trace s) = _ |- _ => rewrite H
    | H : fed (trace s) = _ |- _ => rewrite H
    | H : finalized (trace s) = _ |- _ => rewrite H
    | H : ShouldWriteVerity s = pass_writes_verity _ _ _ |- _ =>
        rewrite <- H
    | H : ShouldWriteVerity s = true |- _ => rewrite H
    | H : ShouldWriteVerity s = false |- _ => rewrite H
    | H : sweep_ok _ (trace s) = true |- _ => rewrite H
    | H : feed_ok _ (trace s) = true |- _ => rewrite H
    | H : (0 <? _) = true |- _ => rewrite H
    | H : select_data_end _ _ = _ |- _ => rewrite H
    end;
  cbn [is_none andb negb implb option_map];
  rewrite ?Z.eqb_refl; cbn [is_none andb negb implb option_map].

(** Rewrites the readers of the history of [s] in the goal. *)
Ltac sweep_rewrite s :=
  repeat match goal with
    | H : pass_partition _ (trace s) = _ |- _ => rewrite H
    | H : current_pass (trace s) = _ |- _ => rewrite H
    | H : hashed (trace s) = _ |- _ => rewrite H
    | H : unhashed (trace s) = _ |- _ => rewrite H
    | H : fed (trace s) = _ |- _ => rewrite H
    | H : finalized (trace s) = _ |- _ => rewrite H
    | H : ShouldWriteVerity s = true |- _ => rewrite H
    | H : ShouldWriteVerity s = false |- _ => rewrite H
    end.

Ltac sweep_facts s p :=
  exists p; unfold reading_facts, pass_facts; sweep_events; sv_norm s;
  sweep_rewrite s; cbn [option_map].

Lemma InvSweep_opened s success :
  Inv plan s -> InvSweep plan s ->
  pc s = PcStartPartitionHashing_opened success ->
  InvSweep plan (StartPartitionHashing_opened env success s).
Proof.
  intros H (Hsw & Hfe & Hst) Hpc. inv_facts H.
  destruct Hrun as (Hc & Hp & Hd); [congruence|].
  rewrite Hpc in Hst.
  destruct Hst as (p & (Hnth & Hcp & Hsize) & Hh & Hu & Hf & Hfin).
  pose proof (nth_in_range _ _ Hnth) as Hpr.
  pose proof (select_data_end_range p _ Hpr
                (step_size_range (verifier_step_ s) p Hpr)) as Hsel.
  assert (Hcur' : current_partition s = Some p).
  { unfold current_partition. rewrite Hplan. exact Hnth. }
  pose proof (pass_partition_facts s p (conj Hnth (conj Hcp Hsize))) as Hpp.
  pose proof (ShouldWriteVerity_pass s p Hplan Hnth) as Hsv.
  unfold StartPartitionHashing_opened. rewrite Hcur'.
  split_head.
  all: first
    [ apply InvSweep_Cleanup;
      [sweep_checks s; reflexivity|sweep_checks s; reflexivity
      |sim; assumption]
    | unfold InvSweep;
      (split; [sweep_checks s; reflexivity|]);
      (split; [sweep_checks s; reflexivity|]) ].
  all: sim_goal; try exact I.
  all: sweep_facts s p;
    unfold select_data_end in *;
    repeat match goal with
      | H : (_ =? 0) = _ |- _ => rewrite H in *
      end; cbn [negb] in *; rewrite <- ?Hsize in *;
    unfold u64 in *; repeat split; try assumption; try reflexivity; try lia.
Qed.

Lemma InvSweep_ScheduleFileSystemRead s :
  Inv plan s -> InvSweep plan s -> pc s = PcScheduleFileSystemRead ->
  InvSweep plan (ScheduleFileSystemRead env s).
Proof.
  intros H (Hsw & Hfe & Hst) Hpc. inv_facts H.
  destruct Hrun as (Hc & Hp & Hd); [congruence|].
  rewrite Hpc in Hst.
  destruct Hst as (p & ((Hnth & Hcp & Hsize) & Hde & Hh & Hoff & Hf & Hfin
                         & Hbuf) & Hu).
  pose proof (nth_in_range _ _ Hnth) as Hpr.
  pose proof (select_data_end_range p _ Hpr
                (step_size_range (verifier_step_ s) p Hpr)) as Hsel.
  rewrite <- Hsize, <- Hde in Hsel. unfold u64 in Hsel.
  pose proof (pass_partition_facts s p (conj Hnth (conj Hcp Hsize))) as Hpp.
  unfold ScheduleFileSystemRead, Seek, Read.
  rewrite wrap64_small by lia.
  split_head.
  all: first
    [ apply InvSweep_Cleanup;
      [sweep_checks s; reflexivity|sweep_checks s; reflexivity
      |sim; assumption]
    | unfold InvSweep;
      (split; [sweep_checks s; reflexivity|]);
      (split; [sweep_checks s; reflexivity|]) ].
  all: sim_goal; try exact I.
  - apply Z.eqb_eq in Heqb. rewrite Hbuf in Heqb.
    unfold kReadFileBufferSize in Heqb.
    sweep_facts s p. repeat split; try assumption; try reflexivity; lia.
  - intros b Hb _. injection Hb as <-.
    pose proof (Hreads (EvSeek (offset_ s) :: trace s) (offset_ s)
                  (Z.min (buffer_ s) (filesystem_data_end_ s - offset_ s))).
    apply Z.ltb_ge in Heqb0.
    sweep_facts s p. repeat split; try assumption; try reflexivity; lia.
Qed.

Lemma InvSweep_OnReadDone s bytes_read :
  Inv plan s -> InvSweep plan s -> pc s = PcIdle ->
  pending_task_ s = Some bytes_read ->
  InvSweep plan (OnReadDone env bytes_read (set_pending_task_ None s)).
Proof.
  intros H (Hsw & Hfe & Hst) Hpc Hpend. inv_facts H.
  rewrite Hpc in Hst. specialize (Hst _ Hpend).
  unfold OnReadDone, OnReadDone_advance, UpdateProgress.
  destruct (cancelled_ s) eqn:Hcan.
  { sim_goal. rewrite Hcan. apply InvSweep_Cleanup;
      [sweep_events; assumption|sweep_events; assumption|reflexivity]. }
  destruct (Hst eq_refl)
    as (p & ((Hnth & Hcp & Hsize) & Hde & Hh & Hoff & Hf & Hfin & Hbuf)
          & Hu & Hb0 & Hb1).
  pose proof (nth_in_range _ _ Hnth) as Hpr.
  pose proof (select_data_end_range p _ Hpr
                (step_size_range (verifier_step_ s) p Hpr)) as Hsel.
  rewrite <- Hsize, <- Hde in Hsel. unfold u64 in Hsel.
  pose proof (pass_partition_facts s p (conj Hnth (conj Hcp Hsize))) as Hpp.
  sim_goal. rewrite Hcan.
  destruct (bytes_read =? 0) eqn:Hz.
  { apply InvSweep_Cleanup;
      [sweep_events; assumption|sweep_events; assumption|reflexivity]. }
  assert (Hpos : (0 <? bytes_read) = true).
  { apply Z.ltb_lt. apply Z.eqb_neq in Hz. lia. }
  split_head.
  all: rewrite ?wrap64_small in * by lia.
  all: first
    [ apply InvSweep_Cleanup;
      [sweep_checks s; reflexivity|sweep_checks s; reflexivity
      |sim; reflexivity]
    | unfold InvSweep;
      (split; [sweep_checks s; reflexivity|]);
      (split; [sweep_checks s; reflexivity|]) ].
  all: sim_goal; try exact I.
  all: repeat match goal with
       | H : (_ =? _) = true |- _ => apply Z.eqb_eq in H
       | H : (_ =? _) = false |- _ => apply Z.eqb_neq in H
       end.
  all: sweep_facts s p;
    repeat split; try assumption; try reflexivity; try lia.
Qed.

Lemma wrap64_negative z : - two64 <= z < 0 -> wrap64 z = z + two64.
Proof.
  intros H. unfold wrap64.
  symmetry. apply (Z.mod_unique_pos z two64 (-1) (z + two64)); lia.
Qed.

Lemma tail_bytes p step size data_end :
  size = step_size step p -> data_end = select_data_end p size ->
  0 <= size < two64 -> 0 <= data_end < two64 ->
  data_end + wrap64 (size - data_end) = pass_bytes p step.
Proof.
  intros Hs Hd Hsr Hdr. unfold pass_bytes. cbv zeta.
  rewrite <- Hs, <- Hd.
  destruct (data_end <=? size) eqn:E.
  - apply Z.leb_le in E. rewrite wrap64_small by lia. lia.
  - apply Z.leb_gt in E. rewrite wrap64_negative by lia. lia.
Qed.

Lemma InvSweep_ReadVerityAndFooter s :
  Inv plan s -> InvSweep plan s -> pc s = PcReadVerityAndFooter ->
  InvSweep plan (ReadVerityAndFooter env s).
Proof.
  intros H (Hsw & Hfe & Hst) Hpc. inv_facts H.
  destruct Hrun as (Hc & Hp & Hd); [congruence|].
  rewrite Hpc in Hst.
  destruct Hst as (p & ((Hnth & Hcp & Hsize) & Hde & Hh & Hoff & Hf & Hfin
                         & Hbuf) & Hu & Hend).
  pose proof (nth_in_range _ _ Hnth) as Hpr.
  pose proof (step_size_range (verifier_step_ s) p Hpr) as Hsr.
  pose proof (select_data_end_range p _ Hpr Hsr) as Hsel.
  unfold u64 in Hsr, Hsel.
  pose proof (tail_bytes p (verifier_step_ s) (partition_size_ s)
                (filesystem_data_end_ s) Hsize Hde) as Htail.
  rewrite <- Hsize in Hsr, Hsel. rewrite <- Hde in Hsel.
  specialize (Htail Hsr Hsel).
  assert (Hoffsel :
    select_data_end p (step_size (verifier_step_ s) p) = offset_ s)
    by congruence.
  pose proof (pass_partition_facts s p (conj Hnth (conj Hcp Hsize))) as Hpp.
  unfold ReadVerityAndFooter, ReadVerityAndFooter_seek, Seek.
  split_head.
  all: first
    [ apply InvSweep_Cleanup;
      [sweep_checks s; reflexivity|sweep_checks s; reflexivity
      |sim; assumption]
    | unfold InvSweep;
      (split; [sweep_checks s; reflexivity|]);
      (split; [sweep_checks s; reflexivity|]) ].
  all: sim_goal; try exact I.
  all: exists p; unfold pass_facts; sweep_events; sv_norm s;
    sweep_rewrite s; rewrite <- ?Hend;
    repeat split; try assumption; try reflexivity; try lia;
    try discriminate; try apply wrap64_range;
    try (rewrite Hend; exact Htail).
Qed.

Lemma InvSweep_ReadVerityAndFooterLoop s bytes_to_read :
  Inv plan s -> InvSweep plan s ->
  pc s = PcReadVerityAndFooterLoop bytes_to_read ->
  InvSweep plan (ReadVerityAndFooterLoop env bytes_to_read s).
Proof.
  intros H (Hsw & Hfe & Hst) Hpc. inv_facts H.
  destruct Hrun as (Hc & Hp & Hd); [congruence|].
  rewrite Hpc in Hst.
  destruct Hst as (p & (Hnth & Hcp & Hsize) & Hu & Hfd & Hsum & Hbtr & Hfinv).
  pose proof (pass_partition_facts s p (conj Hnth (conj Hcp Hsize))) as Hpp.
  unfold ReadVerityAndFooterLoop, Read. rewrite Hfd.
  pose proof (Hreads (trace s) (hashed (trace s))
                (Z.min (buffer_ s) bytes_to_read)) as Hle.
  split_head.
  all: repeat match goal with
       | H : (?x <=? 0) = false |- _ =>
           apply Z.leb_gt in H;
           assert ((0 <? x) = true) by (apply Z.ltb_lt; exact H)
       end.
  all: first
    [ apply InvSweep_Cleanup;
      [sweep_checks s; reflexivity|sweep_checks s; reflexivity
      |sim; assumption]
    | unfold InvSweep;
      (split; [sweep_checks s; reflexivity|]);
      (split; [sweep_checks s; reflexivity|]) ].
  all: sim_goal; try exact I.
  all: repeat match goal with
       | H : (_ <? _) = true |- _ => apply Z.ltb_lt in H
       | H : (_ <? _) = false |- _ => apply Z.ltb_ge in H
       | H : (_ <=? _) = true |- _ => apply Z.leb_le in H
       end.
  all: exists p; unfold pass_facts; sweep_events; sv_norm s;
    rewrite ?wrap64_small by lia;
    repeat split; try assumption; try reflexivity; try lia;
    try (f_equal; lia).
Qed.

Lemma InvSweep_FinishPartitionHashing s :
  Inv plan s -> InvSweep plan s -> pc s = PcFinishPartitionHashing ->
  InvSweep plan (FinishPartitionHashing env s).
Proof.
  intros H (Hsw & Hfe & Hst) Hpc. inv_facts H.
  destruct Hrun as (Hc & Hp & Hd); [congruence|].
  rewrite Hpc in Hst.
  destruct Hst as (p & (Hnth & Hcp & Hsize) & Hu & Hsum & Hfinv).
  pose proof (pass_partition_facts s p (conj Hnth (conj Hcp Hsize))) as Hpp.
  pose proof (ShouldWriteVerity_pass s p Hplan Hnth) as Hsv.
  assert (Himp : implb (pass_writes_verity plan p (verifier_step_ s))
                   (finalized (trace s)) = true).
  { rewrite <- Hsv. destruct (ShouldWriteVerity s); [|reflexivity].
    rewrite Hfinv; reflexivity. }
  clear Hsv.
  unfold FinishPartitionHashing, FinishPartitionHashing_next.
  split_head.
  all: first
    [ apply InvSweep_Cleanup;
      [sweep_checks s; rewrite ?Himp; reflexivity
      |sweep_checks s; rewrite ?Himp; reflexivity
      |sim; assumption]
    | unfold InvSweep;
      (split; [sweep_checks s; rewrite ?Himp; reflexivity|]);
      (split; [sweep_checks s; rewrite ?Himp; reflexivity|]) ].
  all: sim_goal; try exact I.
Qed.

Lemma InvSweep_TerminateProcessing s :
  InvSweep plan s -> InvSweep plan (TerminateProcessing env s).
Proof.
  intros (Hsw & Hfe & _). unfold TerminateProcessing, InvSweep.
  rewrite Cleanup_sweep_ok, Cleanup_feed_ok, Cleanup_pc.
  split; [|split].
  - split_conds; sweep_events; assumption.
  - split_conds; sweep_events; assumption.
  - intros b _ Hcan. autorewrite with cleanup in Hcan.
    revert Hcan. split_conds; discriminate.
Qed.

Lemma InvSweep_next i s :
  Inv plan s -> InvSweep plan s -> InvSweep plan (next env i s).
Proof.
  intros HI HO. destruct i; simpl.
  - unfold exec. destruct (pc s) eqn:Hpc.
    + apply InvSweep_StartPartitionHashing; assumption.
    + apply InvSweep_opened; assumption.
    + apply InvSweep_ScheduleFileSystemRead; assumption.
    + apply InvSweep_ReadVerityAndFooter; assumption.
    + apply InvSweep_ReadVerityAndFooterLoop; assumption.
    + apply InvSweep_FinishPartitionHashing; assumption.
    + destruct (pending_task_ s) eqn:Hpend; [|assumption].
      apply InvSweep_OnReadDone; assumption.
    + assumption.
  - destruct (pc s); auto using InvSweep_TerminateProcessing.
Qed.

Lemma InvSweep_run inputs :
  InvSweep plan (run env inputs (start env (Some plan))).
Proof.
  apply (run_invariant env (fun s => Inv plan s /\ InvSweep plan s)).
  - intros i s [HI HO]; split;
      [apply Inv_next | apply InvSweep_next]; assumption.
  - split; [apply Inv_start; reflexivity | apply InvSweep_start].
Qed.

End Sweep.

Lemma sweep_ok_suffix plan later e earlier :
  sweep_ok plan (later ++ e :: earlier) = true ->
  sweep_event_ok plan e earlier = true.
Proof.
  induction later as [|x later IH]; simpl; intros H;
    apply andb_prop in H; destruct H as [H1 H2]; auto.
Qed.

Lemma feed_ok_suffix plan later e earlier :
  feed_ok plan (later ++ e :: earlier) = true ->
  feed_event_ok plan e earlier = true.
Proof.
  induction later as [|x later IH]; simpl; intros H;
    apply andb_prop in H; destruct H as [H1 H2]; auto.
Qed.

Lemma is_none_true {A} (o : option A) : is_none o = true -> o = None.
Proof. destruct o; simpl; congruence. Qed.

(** X8. In every run over a plan whose sizes and offsets fit uint64_t, with
    a descriptor that never returns more than it was asked for, each pass
    sweeps its partition once and in order: every read starts at the offset
    where the bytes hashed so far end, the hasher is given exactly what the
    newest read returned, which is at least one byte, and
    HashCalculator::Finalize is called when the bytes hashed in the pass are
    partition_size many (when filesystem_data_end lies inside the
    partition; 2^64 more when it does not). *)
Theorem digest_covers_partition env plan inputs :
  InstallPlan_in_range plan ->
  reads_bounded env ->
  let s := run env inputs (start env (Some plan)) in
  sweep_ok plan (trace s) = true /\
  (forall later offset count result earlier,
   trace s = later ++ EvRead offset count result :: earlier ->
   offset = hashed earlier /\ unhashed earlier = None) /\
  (forall later count ok earlier,
   trace s = later ++ EvHasherUpdate count ok :: earlier ->
   unhashed earlier = Some count /\ 0 < count) /\
  (forall later ok earlier,
   trace s = later ++ EvHasherFinalize ok :: earlier ->
   exists p step,
     pass_partition plan earlier = Some (p, step) /\
     unhashed earlier = None /\
     hashed earlier = pass_bytes p step /\
     (select_data_end p (step_size step p) <= step_size step p ->
      hashed earlier = step_size step p)).
Proof.
  intros Hrange Hreads s. subst s.
  destruct (InvSweep_run env plan Hrange Hreads inputs) as (Hsw & _ & _).
  split; [exact Hsw|]. split; [|split].
  - intros later offset count result earlier Htrace.
    rewrite Htrace in Hsw. apply sweep_ok_suffix in Hsw.
    cbn [sweep_event_ok] in Hsw. apply andb_prop in Hsw.
    destruct Hsw as [H1 H2]. apply Z.eqb_eq in H1.
    apply is_none_true in H2. auto.
  - intros later count ok earlier Htrace.
    rewrite Htrace in Hsw. apply sweep_ok_suffix in Hsw.
    cbn [sweep_event_ok] in Hsw.
    destruct (unhashed earlier) as [result|]; [|discriminate].
    apply andb_prop in Hsw. destruct Hsw as [H1 H2].
    apply Z.eqb_eq in H1. apply Z.ltb_lt in H2. subst. auto.
  - intros later ok earlier Htrace.
    rewrite Htrace in Hsw. apply sweep_ok_suffix in Hsw.
    cbn [sweep_event_ok] in Hsw.
    destruct (pass_partition plan earlier) as [[p step]|]; [|discriminate].
    apply andb_prop in Hsw. destruct Hsw as [H1 H2].
    apply Z.eqb_eq in H2. apply is_none_true in H1.
    exists p, step. repeat split; try assumption.
    intros Hle. rewrite H2. unfold pass_bytes. cbv zeta.
    replace (select_data_end p (step_size step p) <=? step_size step p)
      with true by (symmetry; apply Z.leb_le; exact Hle).
    reflexivity.
Qed.

Lemma digest_covers_partition_witness :
  let env := env_all_ok digest_b in
  let s := run env (repeat Tick 12) (start env (Some plan_verity_write)) in
  completions (trace s) = [kSuccess] /\
  In (EvHasherFinalize true) (trace s) /\
  sweep_ok plan_verity_write (trace s) = true.
Proof.
  cbv zeta. split; [vm_compute; reflexivity|].
  split; [vm_compute; repeat first [left; reflexivity | right]|].
  assert (Hrange : InstallPlan_in_range plan_verity_write).
  { repeat constructor; apply in_range_scenario; reflexivity. }
  assert (Hreads : reads_bounded (env_all_ok digest_b)).
  { intros h pos count. apply Z.le_refl. }
  exact (proj1 (digest_covers_partition (env_all_ok digest_b)
                  plan_verity_write (repeat Tick 12) Hrange Hreads)).
Defined.

(** X9. In every run over a plan whose sizes and offsets fit uint64_t, with
    a descriptor that never returns more than it was asked for, the verity
    writer is used in order: Init is called before anything of the pass is
    hashed, and only on a pass for which ShouldWriteVerity holds; every
    Update hands over the chunk that was just hashed, at the offset where
    the previous chunk ended; Finalize is called once the writer has been
    given all of [0, filesystem_data_end), and the digest of such a pass is
    taken only after Finalize has returned true. *)
Theorem verity_writer_fed_in_order env plan inputs :
  InstallPlan_in_range plan ->
  reads_bounded env ->
  let s := run env inputs (start env (Some plan)) in
  feed_ok plan (trace s) = true /\
  (forall later index ok earlier,
   trace s = later ++ EvVerityInit index ok :: earlier ->
   hashed earlier = 0 /\ fed earlier = None /\
   exists p step,
     pass_partition plan earlier = Some (p, step) /\
     pass_writes_verity plan p step = true) /\
  (forall later offset count ok earlier,
   trace s = later ++ EvVerityUpdate offset count ok :: earlier ->
   fed earlier = Some offset /\ offset + count = hashed earlier /\
   finalized earlier = false) /\
  (forall later ok earlier,
   trace s = later ++ EvVerityFinalize ok :: earlier ->
   exists p step,
     pass_partition plan earlier = Some (p, step) /\
     fed earlier = Some (select_data_end p (step_size step p)) /\
     hashed earlier = select_data_end p (step_size step p) /\
     finalized earlier = false) /\
  (forall later ok earlier p step,
   trace s = later ++ EvHasherFinalize ok :: earlier ->
   pass_partition plan earlier = Some (p, step) ->
   pass_writes_verity plan p step = true ->
   finalized earlier = true).
Proof.
  intros Hrange Hreads s. subst s.
  destruct (InvSweep_run env plan Hrange Hreads inputs) as (_ & Hfe & _).
  split; [exact Hfe|]. split; [|split; [|split]].
  - intros later index ok earlier Htrace.
    rewrite Htrace in Hfe. apply feed_ok_suffix in Hfe.
    cbn [feed_event_ok] in Hfe.
    destruct (pass_partition plan earlier) as [[p step]|]; [|discriminate].
    repeat match goal with
      | H : _ && _ = true |- _ => apply andb_prop in H; destruct H
      end.
    repeat match goal with
      | H : is_none _ = true |- _ => apply is_none_true in H
      | H : (_ =? _) = true |- _ => apply Z.eqb_eq in H
      end.
    repeat split; try assumption. exists p, step. auto.
  - intros later offset count ok earlier Htrace.
    rewrite Htrace in Hfe. apply feed_ok_suffix in Hfe.
    cbn [feed_event_ok] in Hfe.
    destruct (fed earlier) as [n|]; [|discriminate].
    repeat match goal with
      | H : _ && _ = true |- _ => apply andb_prop in H; destruct H
      end.
    repeat match goal with
      | H : (_ =? _) = true |- _ => apply Z.eqb_eq in H
      | H : negb _ = true |- _ => apply negb_true_iff in H
      end.
    subst. auto.
  - intros later ok earlier Htrace.
    rewrite Htrace in Hfe. apply feed_ok_suffix in Hfe.
    cbn [feed_event_ok] in Hfe.
    destruct (pass_partition plan earlier) as [[p step]|]; [|discriminate].
    destruct (fed earlier) as [n|]; [|discriminate].
    repeat match goal with
      | H : _ && _ = true |- _ => apply andb_prop in H; destruct H
      end.
    repeat match goal with
      | H : (_ =? _) = true |- _ => apply Z.eqb_eq in H
      | H : negb _ = true |- _ => apply negb_true_iff in H
      end.
    exists p, step. subst. repeat split; try assumption; congruence.
  - intros later ok earlier p step Htrace Hpp Hv.
    rewrite Htrace in Hfe. apply feed_ok_suffix in Hfe.
    cbn [feed_event_ok] in Hfe. rewrite Hpp, Hv in Hfe. exact Hfe.
Qed.

Lemma verity_writer_fed_in_order_witness :
  let env := env_all_ok digest_b in
  let s := run env (repeat Tick 12) (start env (Some plan_verity_write)) in
  completions (trace s) = [kSuccess] /\
  In (EvVerityUpdate 0 8192 true) (trace s) /\
  In (EvVerityFinalize true) (trace s) /\
  feed_ok plan_verity_write (trace s) = true.
Proof.
  cbv zeta. split; [vm_compute; reflexivity|].
  split; [vm_compute; repeat first [left; reflexivity | right]|].
  split; [vm_compute; repeat first [left; reflexivity | right]|].
  assert (Hrange : InstallPlan_in_range plan_verity_write).
  { repeat constructor; apply in_range_scenario; reflexivity. }
  assert (Hreads : reads_bounded (env_all_ok digest_b)).
  { intros h pos count. apply Z.le_refl. }
  exact (proj1 (verity_writer_fed_in_order (env_all_ok digest_b)
                  plan_verity_write (repeat Tick 12) Hrange Hreads)).
Defined.

(** *** Devices and snapshots *)

Lemma Cleanup_opens_ok env plan code s :
  opens_ok plan (trace (Cleanup env code s)) <-> opens_ok plan (trace s).
Proof.
  unfold Cleanup, UpdateProgress; split_conds; simpl; tauto.
Qed.

Lemma Cleanup_map_events env code s :
  map_events (trace (Cleanup env code s)) =
  if negb (write_verity (install_plan_ s)) && uses_snapshot_compression env
  then false :: map_events (trace s) else map_events (trace s).
Proof. unfold Cleanup, UpdateProgress; split_conds; reflexivity. Qed.

Section Devices.

Variable env : Env.

Variable plan : InstallPlan.

Ltac dev_facts H :=
  let Hop := fresh "Hop" in
  let Hno := fresh "Hno" in
  let Hun := fresh "Hun" in
  let Hle := fresh "Hle" in
  destruct H as [Hop Hno Hun Hle].

Ltac dev_close :=
  constructor; unfold mapped in *;
  rewrite ?Cleanup_opens_ok, ?Cleanup_map_events;
  autorewrite with cleanup; sim;
  cbn [map_events opens_ok open_event_ok hd] in *;
  repeat match goal with
    | H : install_plan_ _ = _ |- _ => rewrite H in *
    | H : completions (trace _) = _ |- _ => rewrite H in *
    | H : cancelled_ _ = _ |- _ => rewrite H in *
    | H : pc _ = _ |- _ => rewrite H in *
    | H : ShouldWriteVerity _ = _ |- _ => rewrite H in *
    end; intros; sim; cbn [hd negb andb] in *;
  repeat match goal with
    | H : uses_snapshot_compression _ = _ |- _ => rewrite H in *
    | H : write_verity _ = _ |- _ => rewrite H in *
    end;
  rewrite ?andb_false_r, ?andb_true_r in *;
  cbn [hd negb andb map_events] in *;
  repeat match goal with
    | |- context [if ?c then _ else _] => destruct c eqn:?
    end;
  cbn [hd negb andb map_events] in *;
  repeat match goal with
    | H : _ /\ _ |- _ => destruct H
    | H : _ \/ _ |- _ => destruct H
    | H : False |- _ => destruct H
    | H : ?x = ?x -> _ |- _ => specialize (H eq_refl)
    | H : ?x <> ?x |- _ => destruct (H eq_refl)
    end;
  repeat match goal with
    | H : map_events (trace _) = _ |- _ => rewrite H in *
    end; cbn [hd] in *;
  try congruence; try (exfalso; congruence); try discriminate;
  try solve [auto];
  try solve [repeat split; auto; try (eexists; reflexivity);
             try discriminate].

Lemma ShouldWriteVerity_true s p :
  ShouldWriteVerity s = true -> current_partition s = Some p ->
  verifier_step_ s = kVerifyTargetHash /\
  write_verity (install_plan_ s) = true /\
  (0 < hash_tree_size p \/ 0 < fec_size p).
Proof.
  unfold ShouldWriteVerity. intros H Hcp. rewrite Hcp in H.
  apply andb_prop in H. destruct H as [H H3].
  apply andb_prop in H. destruct H as [H1 H2].
  apply VerifierStep_eqb_eq in H1. apply orb_prop in H3.
  repeat split; try assumption.
  destruct H3 as [H3|H3]; apply Z.ltb_lt in H3; auto.
Qed.

Ltac dev_open :=
  split; [split; [eexists; reflexivity|] | repeat split; assumption];
  let Hsv := fresh "Hsv" in
  intros Hsv;
  match goal with
  | Hcp : current_partition ?s = Some ?p, Hplan : install_plan_ ?s = _ |- _ =>
      let Hst := fresh "Hst" in
      let Hwv := fresh "Hwv" in
      let Hsz := fresh "Hsz" in
      destruct (ShouldWriteVerity_true s p Hsv Hcp) as (Hst & Hwv & Hsz);
      try congruence;
      rewrite Hplan in Hwv; (split; [exact Hwv|]);
      exists p; unfold current_partition in Hcp; rewrite Hplan in Hcp;
      apply nth_error_In in Hcp; repeat split; try assumption; reflexivity
  end.

Lemma InvDev_start : InvDev env plan (start env (Some plan)).
Proof.
  unfold start, PerformAction; split_head; dev_close;
    simpl in *; try congruence; try tauto.
Qed.

Lemma InvDev_exec s :
  Inv plan s -> InvDev env plan s -> InvDev env plan (exec env s).
Proof.
  intros H HD. inv_facts H. dev_facts HD.
  unfold_action.
  destruct (pc s) eqn:Hpc; try (constructor; assumption);
    try (destruct Hrun as (Hc & Hp & Hd); [congruence|]);
    unfold in_pass in Hcur; rewrite Hpc in Hcur.
  - split_head; sv_norm s; dev_close; dev_open.
  - split_head; dev_close.
  - split_head; dev_close.
  - split_head; dev_close.
  - split_head; dev_close.
  - split_head; dev_close.
  - destruct (pending_task_ s) as [b|] eqn:Hpend; [|constructor; assumption].
    assert (Hd : completions (trace s) = []).
    { destruct (completions (trace s)); [reflexivity|].
      discriminate Hcomp; discriminate. }
    split_head; dev_close.
Qed.

Lemma InvDev_TerminateProcessing s :
  InvDev env plan s -> install_plan_ s = plan ->
  InvDev env plan (TerminateProcessing env s).
Proof.
  intros HD Hplan. dev_facts HD.
  unfold TerminateProcessing; split_head; dev_close.
Qed.

Lemma InvDev_next i s :
  Inv plan s -> InvDev env plan s -> InvDev env plan (next env i s).
Proof.
  intros H HD; destruct i; simpl.
  - apply InvDev_exec; assumption.
  - destruct (pc s) eqn:Hpc; auto.
    apply InvDev_TerminateProcessing; [assumption|apply (inv_plan _ _ H)].
Qed.

Lemma InvDev_run inputs :
  InvDev env plan (run env inputs (start env (Some plan))).
Proof.
  apply (run_invariant env (fun s => Inv plan s /\ InvDev env plan s)).
  - intros i s [H HD]; split;
      [apply Inv_next | apply InvDev_next]; assumption.
  - split; [apply Inv_start; reflexivity | apply InvDev_start].
Qed.

End Devices.

Lemma opens_ok_suffix plan later e earlier :
  opens_ok plan (later ++ e :: earlier) -> open_event_ok plan e earlier.
Proof.
  induction later as [|x later IH]; simpl; intros [H1 H2]; auto.
Qed.

(** X10. In every run each descriptor is opened right after
    SetBlockDeviceReadOnly has set the same device read-only for a read-only
    open and writable for a writable one, and a device is opened for writing
    only when the plan has write_verity and the path is the target path of a
    partition with a hash tree or FEC data to write. *)
Theorem opens_match_verity env plan inputs :
  let s := run env inputs (start env (Some plan)) in
  opens_ok plan (trace s) /\
  forall later path writable ok earlier,
    trace s = later ++ EvOpen path writable ok :: earlier ->
    (exists h',
       earlier = EvSetBlockDeviceReadOnly path (negb writable) :: h') /\
    (writable = true ->
     write_verity plan = true /\
     exists p,
       In p (partitions plan) /\ path = target_path p /\
       (0 < hash_tree_size p \/ 0 < fec_size p)).
Proof.
  intros s. subst s.
  pose proof (dev_opens _ _ _ (InvDev_run env plan inputs)) as Hop.
  split; [exact Hop|].
  intros later path writable ok earlier Htrace.
  rewrite Htrace in Hop. apply opens_ok_suffix in Hop. exact Hop.
Qed.

(** X11. Without snapshot compression the action never maps or unmaps the
    partitions.  On a plan without write_verity the partitions are not left
    mapped once the action has completed or was cancelled.  On a plan with
    write_verity Cleanup does not unmap them: once the action has mapped the
    partitions they are mapped whenever it is back in the message loop. *)
Theorem snapshot_mapping env plan inputs :
  let s := run env inputs (start env (Some plan)) in
  (uses_snapshot_compression env = false -> map_events (trace s) = []) /\
  (write_verity plan = false ->
   completions (trace s) <> [] \/ cancelled_ s = true ->
   mapped (trace s) = false) /\
  (write_verity plan = true -> map_events (trace s) <> [] ->
   mapped (trace s) = true).
Proof.
  intros s. subst s.
  destruct (InvDev_run env plan inputs) as [_ H1 H2 H3]. auto.
Qed.

(** *** Turns of the loop *)

Lemma pass_cost_pos p step : Partition_in_range p -> 6 <= pass_cost p step.
Proof.
  intros Hp. unfold pass_cost. cbv zeta.
  pose proof (select_data_end_range p _ Hp (step_size_range step p Hp)) as H.
  pose proof (wrap64_range
    (step_size step p - select_data_end p (step_size step p))).
  unfold u64 in H. lia.
Qed.

Lemma partition_cost_pos p : Partition_in_range p -> 13 <= partition_cost p.
Proof.
  intros Hp. unfold partition_cost.
  pose proof (pass_cost_pos p kVerifyTargetHash Hp).
  pose proof (pass_cost_pos p kVerifySourceHash Hp). lia.
Qed.

Lemma rest_cost_pos l : Forall Partition_in_range l -> 1 <= rest_cost l.
Proof.
  induction 1 as [|p l Hp Hl IH]; simpl; [lia|].
  pose proof (partition_cost_pos p Hp). lia.
Qed.

Lemma rest_cost_skipn l i p :
  nth_error l i = Some p ->
  rest_cost (skipn i l) = partition_cost p + rest_cost (skipn (S i) l).
Proof.
  revert i. induction l as [|q l IH]; intros [|i] H; simpl in *;
    try discriminate.
  - injection H as ->. reflexivity.
  - apply IH. exact H.
Qed.

Lemma rest_cost_skipn_None l i :
  nth_error l i = None -> rest_cost (skipn i l) = 1.
Proof.
  revert i. induction l as [|q l IH]; intros [|i] H; simpl in *;
    try discriminate; auto.
Qed.

Lemma Forall_skipn {A} (P : A -> Prop) l n :
  Forall P l -> Forall P (skipn n l).
Proof.
  revert l. induction n as [|n IH]; intros l H; simpl; [assumption|].
  destruct H; [constructor|]. apply IH. assumption.
Qed.

Lemma turns_left_Cleanup env code s :
  pending_task_ s = None -> turns_left (Cleanup env code s) = 0.
Proof.
  intros H. unfold turns_left.
  rewrite Cleanup_pc, Cleanup_pending_task, H. reflexivity.
Qed.

(** Splits a goal [turns_left state < bound] on the conditions of the
    state. *)
Ltac tl_split :=
  match goal with
  | |- turns_left ?st < ?m =>
      let P := fresh "P" in
      set (P := fun x => turns_left x < m); change (P st);
      split_head; subst P; cbv beta
  end.

Lemma tail_cost_frame s s' p :
  install_plan_ s' = install_plan_ s ->
  partition_index_ s' = partition_index_ s ->
  verifier_step_ s' = verifier_step_ s ->
  tail_cost s' p = tail_cost s p.
Proof.
  intros H1 H2 H3. unfold tail_cost, later_cost. rewrite H1, H2, H3.
  reflexivity.
Qed.

(** Brings every [tail_cost] that it can back to the state [s]. *)
Ltac tl_frame s :=
  repeat match goal with
  | |- context [tail_cost ?t ?p] =>
      lazymatch t with
      | s => fail
      | _ => rewrite (tail_cost_frame s t p) by reflexivity
      end
  end.

Ltac tl_new :=
  first
    [ rewrite turns_left_Cleanup by (sim; first [assumption | reflexivity])
    | unfold turns_left, pass_left, current_partition; sim_goal ].

(** Brings the bound and the new count to the same terms. *)
Ltac tl_arith s :=
  unfold current_partition in *; sim;
  repeat match goal with
    | H : verifier_step_ _ = _ |- _ => rewrite H in *
    | H : nth_error (partitions (install_plan_ _)) (partition_index_ _) =
          Some _ |- _ => rewrite H in *
    | H : cancelled_ _ = _ |- _ => rewrite H in *
    end;
  tl_frame s;
  try lia;
  try solve [unfold tail_cost, later_cost in *; sim;
             repeat match goal with
               | H : verifier_step_ _ = _ |- _ => rewrite H in *
               end;
             first [lia | destruct (verifier_step_ _); lia]].

Section Turns.

Variable env : Env.

Variable plan : InstallPlan.

Hypothesis Hrange : InstallPlan_in_range plan.

Hypothesis Hreads : reads_bounded env.

Lemma later_cost_pos s : install_plan_ s = plan -> 1 <= later_cost s.
Proof.
  intros Hplan. unfold later_cost. rewrite Hplan.
  apply rest_cost_pos. apply Forall_skipn. exact Hrange.
Qed.

Lemma tail_cost_pos s p :
  install_plan_ s = plan -> Partition_in_range p -> 1 <= tail_cost s p.
Proof.
  intros Hplan Hp. unfold tail_cost.
  pose proof (later_cost_pos s Hplan).
  pose proof (pass_cost_pos p kVerifySourceHash Hp).
  destruct (verifier_step_ s); lia.
Qed.

Lemma current_in_range s p :
  install_plan_ s = plan -> current_partition s = Some p ->
  Partition_in_range p.
Proof.
  intros Hplan Hcp. unfold current_partition in Hcp. rewrite Hplan in Hcp.
  eapply nth_in_range; eassumption.
Qed.

Lemma turns_StartPartitionHashing s :
  Inv plan s -> pc s = PcStartPartitionHashing ->
  turns_left (StartPartitionHashing env s) < turns_left s.
Proof.
  intros H Hpc. inv_facts H.
  destruct Hrun as (Hc & Hp & Hd); [congruence|].
  pose proof (later_cost_pos s Hplan) as Hlater.
  unfold turns_left at 2. rewrite Hpc.
  unfold StartPartitionHashing, InitializeFdVABC, InitializeFd.
  destruct (current_partition s) as [p|] eqn:Hcp.
  2:{ tl_split; tl_new; rewrite ?Hcp; lia. }
  pose proof (current_in_range s p Hplan Hcp) as Hpr.
  pose proof (pass_cost_pos p kVerifyTargetHash Hpr) as HT.
  pose proof (pass_cost_pos p kVerifySourceHash Hpr) as HS.
  pose proof (tail_cost_pos s p Hplan Hpr) as Htail.
  tl_split.
  all: tl_new; tl_arith s.
  all: unfold tail_cost, later_cost in *; sim;
    repeat match goal with
      | H : verifier_step_ _ = _ |- _ => rewrite H in *
      end.
  all: destruct (nth_error (partitions (install_plan_ s))
                   (S (partition_index_ s))) as [q|] eqn:Hq;
    [ rewrite (rest_cost_skipn _ _ _ Hq) in *; unfold partition_cost in *;
      rewrite Hplan in Hq; pose proof (nth_in_range plan Hrange _ _ Hq) as Hqr;
      pose proof (pass_cost_pos q kVerifyTargetHash Hqr);
      pose proof (pass_cost_pos q kVerifySourceHash Hqr);
      assert (1 <= rest_cost (skipn (S (S (partition_index_ s)))
                                (partitions (install_plan_ s))))
        by (rewrite Hplan; apply rest_cost_pos, Forall_skipn, Hrange);
      lia
    | rewrite (rest_cost_skipn_None _ _ Hq) in *; lia ].
Qed.

Lemma turns_opened s success :
  Inv plan s -> InvSweep plan s ->
  pc s = PcStartPartitionHashing_opened success ->
  turns_left (StartPartitionHashing_opened env success s) < turns_left s.
Proof.
  intros H (_ & _ & Hst) Hpc. inv_facts H.
  destruct Hrun as (Hc & Hp & Hd); [congruence|].
  rewrite Hpc in Hst.
  destruct Hst as (p & (Hnth & _ & Hsize) & _).
  assert (Hcp : current_partition s = Some p).
  { unfold current_partition. rewrite Hplan. exact Hnth. }
  pose proof (current_in_range s p Hplan Hcp) as Hpr.
  pose proof (tail_cost_pos s p Hplan Hpr) as Htail.
  pose proof (pass_cost_pos p (verifier_step_ s) Hpr) as Hcost.
  unfold turns_left at 2. rewrite Hpc, Hcp.
  unfold StartPartitionHashing_opened. rewrite Hcp.
  tl_split.
  all: tl_new; tl_arith s.
  all: unfold pass_cost, select_data_end; cbv zeta; rewrite <- Hsize;
    repeat match goal with
      | H : (_ =? 0) = _ |- _ => rewrite H
      end; cbn [negb]; lia.
Qed.

Lemma turns_ScheduleFileSystemRead s :
  Inv plan s -> InvSweep plan s -> pc s = PcScheduleFileSystemRead ->
  turns_left (ScheduleFileSystemRead env s) < turns_left s.
Proof.
  intros H (_ & _ & Hst) Hpc. inv_facts H.
  destruct Hrun as (Hc & Hp & Hd); [congruence|].
  rewrite Hpc in Hst.
  destruct Hst as (p & ((Hnth & _ & Hsize) & Hde & _ & Hoff & _) & _).
  assert (Hcp : current_partition s = Some p).
  { unfold current_partition. rewrite Hplan. exact Hnth. }
  pose proof (current_in_range s p Hplan Hcp) as Hpr.
  pose proof (tail_cost_pos s p Hplan Hpr) as Htail.
  pose proof (wrap64_range (partition_size_ s - filesystem_data_end_ s))
    as Hw.
  unfold turns_left at 2, pass_left. rewrite Hpc, Hcp. cbv zeta.
  unfold ScheduleFileSystemRead, Seek, Read.
  tl_split.
  all: tl_new; tl_arith s.
Qed.

Lemma turns_OnReadDone s bytes_read :
  Inv plan s -> InvSweep plan s -> pc s = PcIdle ->
  pending_task_ s = Some bytes_read ->
  turns_left (OnReadDone env bytes_read (set_pending_task_ None s))
  < turns_left s.
Proof.
  intros H (_ & _ & Hst) Hpc Hpend. inv_facts H.
  rewrite Hpc in Hst. specialize (Hst _ Hpend).
  unfold turns_left at 2. rewrite Hpc, Hpend.
  unfold OnReadDone, OnReadDone_advance, UpdateProgress.
  destruct (cancelled_ s) eqn:Hcan.
  { sim_goal. rewrite Hcan. tl_new. lia. }
  destruct (Hst eq_refl)
    as (p & ((Hnth & _ & Hsize) & Hde & _ & Hoff & _) & _ & Hb0 & Hb1).
  assert (Hcp : current_partition s = Some p).
  { unfold current_partition. rewrite Hplan. exact Hnth. }
  pose proof (current_in_range s p Hplan Hcp) as Hpr.
  pose proof (tail_cost_pos s p Hplan Hpr) as Htail.
  pose proof (wrap64_range (partition_size_ s - filesystem_data_end_ s))
    as Hw.
  pose proof (select_data_end_range p _ Hpr
                (step_size_range (verifier_step_ s) p Hpr)) as Hsel.
  rewrite <- Hsize, <- Hde in Hsel. unfold u64 in Hsel.
  rewrite Hcp. unfold pass_left. rewrite Hpc. cbv zeta.
  sim_goal. rewrite Hcan.
  destruct (bytes_read =? 0) eqn:Hz.
  { tl_new. lia. }
  apply Z.eqb_neq in Hz.
  tl_split.
  all: tl_new; rewrite ?wrap64_small by lia; tl_arith s.
Qed.

Lemma turns_ReadVerityAndFooter s :
  Inv plan s -> InvSweep plan s -> pc s = PcReadVerityAndFooter ->
  turns_left (ReadVerityAndFooter env s) < turns_left s.
Proof.
  intros H (_ & _ & Hst) Hpc. inv_facts H.
  destruct Hrun as (Hc & Hp & Hd); [congruence|].
  rewrite Hpc in Hst.
  destruct Hst as (p & ((Hnth & _ & Hsize) & Hde & _ & Hoff & _) & _).
  assert (Hcp : current_partition s = Some p).
  { unfold current_partition. rewrite Hplan. exact Hnth. }
  pose proof (current_in_range s p Hplan Hcp) as Hpr.
  pose proof (tail_cost_pos s p Hplan Hpr) as Htail.
  pose proof (wrap64_range (partition_size_ s - filesystem_data_end_ s))
    as Hw.
  unfold turns_left at 2, pass_left. rewrite Hpc, Hcp. cbv zeta.
  unfold ReadVerityAndFooter, ReadVerityAndFooter_seek, Seek.
  tl_split.
  all: tl_new; tl_arith s.
Qed.

Lemma turns_ReadVerityAndFooterLoop s bytes_to_read :
  Inv plan s -> InvSweep plan s ->
  pc s = PcReadVerityAndFooterLoop bytes_to_read ->
  turns_left (ReadVerityAndFooterLoop env bytes_to_read s) < turns_left s.
Proof.
  intros H (_ & _ & Hst) Hpc. inv_facts H.
  destruct Hrun as (Hc & Hp & Hd); [congruence|].
  rewrite Hpc in Hst.
  destruct Hst as (p & (Hnth & _ & Hsize) & _ & Hfd & _ & Hbtr & _).
  assert (Hcp : current_partition s = Some p).
  { unfold current_partition. rewrite Hplan. exact Hnth. }
  pose proof (current_in_range s p Hplan Hcp) as Hpr.
  pose proof (tail_cost_pos s p Hplan Hpr) as Htail.
  unfold turns_left at 2, pass_left. rewrite Hpc, Hcp.
  unfold ReadVerityAndFooterLoop, Read. rewrite Hfd.
  pose proof (Hreads (trace s) (hashed (trace s))
                (Z.min (buffer_ s) bytes_to_read)) as Hle.
  tl_split.
  all: repeat match goal with
       | H : (_ <? _) = true |- _ => apply Z.ltb_lt in H
       | H : (_ <? _) = false |- _ => apply Z.ltb_ge in H
       | H : (_ <=? _) = true |- _ => apply Z.leb_le in H
       | H : (_ <=? _) = false |- _ => apply Z.leb_gt in H
       end.
  all: tl_new; rewrite ?wrap64_small by lia; tl_arith s.
Qed.

Lemma turns_FinishPartitionHashing s :
  Inv plan s -> InvSweep plan s -> pc s = PcFinishPartitionHashing ->
  turns_left (FinishPartitionHashing env s) < turns_left s.
Proof.
  intros H (_ & _ & Hst) Hpc. inv_facts H.
  destruct Hrun as (Hc & Hp & Hd); [congruence|].
  rewrite Hpc in Hst.
  destruct Hst as (p & (Hnth & _ & Hsize) & _).
  assert (Hcp : current_partition s = Some p).
  { unfold current_partition. rewrite Hplan. exact Hnth. }
  pose proof (current_in_range s p Hplan Hcp) as Hpr.
  pose proof (tail_cost_pos s p Hplan Hpr) as Htail.
  pose proof (later_cost_pos s Hplan) as Hlater.
  pose proof (pass_cost_pos p kVerifySourceHash Hpr) as HS.
  unfold turns_left at 2, pass_left. rewrite Hpc, Hcp.
  unfold FinishPartitionHashing, FinishPartitionHashing_next,
    current_partition in *.
  sim_goal. rewrite Hcp.
  tl_split.
  all: tl_new; tl_arith s.
  all: unfold tail_cost, later_cost in *; sim;
    repeat match goal with
      | H : verifier_step_ _ = _ |- _ => rewrite H in *
      end; try lia.
  destruct (nth_error (partitions (install_plan_ s))
              (S (partition_index_ s))) as [q|] eqn:Hq;
    [ rewrite (rest_cost_skipn _ _ _ Hq) in *; unfold partition_cost in *;
      rewrite Hplan in Hq; pose proof (nth_in_range plan Hrange _ _ Hq) as Hqr;
      pose proof (pass_cost_pos q kVerifyTargetHash Hqr);
      pose proof (pass_cost_pos q kVerifySourceHash Hqr);
      assert (1 <= rest_cost (skipn (S (S (partition_index_ s)))
                                (partitions (install_plan_ s))))
        by (rewrite Hplan; apply rest_cost_pos, Forall_skipn, Hrange);
      lia
    | rewrite (rest_cost_skipn_None _ _ Hq) in *; lia ].
Qed.

(** One turn of the loop brings the action nearer to its end. *)
Lemma turns_exec s :
  Inv plan s -> InvSweep plan s -> ~ at_rest s ->
  turns_left (exec env s) < turns_left s.
Proof.
  intros HI HS Hrest. unfold exec. destruct (pc s) eqn:Hpc.
  - apply turns_StartPartitionHashing; assumption.
  - apply turns_opened; assumption.
  - apply turns_ScheduleFileSystemRead; assumption.
  - apply turns_ReadVerityAndFooter; assumption.
  - apply turns_ReadVerityAndFooterLoop; assumption.
  - apply turns_FinishPartitionHashing; assumption.
  - destruct (pending_task_ s) eqn:Hpend.
    + apply turns_OnReadDone; assumption.
    + exfalso. apply Hrest. right. auto.
  - exfalso. apply Hrest. left. exact Hpc.
Qed.

Lemma turns_left_nonneg s :
  Inv plan s -> InvSweep plan s -> 0 <= turns_left s.
Proof.
  intros HI (_ & _ & Hst). pose proof (inv_plan _ _ HI) as Hplan.
  unfold turns_left, pass_left.
  destruct (pc s) eqn:Hpc;
    try (destruct (current_partition s) as [p|] eqn:Hcp; [|lia];
         pose proof (current_in_range s p Hplan Hcp) as Hpr;
         pose proof (tail_cost_pos s p Hplan Hpr);
         pose proof (pass_cost_pos p (verifier_step_ s) Hpr);
         pose proof (wrap64_range
                       (partition_size_ s - filesystem_data_end_ s));
         cbv zeta); try lia.
  - destruct Hst as (q & (_ & _ & _ & Hoff & _) & _). lia.
  - destruct Hst as (q & _ & _ & _ & _ & Hb & _). lia.
  - destruct (pending_task_ s) as [b|] eqn:Hpend; [|lia].
    destruct (cancelled_ s) eqn:Hcan; [lia|].
    destruct (current_partition s) as [p|] eqn:Hcp; [|lia].
    destruct (Hst b eq_refl eq_refl) as (q & (_ & _ & _ & Hoff & _) & _).
    pose proof (current_in_range s p Hplan Hcp) as Hpr.
    pose proof (tail_cost_pos s p Hplan Hpr).
    pose proof (wrap64_range (partition_size_ s - filesystem_data_end_ s)).
    cbv zeta. lia.
Qed.

Lemma at_rest_next i s : at_rest s -> at_rest (next env i s).
Proof.
  intros [Hpc|[Hpc Hpend]]; destruct i; simpl.
  - left. unfold exec. rewrite Hpc. exact Hpc.
  - left. rewrite Hpc. exact Hpc.
  - right. unfold exec. rewrite Hpc, Hpend. auto.
  - right. rewrite Hpc. unfold TerminateProcessing.
    autorewrite with cleanup. split; [reflexivity|].
    split_conds; first [reflexivity | assumption].
Qed.

Lemma turns_cancel s :
  Inv plan s -> InvSweep plan s ->
  turns_left (next env Cancel s) <= turns_left s.
Proof.
  intros HI HS. simpl. destruct (pc s) eqn:Hpc; try lia.
  pose proof (turns_left_nonneg s HI HS) as Hnn.
  unfold TerminateProcessing.
  unfold turns_left at 1. autorewrite with cleanup.
  destruct (cancel_task env (trace s)) eqn:Hct; sim_goal; [exact Hnn|].
  unfold turns_left in *. rewrite Hpc in *.
  destruct (pending_task_ s) as [b|] eqn:Hpend; [|lia].
  destruct (cancelled_ s) eqn:Hcan; [lia|].
  destruct HS as (_ & _ & Hst). rewrite Hpc in Hst.
  destruct (Hst b Hpend Hcan)
    as (q & ((Hnth & _) & _ & _ & Hoff & _) & _).
  pose proof (inv_plan _ _ HI) as Hplan.
  assert (Hcp : current_partition s = Some q).
  { unfold current_partition. rewrite Hplan. exact Hnth. }
  rewrite Hcp in *.
  pose proof (current_in_range s q Hplan Hcp) as Hpr.
  pose proof (tail_cost_pos s q Hplan Hpr).
  pose proof (wrap64_range (partition_size_ s - filesystem_data_end_ s)).
  unfold pass_left. rewrite Hpc. cbv zeta. lia.
Qed.

Lemma at_rest_dec s : at_rest s \/ ~ at_rest s.
Proof.
  unfold at_rest. destruct (pc s); try (left; left; reflexivity);
    try (right; intros [?|[? ?]]; discriminate).
  destruct (pending_task_ s); [right|left; right; auto].
  intros [?|[? ?]]; discriminate.
Qed.

Lemma at_rest_run inputs s : at_rest s -> at_rest (run env inputs s).
Proof.
  revert s. induction inputs as [|i l IH]; intros s H; simpl; auto.
  apply IH. apply at_rest_next. exact H.
Qed.

Lemma turns_run inputs s :
  Inv plan s -> InvSweep plan s ->
  turns_left s <= Z.of_nat (ticks inputs) ->
  at_rest (run env inputs s).
Proof.
  revert s. induction inputs as [|i l IH]; intros s HI HS Hle.
  - destruct (at_rest_dec s) as [Hrest|Hrest]; [exact Hrest|exfalso].
    pose proof (turns_exec s HI HS Hrest) as Hdec.
    pose proof (turns_left_nonneg (exec env s) (Inv_exec env plan s HI)
                  (InvSweep_next env plan Hrange Hreads Tick s HI HS)).
    simpl in Hle. lia.
  - destruct i.
    + destruct (at_rest_dec s) as [Hrest|Hrest].
      * apply at_rest_run. exact Hrest.
      * pose proof (turns_exec s HI HS Hrest) as Hdec.
        change (run env (Tick :: l) s) with (run env l (exec env s)).
        apply IH.
        -- apply Inv_exec; assumption.
        -- apply (InvSweep_next env plan Hrange Hreads Tick); assumption.
        -- cbn [ticks] in Hle. lia.
    + change (run env (Cancel :: l) s)
        with (run env l (next env Cancel s)).
      pose proof (turns_cancel s HI HS) as Hc.
      apply IH.
      * apply Inv_next; assumption.
      * apply (InvSweep_next env plan Hrange Hreads Cancel); assumption.
      * cbn [ticks] in Hle. lia.
Qed.

Lemma turns_left_start :
  turns_left (start env (Some plan)) <= rest_cost (partitions plan).
Proof.
  pose proof (rest_cost_pos _ Hrange) as Hpos.
  unfold start, PerformAction. sim_goal.
  destruct (partitions plan) as [|p l] eqn:Hparts.
  - unfold turns_left. sim_goal.
    destruct (has_output_pipe env); sim_goal; unfold initial_state;
      sim_goal; simpl; lia.
  - unfold turns_left, tail_cost, later_cost, current_partition. sim_goal.
    rewrite Hparts. cbn [nth_error skipn rest_cost].
    unfold initial_state. sim_goal. unfold partition_cost.
    cbn [nth_error skipn]. lia.
Qed.

End Turns.

(** X12. The action comes to an end: over a plan whose sizes and offsets fit
    uint64_t, with a descriptor that never returns more than it was asked
    for, once the loop has had [turn_bound plan] turns (two for each byte
    before filesystem_data_end, one for each byte behind it and seven more,
    for both passes of every partition) the action has completed, was
    cancelled, or has failed its CHECK, and nothing is left queued. *)
Theorem action_comes_to_rest env plan inputs :
  InstallPlan_in_range plan ->
  reads_bounded env ->
  (turn_bound plan <= ticks inputs)%nat ->
  let s := run env inputs (start env (Some plan)) in
  pc s = PcAborted \/
  (pc s = PcIdle /\ pending_task_ s = None /\
   (completions (trace s) <> [] \/ cancelled_ s = true)).
Proof.
  intros Hrange Hreads Hbound s. subst s.
  assert (Hrest : at_rest (run env inputs (start env (Some plan)))).
  { apply (turns_run env plan Hrange Hreads).
    - apply Inv_start. reflexivity.
    - apply InvSweep_start.
    - pose proof (turns_left_start env plan Hrange) as Hs.
      pose proof (rest_cost_pos _ Hrange) as Hpos.
      unfold turn_bound in Hbound. lia. }
  destruct Hrest as [Hpc|[Hpc Hpend]]; [left; exact Hpc|right].
  split; [exact Hpc|]. split; [exact Hpend|].
  destruct (InvRes_run env (Some plan) inputs) as (plan' & _ & HR).
  destruct (cancelled_ (run env inputs (start env (Some plan)))) eqn:Hcan;
    [right; reflexivity|left].
  apply (res_completed _ HR Hpc Hpend Hcan).
Qed.

Lemma action_comes_to_rest_witness :
  let env := env_all_ok digest_b in
  let s := run env (repeat Tick 30) (start env (Some plan_tiny)) in
  turn_bound plan_tiny = 30%nat /\
  (pc s = PcAborted \/
   (pc s = PcIdle /\ pending_task_ s = None /\
    (completions (trace s) <> [] \/ cancelled_ s = true))).
Proof.
  cbv zeta. split; [vm_compute; reflexivity|].
  assert (Hrange : InstallPlan_in_range plan_tiny).
  { repeat constructor; apply in_range_scenario; reflexivity. }
  assert (Hreads : reads_bounded (env_all_ok digest_b)).
  { intros h pos count. apply Z.le_refl. }
  apply (action_comes_to_rest (env_all_ok digest_b) plan_tiny
           (repeat Tick 30) Hrange Hreads).
  vm_compute. reflexivity.
Defined.

(** *** A healthy device *)

Section Healthy.

Variable env : Env.

Variable plan : InstallPlan.

Hypothesis Hrange : InstallPlan_in_range plan.

Hypothesis Hreads : reads_bounded env.

Hypothesis Hhealthy : healthy env plan.

Hypothesis Hformed : well_formed plan.

Lemma current_well_formed s p :
  install_plan_ s = plan -> current_partition s = Some p ->
  hash_tree_offset p <= fec_offset p /\
  (string_empty (target_path p) = true -> target_size p = 0).
Proof.
  intros Hplan Hcp. unfold current_partition in Hcp. rewrite Hplan in Hcp.
  apply nth_error_In in Hcp.
  exact (proj1 (Forall_forall _ _) Hformed p Hcp).
Qed.

Ltac good_facts H :=
  let Hstep := fresh "Hstep" in
  let Hcodes := fresh "Hcodes" in
  let Hopened := fresh "Hopened" in
  let Hpending := fresh "Hpending" in
  destruct H as [Hstep Hcodes Hopened Hpending].

(** Uses the health of the collaborators on the conditions of a branch. *)
Ltac good_oracles :=
  repeat match goal with
    | H : ?b = false |- _ => is_var b; subst b
    end;
  repeat match goal with
    | H : fd_open env _ _ _ = false |- _ =>
        rewrite (healthy_open _ _ Hhealthy) in H; discriminate H
    | H : open_cow_fd env _ _ _ = false |- _ =>
        rewrite (healthy_cow _ _ Hhealthy) in H; discriminate H
    | H : hasher_update env _ _ = false |- _ =>
        rewrite (healthy_update _ _ Hhealthy) in H; discriminate H
    | H : hasher_finalize env _ = false |- _ =>
        rewrite (healthy_finalize _ _ Hhealthy) in H; discriminate H
    | H : verity_init env _ _ = false |- _ =>
        rewrite (healthy_verity_init _ _ Hhealthy) in H; discriminate H
    | H : verity_update env _ _ _ = false |- _ =>
        rewrite (healthy_verity_update _ _ Hhealthy) in H; discriminate H
    | H : verify_extents env _ _ _ _ = false |- _ =>
        rewrite (healthy_extents _ _ Hhealthy) in H; discriminate H
    | H : verity_finalize env ?h = (false, _) |- _ =>
        pose proof (healthy_verity_finalize _ _ Hhealthy h) as Hvf;
        rewrite H in Hvf; discriminate Hvf
    end.

(** Uses the shape of the plan on the conditions of a branch. *)
Ltac good_formed :=
  match goal with
  | Hcp : current_partition ?s = Some ?p, Hplan : install_plan_ ?s = _ |- _ =>
      let Hck := fresh "Hck" in
      let Hsz := fresh "Hsz" in
      destruct (current_well_formed s p Hplan Hcp) as (Hck & Hsz);
      repeat match goal with
        | H : (_ <=? _) = false |- _ => apply Z.leb_gt in H
        | H : (_ =? 0) = false |- _ => apply Z.eqb_neq in H
        | H : string_empty (target_path p) = true |- _ =>
            specialize (Hsz H)
        end;
      first [lia | congruence]
  end.

Ltac good_close :=
  try solve [exfalso; good_oracles];
  try solve [exfalso; good_formed];
  constructor; autorewrite with cleanup; sim;
  repeat match goal with
    | H : completions (trace _) = _ |- _ => rewrite H in *
    | H : pending_task_ _ = _ |- _ => rewrite H in *
    | H : cancelled_ _ = _ |- _ => rewrite H in *
    | H : pc _ = _ |- _ => rewrite H in *
    | H : verifier_step_ _ = _ |- _ => rewrite H in *
    end; intros; sim; cbn [In] in *;
  repeat match goal with
    | H : _ /\ _ |- _ => destruct H
    | H : _ \/ _ |- _ => destruct H
    | H : False |- _ => destruct H
    | H : PcStartPartitionHashing_opened _ =
          PcStartPartitionHashing_opened _ |- _ => injection H as H
    | H : Some _ = Some _ |- _ => injection H as H
    end;
  try congruence; try discriminate; try solve [auto]; try solve [eauto];
  try solve [match goal with
             | H : fd_open env _ _ _ = ?x |- ?x = true =>
                 rewrite <- H; apply (healthy_open _ _ Hhealthy)
             end].

Lemma InvGood_start : InvGood (start env (Some plan)).
Proof.
  unfold start, PerformAction; split_head; good_close;
    simpl in *; try congruence; try tauto.
Qed.

Lemma InvGood_exec s :
  Inv plan s -> InvRes s -> InvSweep plan s -> InvGood s ->
  InvGood (exec env s).
Proof.
  intros H HR HS HG. inv_facts H. good_facts HG.
  unfold_action.
  destruct (pc s) eqn:Hpc;
    try (constructor; rewrite ?Hpc; assumption);
    try (destruct Hrun as (Hc & Hp & Hd); [congruence|]);
    unfold in_pass in Hcur; rewrite Hpc in Hcur.
  - split_head; good_close.
  - assert (success = true) by (apply Hopened; reflexivity). subst success.
    split_head; good_close.
  - pose proof (res_buffer _ HR) as Hbuf. unfold holds_buffer in Hbuf.
    rewrite Hpc in Hbuf. specialize (Hbuf I).
    destruct (Z.min (buffer_ s) (wrap64 (filesystem_data_end_ s - offset_ s))
              =? 0) eqn:Hne; [good_close|].
    assert (Hpos : forall h pos,
      0 < fd_read env h pos
            (Z.min (buffer_ s)
               (wrap64 (filesystem_data_end_ s - offset_ s)))).
    { intros h pos. apply (healthy_read _ _ Hhealthy).
      apply Z.eqb_neq in Hne. rewrite Hbuf in *.
      pose proof (wrap64_range (filesystem_data_end_ s - offset_ s)).
      unfold kReadFileBufferSize in *. lia. }
    split_head;
      try match goal with
        | H : (fd_read env ?h ?pos _ <? 0) = true |- _ =>
            apply Z.ltb_lt in H; pose proof (Hpos h pos); exfalso; lia
        end;
      good_close; try (subst; apply Hpos).
  - split_head; good_close.
  - pose proof (res_buffer _ HR) as Hbuf. unfold holds_buffer in Hbuf.
    rewrite Hpc in Hbuf. specialize (Hbuf I).
    assert (Hpos : forall h pos,
      (0 <? bytes_to_read) = true ->
      0 < fd_read env h pos (Z.min (buffer_ s) bytes_to_read)).
    { intros h pos Hlt. apply (healthy_read _ _ Hhealthy).
      apply Z.ltb_lt in Hlt. rewrite Hbuf.
      unfold kReadFileBufferSize. lia. }
    split_head;
      try match goal with
        | Hle : (fd_read env ?h ?pos _ <=? 0) = true |- _ =>
            pose proof (Hpos h pos eq_refl); apply Z.leb_le in Hle;
            exfalso; lia
        end;
      good_close.
  - destruct HS as (_ & _ & Hst). rewrite Hpc in Hst.
    destruct Hst as (p & (Hnth & Hcp & _) & _).
    rewrite Hstep in Hcp.
    pose proof (healthy_digest _ _ Hhealthy _ _ _ Hcp Hnth) as Hdig.
    assert (Hmatch : blob_eqb (target_hash p)
                       (hasher_raw_hash env (trace s)) = true).
    { apply blob_eqb_eq. symmetry. exact Hdig. }
    unfold current_partition. sim_goal. rewrite Hplan, Hnth, Hstep, Hmatch.
    split_head; good_close.
  - destruct (pending_task_ s) as [b|] eqn:Hpend;
      [|constructor; rewrite ?Hpc, ?Hpend; assumption].
    assert (Hd : completions (trace s) = []).
    { destruct (completions (trace s)); [reflexivity|].
      discriminate Hcomp; discriminate. }
    destruct (cancelled_ s) eqn:Hcan.
    + sim_goal. rewrite Hcan. good_close.
    + pose proof (Hpending b eq_refl eq_refl) as Hb.
      sim_goal. rewrite Hcan.
      replace (b =? 0) with false by (symmetry; apply Z.eqb_neq; lia).
      split_head; good_close.
Qed.

Lemma InvGood_TerminateProcessing s :
  InvGood s -> InvGood (TerminateProcessing env s).
Proof.
  intros HG. good_facts HG.
  unfold TerminateProcessing; split_head; good_close.
Qed.

Lemma InvGood_next i s :
  Inv plan s -> InvRes s -> InvSweep plan s -> InvGood s ->
  InvGood (next env i s).
Proof.
  intros HI HR HS HG. destruct i; simpl.
  - apply InvGood_exec; assumption.
  - destruct (pc s); auto using InvGood_TerminateProcessing.
Qed.

Lemma InvGood_run inputs :
  InvGood (run env inputs (start env (Some plan))).
Proof.
  apply (run_invariant env
           (fun s => Inv plan s /\ InvRes s /\ InvSweep plan s /\ InvGood s)).
  - intros i s (HI & HR & HS & HG). split; [|split; [|split]].
    + apply Inv_next; assumption.
    + eapply InvRes_next; eassumption.
    + apply (InvSweep_next env plan Hrange Hreads); assumption.
    + apply InvGood_next; assumption.
  - split; [|split; [|split]].
    + apply Inv_start; reflexivity.
    + apply InvRes_start.
    + apply InvSweep_start.
    + apply InvGood_start.
Qed.

Lemma well_formed_no_abort s :
  Inv plan s -> InvRes s -> pc s <> PcAborted.
Proof.
  intros HI HR Hpc.
  pose proof (res_aborted _ HR Hpc) as Hck. unfold check_failed in Hck.
  destruct Hck as (h & p & _ & Hcp & Hlt).
  destruct (current_well_formed s p (inv_plan _ _ HI) Hcp) as (Hle & _).
  lia.
Qed.

End Healthy.

(** X13. On a healthy device a well-formed update verifies: when every
    device opens and returns data, no collaborator refuses, the digest of
    each target pass is the target_hash of its partition, and every hash
    tree comes before its FEC data, then after [turn_bound plan] turns the
    action was cancelled or has completed with kSuccess, once, and has put
    the plan on its output pipe if it has one. *)
Theorem healthy_update_succeeds env plan inputs :
  InstallPlan_in_range plan ->
  reads_bounded env ->
  healthy env plan ->
  well_formed plan ->
  (turn_bound plan <= ticks inputs)%nat ->
  let s := run env inputs (start env (Some plan)) in
  cancelled_ s = true \/
  (completions (trace s) = [kSuccess] /\
   (has_output_pipe env = true -> outputs (trace s) = [plan])).
Proof.
  intros Hrange Hreads Hhealthy Hformed Hbound s. subst s.
  set (s := run env inputs (start env (Some plan))).
  assert (HI : Inv plan s).
  { apply Inv_run. }
  assert (HR : InvRes s).
  { destruct (InvRes_run env (Some plan) inputs) as (plan' & _ & HR).
    exact HR. }
  pose proof (InvGood_run env plan Hrange Hreads Hhealthy Hformed inputs)
    as HG. fold s in HG.
  assert (Hrest : at_rest s).
  { apply (turns_run env plan Hrange Hreads).
    - apply Inv_start. reflexivity.
    - apply InvSweep_start.
    - pose proof (turns_left_start env plan Hrange) as Hs.
      pose proof (rest_cost_pos _ Hrange) as Hpos.
      unfold turn_bound in Hbound. lia. }
  destruct Hrest as [Hpc|[Hpc Hpend]].
  { exfalso. exact (well_formed_no_abort plan Hformed s HI HR Hpc). }
  destruct (cancelled_ s) eqn:Hcan; [left; reflexivity|right].
  pose proof (res_completed _ HR Hpc Hpend Hcan) as Hne.
  pose proof (inv_once _ _ HI) as Honce.
  assert (Hc : completions (trace s) = [kSuccess]).
  { destruct (completions (trace s)) as [|c [|c' l]] eqn:Hcs.
    - congruence.
    - rewrite (good_codes _ HG c); [reflexivity|].
      rewrite Hcs. left. reflexivity.
    - simpl in Honce. lia. }
  split; [exact Hc|].
  intros Hpipe.
  destruct (InvOut_run env plan inputs) as [_ [_ Hsome]].
  destruct (Hsome kSuccess Hc) as (_ & Hout & _).
  fold s in Hout. rewrite Hout, Hpipe. reflexivity.
Qed.

Lemma healthy_update_succeeds_witness :
  let env := env_all_ok digest_b in
  let s := run env (repeat Tick 30) (start env (Some plan_tiny)) in
  cancelled_ s = true \/
  (completions (trace s) = [kSuccess] /\
   (has_output_pipe env = true -> outputs (trace s) = [plan_tiny])).
Proof.
  cbv zeta.
  assert (Hrange : InstallPlan_in_range plan_tiny).
  { repeat constructor; apply in_range_scenario; reflexivity. }
  assert (Hreads : reads_bounded (env_all_ok digest_b)).
  { intros h pos count. apply Z.le_refl. }
  assert (Hhealthy : healthy (env_all_ok digest_b) plan_tiny).
  { constructor; try reflexivity.
    - intros h pos count Hc. exact Hc.
    - intros h index p _ Hnth.
      destruct index as [|[|n]]; simpl in Hnth; try discriminate.
      injection Hnth as <-. reflexivity. }
  assert (Hformed : well_formed plan_tiny).
  { repeat constructor; simpl; try lia; intros; discriminate. }
  apply (healthy_update_succeeds (env_all_ok digest_b) plan_tiny
           (repeat Tick 30) Hrange Hreads Hhealthy Hformed).
  vm_compute. reflexivity.
Defined.

(** *** The output object *)

Lemma ErrorCode_eqb_kSuccess c :
  ErrorCode_eqb c kSuccess = true -> c = kSuccess.
Proof. destruct c; simpl; intros H; try discriminate H; reflexivity. Qed.

(** X14. An output object stands for success: whatever the input and the
    run, if the action has put anything on its output pipe then it has an
    output pipe, it was given a plan, it has completed exactly once, with
    kSuccess, and that plan is the one thing it has put there.  A run that
    fails, or one without an input plan, sets no output object. *)
Theorem output_only_on_success env input inputs :
  let s := run env inputs (start env input) in
  outputs (trace s) <> [] ->
  completions (trace s) = [kSuccess] /\
  has_output_pipe env = true /\
  exists plan, input = Some plan /\ outputs (trace s) = [plan].
Proof.
  intros s Hout. subst s. destruct input as [plan|].
  - destruct (InvOut_run env plan inputs) as [HI [Hnone Hsome]].
    pose proof (inv_once _ _ HI) as Honce.
    set (s := run env inputs (start env (Some plan))) in *.
    destruct (completions (trace s)) as [|c [|c' l]] eqn:Hcs.
    + destruct (Hnone eq_refl) as (_ & Ho & _). congruence.
    + destruct (Hsome c eq_refl) as (_ & Ho & _).
      destruct (ErrorCode_eqb c kSuccess) eqn:Hc;
        [|rewrite Ho in Hout; simpl in Hout; congruence].
      destruct (has_output_pipe env) eqn:Hpipe;
        [|rewrite Ho in Hout; simpl in Hout; congruence].
      apply ErrorCode_eqb_kSuccess in Hc. subst c.
      split; [reflexivity|]. split; [reflexivity|].
      exists plan. split; [reflexivity|exact Ho].
    + simpl in Honce. lia.
  - exfalso. apply Hout.
    destruct (Inv_start_any env None) as (plan & HI).
    destruct (completed_run env plan inputs (start env None) HI)
      as (_ & Ho & _).
    + unfold start, PerformAction. sim_goal. simpl. discriminate.
    + rewrite Ho. unfold start, PerformAction. sim_goal. reflexivity.
Qed.

Lemma output_only_on_success_witness :
  let env := env_all_ok digest_b in
  let s := run env (repeat Tick 30) (start env (Some plan_tiny)) in
  outputs (trace s) <> [] /\
  completions (trace s) = [kSuccess] /\
  has_output_pipe env = true /\
  exists plan, Some plan_tiny = Some plan /\ outputs (trace s) = [plan].
Proof.
  cbv zeta.
  assert (Hout : outputs (trace (run (env_all_ok digest_b) (repeat Tick 30)
                   (start (env_all_ok digest_b) (Some plan_tiny)))) <> []).
  { vm_compute. discriminate. }
  split; [exact Hout|].
  exact (output_only_on_success (env_all_ok digest_b) (Some plan_tiny)
           (repeat Tick 30) Hout).
Defined.

(** *** Input and output that fails *)

Lemma Cleanup_io_failures env code s :
  io_failures (trace (Cleanup env code s)) = io_failures (trace s).
Proof. unfold Cleanup, UpdateProgress; split_conds; reflexivity. Qed.

Lemma Cleanup_empty_reads env code s :
  empty_reads (trace (Cleanup env code s)) = empty_reads (trace s).
Proof. unfold Cleanup, UpdateProgress; split_conds; reflexivity. Qed.

Lemma io_failures_In h e :
  In e h ->
  match e with
  | EvOpen _ _ false | EvOpenCowFd _ _ false =>
      In kFilesystemVerifierError (io_failures h)
  | EvHasherUpdate _ false | EvHasherFinalize false =>
      In kError (io_failures h)
  | _ => True
  end.
Proof.
  induction h as [|e' h IH]; [intros []|].
  intros [->|Hin].
  - destruct e as [| | | | | | | | [] [] [] | [] [] [] | | | ? [] | [] | | |
                   | | |]; simpl; auto.
  - specialize (IH Hin).
    destruct e as [| | | | | | | | ? ? [] | ? ? [] | | | ? [] | [] | | |
                   | | |]; try exact I;
    destruct e' as [| | | | | | | | ? ? [] | ? ? [] | | | ? [] | [] | | |
                    | | |]; simpl; auto.
Qed.

Lemma empty_reads_In h offset count result :
  In (EvRead offset count result) h -> result <= 0 -> empty_reads h <> [].
Proof.
  induction h as [|e h IH]; [intros []|].
  intros [->|Hin] Hle.
  - simpl. apply Z.leb_le in Hle. rewrite Hle. discriminate.
  - specialize (IH Hin Hle).
    destruct e; simpl; try assumption.
    destruct (result0 <=? 0); [discriminate|assumption].
Qed.

Ltac io_solve :=
  intros; subst;
  repeat match goal with
    | H : ?x <> ?x |- _ => exfalso; apply H; reflexivity
    | H : ?x = ?x -> _ |- _ => specialize (H eq_refl)
    | H : _ /\ _ |- _ => destruct H
    end;
  try discriminate; try congruence;
  try solve [repeat constructor; auto];
  try solve [auto];
  try solve [repeat match goal with
               | H : (_ <? _) = false |- _ => apply Z.ltb_ge in H
               | H : (_ <=? _) = true |- _ => apply Z.leb_le in H
               end;
             split; [reflexivity | f_equal; lia]].

Ltac io_close :=
  unfold InvIO;
  rewrite ?Cleanup_io_failures, ?Cleanup_empty_reads;
  autorewrite with cleanup; sim; cbn [io_failures empty_reads] in *;
  repeat match goal with
    | H : completions (trace _) = _ |- _ => rewrite H in *
    | H : io_failures (trace _) = _ |- _ => rewrite H in *
    | H : empty_reads (trace _) = _ |- _ => rewrite H in *
    | H : cancelled_ _ = _ |- _ => rewrite H in *
    | H : (_ <=? 0) = _ |- _ => rewrite H in *
    end;
  sim; cbn [io_failures empty_reads] in *;
  repeat match goal with
    | |- context [if ?c then _ else _] => destruct c eqn:?
    end;
  (split;
   [ intros;
     first [ discriminate
           | split; [io_solve | split; [io_solve | io_solve]] ]
   | let c := fresh "c" in
     let Hc := fresh "Hc" in
     intros c Hc;
     first [ discriminate
           | try (injection Hc as <-); split; [io_solve | io_solve] ] ]).

Section Failing.

Variable env : Env.

Lemma InvIO_start plan : InvIO (start env (Some plan)).
Proof.
  unfold start, PerformAction; sim.
  destruct (partitions plan) eqn:Hparts; split_head; unfold InvIO; simpl;
    (split;
     [ intros;
       first [ discriminate
             | split; [reflexivity|split; [constructor|intros; congruence]] ]
     | intros c Hc;
       first [discriminate
             | injection Hc as <-; split; [constructor|intros; congruence]]
     ]).
Qed.

Lemma InvIO_exec plan s :
  Inv plan s -> InvIO s -> InvIO (exec env s).
Proof.
  intros H [Hnone Hsome]. inv_facts H.
  unfold_action.
  destruct (pc s) eqn:Hpc;
    try (destruct Hrun as (Hc & Hp & Hd); [congruence|];
         destruct (Hnone Hd) as (Hf & Hall & Hr);
         assert (Her : empty_reads (trace s) = []);
         [ destruct (empty_reads (trace s)); [reflexivity|];
           destruct (Hr Hc) as [Hx _]; [discriminate|discriminate Hx]
         | clear Hr ]).
  - specialize (Hf ltac:(discriminate)). split_head; io_close.
  - destruct success.
    + specialize (Hf ltac:(discriminate)). split_head; io_close.
    + clear Hf. unfold in_pass in Hcur. rewrite Hpc in Hcur.
      specialize (Hcur (or_introl I)).
      split_head;
        try match goal with
          | H : current_partition s = None |- _ =>
              apply current_partition_None in H; rewrite Hplan in H;
              exfalso; lia
          end;
        io_close.
  - specialize (Hf ltac:(discriminate)). split_head; io_close.
  - specialize (Hf ltac:(discriminate)). split_head; io_close.
  - specialize (Hf ltac:(discriminate)). split_head; io_close.
  - specialize (Hf ltac:(discriminate)). split_head; io_close.
  - destruct (pending_task_ s) as [b|] eqn:Hpend;
      [|unfold InvIO; rewrite ?Hpc, ?Hpend; split; assumption].
    assert (Hd : completions (trace s) = []).
    { destruct (completions (trace s)); [reflexivity|].
      discriminate Hcomp; discriminate. }
    destruct (Hnone Hd) as (Hf & Hall & Hr).
    specialize (Hf ltac:(discriminate)).
    destruct (cancelled_ s) eqn:Hcan.
    + sim_goal. rewrite Hcan. io_close.
    + destruct (empty_reads (trace s)) as [|r l] eqn:Her.
      * split_head; io_close.
      * destruct (Hr eq_refl) as [_ Hb]; [discriminate|].
        injection Hb as ->. sim_goal. rewrite Hcan.
        change (0 =? 0) with true. cbv iota. io_close.
  - unfold InvIO; rewrite ?Hpc; split; assumption.
Qed.

Lemma InvIO_TerminateProcessing s :
  pc s = PcIdle -> InvIO s -> InvIO (TerminateProcessing env s).
Proof.
  intros Hpc [Hnone Hsome].
  assert (Hcomp : completions (trace (TerminateProcessing env s)) =
                  completions (trace s)).
  { unfold TerminateProcessing; autorewrite with cleanup; split_conds;
      reflexivity. }
  assert (Hf : io_failures (trace (TerminateProcessing env s)) =
               io_failures (trace s)).
  { unfold TerminateProcessing; rewrite Cleanup_io_failures; split_conds;
      reflexivity. }
  assert (Hr : empty_reads (trace (TerminateProcessing env s)) =
               empty_reads (trace s)).
  { unfold TerminateProcessing; rewrite Cleanup_empty_reads; split_conds;
      reflexivity. }
  assert (Hcan : cancelled_ (TerminateProcessing env s) = true).
  { unfold TerminateProcessing; autorewrite with cleanup; split_conds;
      reflexivity. }
  unfold InvIO. rewrite Hcomp, Hf, Hr, Hcan. split.
  - intros Hd. destruct (Hnone Hd) as (Ha & Hall & _).
    split; [|split; [exact Hall|discriminate]].
    intros _. apply Ha. rewrite Hpc. discriminate.
  - exact Hsome.
Qed.

Lemma InvIO_run plan inputs :
  Inv plan (run env inputs (start env (Some plan))) /\
  InvIO (run env inputs (start env (Some plan))).
Proof.
  apply (run_invariant env (fun s => Inv plan s /\ InvIO s)).
  - intros i s [HI HO]; split; [apply Inv_next; assumption|].
    destruct i; simpl.
    + apply (InvIO_exec plan); assumption.
    + destruct (pc s) eqn:Hpc; auto using InvIO_TerminateProcessing.
  - split; [apply Inv_start; reflexivity | apply InvIO_start].
Qed.

End Failing.

(** X15. What failing input and output comes to.  A descriptor that does not
    open ends the run with kFilesystemVerifierError, as soon as
    StartPartitionHashing has looked at what InitializeFd returned; a hasher
    that refuses an Update or its Finalize ends it with kError; and after a
    read that brought no data the run never completes with kSuccess. *)
Theorem io_failure_codes env plan inputs :
  let s := run env inputs (start env (Some plan)) in
  ((exists path writable, In (EvOpen path writable false) (trace s)) \/
   (exists pname path, In (EvOpenCowFd pname path false) (trace s)) ->
   completions (trace s) = [kFilesystemVerifierError] \/
   pc s = PcStartPartitionHashing_opened false) /\
  ((exists count, In (EvHasherUpdate count false) (trace s)) \/
   In (EvHasherFinalize false) (trace s) ->
   completions (trace s) = [kError]) /\
  (forall offset count result,
   In (EvRead offset count result) (trace s) -> result <= 0 ->
   ~ In kSuccess (completions (trace s))).
Proof.
  intros s. subst s.
  destruct (InvIO_run env plan inputs) as [HI [Hnone Hsome]].
  pose proof (inv_once _ _ HI) as Honce.
  set (s := run env inputs (start env (Some plan))) in *.
  assert (Hopen :
    (exists path writable, In (EvOpen path writable false) (trace s)) \/
    (exists pname path, In (EvOpenCowFd pname path false) (trace s)) ->
    In kFilesystemVerifierError (io_failures (trace s))).
  { intros [(path & writable & Hin)|(pname & path & Hin)];
      exact (io_failures_In _ _ Hin). }
  assert (Hhash :
    (exists count, In (EvHasherUpdate count false) (trace s)) \/
    In (EvHasherFinalize false) (trace s) ->
    In kError (io_failures (trace s))).
  { intros [(count & Hin)|Hin]; exact (io_failures_In _ _ Hin). }
  destruct (completions (trace s)) as [|c [|c' l]] eqn:Hcs.
  - destruct (Hnone eq_refl) as (Ha & Hall & _).
    split; [|split].
    + intros Hev. right. apply Hopen in Hev.
      destruct (pc s) as [|[]| | | | | |] eqn:Hpc; try reflexivity;
        rewrite Ha in Hev by discriminate; destruct Hev.
    + intros Hev. apply Hhash in Hev.
      pose proof (proj1 (Forall_forall _ _) Hall _ Hev). discriminate.
    + intros offset count result _ _ [].
  - destruct (Hsome c eq_refl) as (Hall & Hr).
    split; [|split].
    + intros Hev. left. apply Hopen in Hev.
      rewrite (proj1 (Forall_forall _ _) Hall _ Hev). reflexivity.
    + intros Hev. apply Hhash in Hev.
      rewrite (proj1 (Forall_forall _ _) Hall _ Hev). reflexivity.
    + intros offset count result Hin Hle [Hc|[]]. subst c.
      destruct (Hr (empty_reads_In _ _ _ _ Hin Hle)); discriminate.
  - simpl in Honce. lia.
Qed.
